(** * OpenScope CA analysis: session alignment, quintile segmentation and
      ROI grouping

    A shallow embedding of the parts of [analysis/session.py],
    [analysis/quint_analys.py], [analysis/signif_grps.py] and
    [sess_util/sess_load_util.py] that decide segment and frame queries,
    quintile segmentation, running-speed outlier repair, frame alignment,
    grayscreen frames and ROI groups, followed by their properties.

    Conventions.
    - Python [int]s are [Z] (indices that numpy produces with [np.where] are
      [nat]); a Python exception is a value of [exn] carried by [result].
    - A float is the rational [Q] it stands for; a float array that may hold
      NaN is a [list (option Q)] with [None] for NaN.  The float operations of
      the embedded code (a subtraction, a mean of two values, a division by
      the number of quintiles, a product and a sum) are taken exactly, where
      binary64 rounds.  The statements about them are therefore either about
      inputs on which binary64 is exact (integer samples, four quintiles of
      small segment numbers) or worded in terms of the values the code
      computes ([np_diff_f], [out_idx]), so that rounding does not bear on
      them.  [in_quint_b64] is the test of the quintiles in binary64 itself.
    - A Python [set] of ROI numbers is a [gset nat]; [list(set(..))] is
      [elements], whose order is left unspecified as it is in Python.
    - Printed warnings are collected in a list of [warning] events. *)

From Stdlib Require Import ZArith QArith Qround Qabs Lia Permutation.
From Stdlib Require PrimFloat Uint63.
From stdpp Require Import base list gmap sets strings sorting pretty.

Set Default Proof Using "Type".
Set Warnings "-clear-no-such-hyp".
Open Scope Z_scope.

(** ** Python results and exceptions *)

Inductive exn : Type :=
  | ValueError (msg : string)
  | IndexError
  | TypeError
  | ZeroDivisionError
  | UnboundLocalError
  | AttributeError.

Inductive result (A : Type) : Type :=
  | Ok (a : A)
  | Raise (e : exn).
Arguments Ok {A} a.
Arguments Raise {A} e.

#[global] Instance result_ret : MRet result := fun A a => Ok a.
#[global] Instance result_bind : MBind result := fun A B f m =>
  match m with Ok a => f a | Raise e => Raise e end.

Definition is_ValueError (e : exn) : bool :=
  match e with ValueError _ => true | _ => false end.


(** [try: r except ValueError: h] *)
Definition except_ValueError {A} (r : result A) (h : exn -> result A) : result A :=
  match r with
  | Ok a => Ok a
  | Raise e => if is_ValueError e then h e else Raise e
  end.

(** [for x in l: acc = f acc x], stopping at the first exception. *)
Fixpoint foldM {A B} (f : B -> A -> result B) (acc : B) (l : list A) : result B :=
  match l with
  | [] => Ok acc
  | x :: t => match f acc x with Ok acc' => foldM f acc' t | Raise e => Raise e end
  end.

Fixpoint mapM_res {A B} (f : A -> result B) (l : list A) : result (list B) :=
  match l with
  | [] => Ok []
  | x :: t =>
      match f x with
      | Ok y => match mapM_res f t with Ok ys => Ok (y :: ys) | Raise e => Raise e end
      | Raise e => Raise e
      end
  end.

(** Printed warnings. *)
Inductive warning : Type :=
  | WarnRunReplaced (n : nat)        (* "{} running values were replaced with NaNs." *)
  | WarnRunConsec (n : Z)            (* "{} consecutive running values had to be dropped." *)
  | WarnDroppedSeqs (n : nat)        (* "{} dropped stimulus frames sequences (2nd align)." *)
  | WarnTwop2stimfrNotWorking.       (* "self._get_twop2stimf() not working for this session." *)

(** ** Numeric helpers *)

Definition Qltb (a b : Q) : bool := negb (Qle_bool b a).

Definition range (n : Z) : list Z := map Z.of_nat (seq 0 (Z.to_nat n)).

(** [min(l)] and [max(l)]; both raise ValueError on an empty sequence. *)
Definition list_min (l : list Z) : result Z :=
  match l with
  | [] => Raise (ValueError "min() arg is an empty sequence")
  | x :: t => Ok (fold_left Z.min t x)
  end.

Definition list_max (l : list Z) : result Z :=
  match l with
  | [] => Raise (ValueError "max() arg is an empty sequence")
  | x :: t => Ok (fold_left Z.max t x)
  end.

(** [np.diff] on an integer array. *)
Fixpoint np_diff (l : list Z) : list Z :=
  match l with
  | a :: ((b :: _) as t) => (b - a) :: np_diff t
  | _ => []
  end.

(** [l[a:b]] for [0 <= a]. *)
Definition slice {A} (a b : nat) (l : list A) : list A := take (b - a)%nat (drop a l).

(** [x in range(lo, hi)] *)
Definition in_range (lo hi x : Z) : bool := (lo <=? x) && (x <? hi).

(** ** [util/gen_util.py] (not part of the sources at hand) *)

Module GenUtil.

(** A criterion argument as the callers write it: the string ['any'],
    [None], or a value or list of values ([list_if_not] turns a single
    value into a one-element list, so both are [Vals]). *)
Inductive crit (A : Type) : Type :=
  | Any
  | NoneArg
  | Vals (l : list A).
Arguments Any {A}.
Arguments NoneArg {A}.
Arguments Vals {A} l.

(** Modelled from the spec: [gen_util.get_df_label_vals] is missing from the
    sources.  A criterion is a literal value, a list of allowed values, or
    the sentinel "any", which stands for all values observed in that column
    of the live table; an absent criterion ([None]) constrains nothing
    either. *)
Definition get_df_label_vals {R A} `{EqDecision A}
    (df : list R) (col : R -> A) (c : crit A) : list A :=
  match c with
  | Any | NoneArg => remove_dups (map col df)
  | Vals l => l
  end.

(** Modelled from the spec: [gen_util.get_df_vals] is missing from the
    sources.  The values observed in column [col] among the rows whose
    criterion column [ccol] holds [cval]. *)
Definition get_df_vals {R A B} `{EqDecision A} `{EqDecision B}
    (df : list R) (ccol : R -> B) (cval : B) (col : R -> A) : list A :=
  remove_dups (map col (filter (fun r => ccol r = cval) df)).

(** Modelled from the spec: [gen_util.remove_if] is missing from the sources;
    the source comment at its call reads "ensure that the -1s are removed". *)
Definition remove_if (l : list Z) (v : Z) : list Z :=
  filter (fun x => x ≠ v) l.

(** Modelled from the spec: [gen_util.consec] is missing from the sources.
    It collapses each run of consecutive values to the first value of the
    run and reports, per retained value, how many consecutive original
    values it represents.  Values are consecutive when they increase by 1,
    or, with [smallest], by the smallest interval present. *)
Fixpoint consec_from (interv prev first : Z) (n : nat) (l : list Z) : list (Z * nat) :=
  match l with
  | [] => [(first, n)]
  | v :: t =>
      if v - prev =? interv then consec_from interv v first (S n) t
      else (first, n) :: consec_from interv v v 1 t
  end.

Definition consec (idx : list Z) (smallest : bool) : list Z * list nat :=
  match idx with
  | [] => ([], [])
  | v :: t =>
      let interv :=
        if smallest then
          match list_min (np_diff idx) with Ok d => d | Raise _ => 1 end
        else 1 in
      let runs := consec_from interv v v 1 t in
      (map fst runs, map snd runs)
  end.

End GenUtil.

(** ** [analysis/session.py]: the [Stim] segment queries *)

Module Stim.
Import GenUtil.

(** A value of the two generic stimulus parameter columns: a number
    (orientation, kappa, size) or a string (direction). *)
Inductive pyval : Type :=
  | VInt (z : Z)
  | VStr (s : string).

#[global] Instance pyval_eq_dec : EqDecision pyval.
Proof. solve_decision. Defined.

(** One row of [sess.stim_df]. *)
Record stim_row : Type := {
  stimType : string;
  stimPar1 : pyval;
  stimPar2 : pyval;
  surp : Z;
  stimSeg : Z;
  gabfr : Z;
  start2pfr : Z;
  end2pfr : Z;
  num2pfr : Z
}.

(** The attributes of a [Stim] object the segment queries read. *)
Record stim : Type := {
  stimtype : string;                       (* 'gabors' or 'bricks' *)
  stim_df : list stim_row;                 (* self.sess.stim_df *)
  block_ran_seg : list (list (Z * Z))      (* display sequence x block x [start, end] *)
}.

(** A 2p frame range argument: ['any'], [None] or a list. *)
Inductive frran : Type :=
  | FrAny
  | FrNone
  | FrList (l : list Z).

(** [len(x)] of a frame range argument. *)
Definition frran_len (x : frran) : result nat :=
  match x with
  | FrAny => Ok 3%nat
  | FrNone => Raise TypeError
  | FrList l => Ok (length l)
  end.

(** The keyword arguments of the criteria functions.  Left out by the
    caller, the first eight are ['any'], the next four [None], [remconsec] is
    False and [by] is ['block']. *)
Record seg_args : Type := {
  a_stimPar1 : crit pyval;
  a_stimPar2 : crit pyval;
  a_surp : crit Z;
  a_stimSeg : crit Z;
  a_gabfr : crit Z;
  a_start2pfr : frran;
  a_end2pfr : frran;
  a_num2pfr : frran;
  a_gabk : crit pyval;
  a_gab_ori : crit pyval;
  a_bri_size : crit pyval;
  a_bri_dir : crit pyval;
  a_remconsec : bool;
  a_by : string
}.

(** The formatted criteria returned by [_format_stim_criteria]. *)
Record criteria : Type := {
  c_stimPar1 : list pyval;
  c_stimPar2 : list pyval;
  c_surp : list Z;
  c_stimSeg : list Z;
  c_gabfr : list Z;
  c_start2pfr_min : Z; c_start2pfr_max : Z;
  c_end2pfr_min : Z; c_end2pfr_max : Z;
  c_num2pfr_min : Z; c_num2pfr_max : Z
}.

(** [int(df[col].min())], [int(df[col].max() + 1)]: on an empty column the
    extremum is NaN and [int] raises ValueError. *)
Definition col_min (df : list stim_row) (col : stim_row -> Z) : result Z :=
  match map col df with
  | [] => Raise (ValueError "cannot convert float NaN to integer")
  | x :: t => Ok (fold_left Z.min t x)
  end.

Definition col_max1 (df : list stim_row) (col : stim_row -> Z) : result Z :=
  match map col df with
  | [] => Raise (ValueError "cannot convert float NaN to integer")
  | x :: t => Ok (fold_left Z.max t x + 1)
  end.

(** One step of the loop over [pars]: ['any'] is replaced by the values of
    the stimulus' rows, and whatever is not [None] is collected. *)
Definition resolve_par (st : stim) (col : stim_row -> pyval) (p : crit pyval) : list pyval :=
  match p with
  | Any => get_df_vals (stim_df st) stimType (stimtype st) col
  | NoneArg => []
  | Vals l => l
  end.

(** The range of one of the frame columns.  [len_of] is the argument whose
    length the source tests (always [start2pfr]). *)
Definition resolve_ran (df : list stim_row) (col : stim_row -> Z)
    (arg len_of : frran) (msg : string) : result (Z * Z) :=
  match arg with
  | FrAny | FrNone =>
      lo ← col_min df col; hi ← col_max1 df col; Ok (lo, hi)
  | FrList l =>
      n ← frran_len len_of;
      if decide (n = 2%nat) then
        match l with
        | [lo; hi] => Ok (lo, hi)
        | _ =>
            (* [x_min, x_max = x], in the words of CPython 3 *)
            Raise (ValueError
              (if (length l <? 2)%nat
               then "not enough values to unpack (expected 2, got " +:+ pretty (length l) +:+ ")"
               else "too many values to unpack (expected 2)"))
        end
      else Raise (ValueError msg)
  end.

Definition _format_stim_criteria (st : stim) (a : seg_args) : result criteria :=
  (* remove brick criteria for gabors and vv *)
  let is_gab := String.eqb (stimtype st) "gabors" in
  let is_bri := String.eqb (stimtype st) "bricks" in
  let bri_size := if is_gab then NoneArg else a_bri_size a in
  let bri_dir := if is_gab then NoneArg else a_bri_dir a in
  let gabfr := if negb is_gab && is_bri then NoneArg else a_gabfr a in
  let gabk := if negb is_gab && is_bri then NoneArg else a_gabk a in
  let gab_ori := if negb is_gab && is_bri then NoneArg else a_gab_ori a in
  (* pars = [gabk, gab_ori, bri_size, bri_dir] *)
  let sp2 := resolve_par st stimPar2 gabk in
  let sp1 := resolve_par st stimPar1 gab_ori in
  let sp1 := sp1 ++ resolve_par st stimPar1 bri_size in
  let sp2 := sp2 ++ resolve_par st stimPar2 bri_dir in
  let par1 := if decide (length sp1 ≠ 0%nat) then Vals sp1 else a_stimPar1 a in
  let par2 := if decide (length sp2 ≠ 0%nat) then Vals sp2 else a_stimPar2 a in
  let df := stim_df st in
  (* converts values to lists or gets all possible values, if 'any' *)
  let par1 := get_df_label_vals df stimPar1 par1 in
  let par2 := get_df_label_vals df stimPar2 par2 in
  let surps := get_df_label_vals df surp (a_surp a) in
  let segs := get_df_label_vals df stimSeg (a_stimSeg a) in
  (* here, ensure that the -1s are removed *)
  let segs := remove_if segs (-1) in
  let gabfrs := get_df_label_vals df Stim.gabfr gabfr in
  '(s_min, s_max) ← resolve_ran df start2pfr (a_start2pfr a) (a_start2pfr a)
                      "`start2pfr` must be of length 2 if passed.";
  '(e_min, e_max) ← resolve_ran df end2pfr (a_end2pfr a) (a_start2pfr a)
                      "`end2pfr` must be of length 2 if passed.";
  '(n_min, n_max) ← resolve_ran df num2pfr (a_num2pfr a) (a_start2pfr a)
                      "`num2pfr` must be of length 2 if passed.";
  Ok {| c_stimPar1 := par1; c_stimPar2 := par2; c_surp := surps;
        c_stimSeg := segs; c_gabfr := gabfrs;
        c_start2pfr_min := s_min; c_start2pfr_max := s_max;
        c_end2pfr_min := e_min; c_end2pfr_max := e_max;
        c_num2pfr_min := n_min; c_num2pfr_max := n_max |}.

(** [x in l] / [Series.isin(l)] *)
Definition isin {A} `{EqDecision A} (x : A) (l : list A) : bool :=
  bool_decide (x ∈ l).

(** [self.stimtype[0]] *)
Definition first_char (s : string) : string := String.substring 0 1 s.

(** The row mask shared by [get_stim_df_by_criteria] and
    [get_segs_by_criteria]. *)
Definition row_mask (st : stim) (c : criteria) (r : stim_row) : bool :=
  String.eqb (stimType r) (first_char (stimtype st))
  && isin (stimPar1 r) (c_stimPar1 c)
  && isin (stimPar2 r) (c_stimPar2 c)
  && isin (surp r) (c_surp c)
  && isin (stimSeg r) (c_stimSeg c)
  && isin (gabfr r) (c_gabfr c)
  && (c_start2pfr_min c <=? start2pfr r) && (start2pfr r <? c_start2pfr_max c)
  && (c_end2pfr_min c <=? end2pfr r) && (end2pfr r <? c_end2pfr_max c)
  && (c_num2pfr_min c <=? num2pfr r) && (num2pfr r <? c_num2pfr_max c).

Definition get_stim_df_by_criteria (st : stim) (a : seg_args) : result (list stim_row) :=
  c ← _format_stim_criteria st a;
  Ok (filter (fun r => row_mask st c r = true) (stim_df st)).

(** Removal of consecutive values: a value is kept when it is the first or
    does not follow its predecessor by exactly 1. *)
Fixpoint remconsec_from (prev : Z) (l : list Z) : list Z :=
  match l with
  | [] => []
  | v :: t => (if v =? prev + 1 then [] else [v]) ++ remconsec_from v t
  end.

Definition remconsec (l : list Z) : list Z :=
  match l with
  | [] => []
  | v :: t => v :: remconsec_from v t
  end.

(** The segments of one block [j = [start, end]] that fit the criteria. *)
Definition block_segs (st : stim) (c : criteria) (rc : bool) (j : Z * Z) : list Z :=
  let idxs :=
    map stimSeg
      (filter (fun r => (row_mask st c r && (fst j <=? stimSeg r) && (stimSeg r <? snd j)) = true)
              (stim_df st)) in
  if rc then remconsec idxs else idxs.

(** What [get_segs_by_criteria] returns, by the value of [by]. *)
Inductive segs_out : Type :=
  | BySeg (l : list Z)
  | ByBlock (l : list (list Z))
  | ByDisp (l : list (list (list Z))).

Definition nonempty {A} (l : list A) : bool :=
  match l with [] => false | _ => true end.

(** The loops over [block_ran_seg]: per display sequence [i] and block [j]
    the segments that fit, leaving out the blocks, and then the display
    sequences, that hold none. *)
Definition nested_segs (st : stim) (c : criteria) (rc : bool) : list (list (list Z)) :=
  filter (fun temp => nonempty temp = true)
    (map (fun i => filter (fun idxs => nonempty idxs = true) (map (block_segs st c rc) i))
         (block_ran_seg st)).

(** For a value of [by] other than 'block', 'seg' and 'disp' the source calls
    [gen_util.accepted_values_error], which is not part of the sources; the
    last branch takes it to raise a ValueError, with a message of the
    embedding's own.  The properties below do not depend on which exception
    that is. *)
Definition get_segs_by_criteria (st : stim) (a : seg_args) : result segs_out :=
  c ← _format_stim_criteria st a;
  let segs := nested_segs st c (a_remconsec a) in
  (* check for empty *)
  if decide (length segs = 0%nat) then
    Raise (ValueError "No segments fit these criteria.")
  else if String.eqb (a_by a) "block" then Ok (ByBlock (concat segs))
  else if String.eqb (a_by a) "seg" then Ok (BySeg (concat (concat segs)))
  else if String.eqb (a_by a) "disp" then Ok (ByDisp segs)
  else Raise (ValueError "by can only take the values block, disp, seg")
.

End Stim.

(** ** [analysis/quint_analys.py] *)

Module QuintAnalys.
Import GenUtil Stim.

(** The fields of the [StimPar] named tuple that [quint_segs] reads. *)
Record StimPar : Type := {
  sp_gabfr : crit Z;
  sp_gabk : crit pyval;
  sp_gab_ori : crit pyval;
  sp_bri_dir : crit pyval;
  sp_bri_size : crit pyval
}.

(** The value of a float expression: a number, an infinity or NaN.  The
    quintile length is infinite when [n_quints] is 0 and the segment extremes
    are numpy integers.  A number is the exact value of the expression: the
    division, the product and the sum below are not rounded as binary64
    rounds them.  For four quintiles of segment numbers far below 2^53 the
    binary64 results are exact as well; [in_quint_b64] is the test in
    binary64. *)
Inductive xfloat : Type :=
  | Fin (q : Q)
  | PInf
  | NInf
  | NaN.

(** [(seg_max - seg_min) / float(n_quints)].  [from_numpy] tells whether the
    extremes came from [np.min]/[np.max] (numpy scalars, for which a division
    by zero gives an infinity) or are the Python integers 0 (for which it
    raises). *)
Definition quint_len (from_numpy : bool) (seg_min seg_max n_quints : Z) : result xfloat :=
  if n_quints =? 0 then
    if from_numpy then
      Ok (if 0 <? seg_max - seg_min then PInf
          else if seg_max - seg_min <? 0 then NInf else NaN)
    else Raise ZeroDivisionError
  else Ok (Fin (inject_Z (seg_max - seg_min) / inject_Z n_quints)).

(** [q * qu_len + seg_min] *)
Definition bin_edge (q : Z) (qu_len : xfloat) (seg_min : Z) : xfloat :=
  match qu_len with
  | Fin w => Fin (inject_Z q * w + inject_Z seg_min)
  | PInf => if 0 <? q then PInf else if q <? 0 then NInf else NaN
  | NInf => if 0 <? q then NInf else if q <? 0 then PInf else NaN
  | NaN => NaN
  end.

(** [seg >= x] and [seg < x] *)
Definition ge_edge (seg : Z) (x : xfloat) : bool :=
  match x with
  | Fin e => Qle_bool e (inject_Z seg)
  | NInf => true
  | PInf | NaN => false
  end.

Definition lt_edge (seg : Z) (x : xfloat) : bool :=
  match x with
  | Fin e => Qltb (inject_Z seg) e
  | PInf => true
  | NInf | NaN => false
  end.

(** The test of the list comprehensions:
    [seg >= q * qu_len + seg_min and seg < (q + 1) * qu_len + seg_min] *)
Definition in_quint (qu_len : xfloat) (seg_min q seg : Z) : bool :=
  ge_edge seg (bin_edge q qu_len seg_min) && lt_edge seg (bin_edge (q + 1) qu_len seg_min).



(** The flat list of a [by='seg'] query. *)
Definition flat_segs (o : segs_out) : list Z :=
  match o with
  | BySeg l => l
  | ByBlock l => concat l
  | ByDisp l => concat (concat l)
  end.

(** The two queries of [quint_segs]: all segments of the stimulus (for all
    gabor frames, orientations and surprise values), and the segments that
    fit the criteria. *)
Definition all_seg_args (stimpar : StimPar) : seg_args :=
  {| a_stimPar1 := Any; a_stimPar2 := Any; a_surp := Any; a_stimSeg := Any;
     a_gabfr := Any; a_start2pfr := FrAny; a_end2pfr := FrAny; a_num2pfr := FrAny;
     a_gabk := sp_gabk stimpar; a_gab_ori := NoneArg;
     a_bri_size := sp_bri_size stimpar; a_bri_dir := sp_bri_dir stimpar;
     a_remconsec := false; a_by := "seg" |}.

Definition crit_seg_args (stimpar : StimPar) (surp : crit Z) (remconsec : bool) : seg_args :=
  {| a_stimPar1 := Any; a_stimPar2 := Any; a_surp := surp; a_stimSeg := Any;
     a_gabfr := sp_gabfr stimpar; a_start2pfr := FrAny; a_end2pfr := FrAny;
     a_num2pfr := FrAny;
     a_gabk := sp_gabk stimpar; a_gab_ori := sp_gab_ori stimpar;
     a_bri_size := sp_bri_size stimpar; a_bri_dir := sp_bri_dir stimpar;
     a_remconsec := remconsec; a_by := "seg" |}.

(** [try: stim.get_segs_by_criteria(..) except ValueError: [] if empty_ok] *)
Definition query_segs (st : stim) (a : seg_args) (empty_ok : bool) : result (list Z) :=
  except_ValueError (o ← get_segs_by_criteria st a; Ok (flat_segs o))
    (fun err => if empty_ok then Ok [] else Raise err).

(** The min and max seg numbers for the stimulus, computed on the first
    query: [(seg_min, seg_max)] with [seg_max] one past the largest segment. *)
Definition seg_extent (all_segs : list Z) : Z * Z :=
  match all_segs with
  | [] => (0, 0)
  | x :: t => (fold_left Z.min t x, fold_left Z.max t x + 1)
  end.

(** [[n for i, n in enumerate(n_consec) if in_quint(all_segs[i])]] *)
Definition quint_n_consec (qu_len : xfloat) (seg_min q : Z)
    (all_segs : list Z) (n_consec : list nat) : result (list nat) :=
  ns ← mapM_res (fun '(i, n) =>
          match all_segs !! i with
          | Some s => Ok (if in_quint qu_len seg_min q s then [n] else [])
          | None => Raise IndexError
          end) (imap pair n_consec);
  Ok (concat ns).

Section WithHelpers.

(** [gen_util.pos_idx] is not part of the sources and the design document
    does not describe it; it is a parameter of the embedding. *)
Variable pos_idx : list Z -> Z -> result (list Z).

(** [np.random.choice]: the position drawn from a non-empty list. *)
Variable rand_pos : list Z -> nat.

(** [qu_idx] is [None] for ['all']. *)
Definition retained_quints (n_quints : Z) (qu_idx : option (list Z)) : result (list Z) :=
  match qu_idx with
  | None => Ok (range n_quints)
  | Some l => pos_idx l n_quints
  end.

Definition quint_segs (st : stim) (stimpar : StimPar) (n_quints : Z)
    (qu_idx : option (list Z)) (surp : crit Z)
    (empty_ok remconsec by_surp_len : bool)
    : result (list (list Z) * list nat * option (list (list nat))) :=
  qu_idx ← retained_quints n_quints qu_idx;
  (* get all seg values (for all gabor frames and orientations) *)
  all_segs ← query_segs st (all_seg_args stimpar) empty_ok;
  (* get the min and max seg numbers for stimulus *)
  let '(seg_min, seg_max) := seg_extent all_segs in
  (* calculate number of segments in each quintile (ok if not round number) *)
  qu_len ← quint_len (nonempty all_segs) seg_min seg_max n_quints;
  (* get all seg values *)
  all_segs ← query_segs st (crit_seg_args stimpar surp remconsec) empty_ok;
  let '(all_segs, n_consec) :=
    if by_surp_len then consec all_segs false else (all_segs, []) in
  let qu_segs :=
    map (fun q => filter (fun seg => in_quint qu_len seg_min q seg = true) all_segs) qu_idx in
  let qu_counts := map (fun segs => length segs) qu_segs in
  if by_surp_len then
    qu_n_consec ← mapM_res (fun q => quint_n_consec qu_len seg_min q all_segs n_consec) qu_idx;
    Ok (qu_segs, qu_counts, Some qu_n_consec)
  else Ok (qu_segs, qu_counts, None).

(** [np.random.choice(a)]; raises ValueError on an empty list. *)
Definition random_choice (a : list Z) : result Z :=
  match a with
  | [] => Raise (ValueError "a must be non-empty")
  | x :: _ => Ok (nth (rand_pos a mod length a) a x)
  end.

(** The loop over [zip(all_segs, n_consec)] of [samp_quint_segs]; [i] is the
    position in the flat list and [samp_segs] the samples drawn so far. *)
Fixpoint samp_runs (qu_segs_flat : list Z) (seg_pre seg_post : Z)
    (n_consec : list nat) (i : nat) (samp_segs : list Z) : result (list Z) :=
  match n_consec with
  | [] => Ok samp_segs
  | n :: rest =>
      let qu_sub := slice i (i + n) qu_segs_flat in
      lo ← list_min qu_sub;
      hi ← list_max qu_sub;
      let min_seg := lo + seg_pre in
      let max_seg := hi - seg_post in
      if min_seg <? max_seg then
        let qu_samp := filter (fun seg => in_range min_seg max_seg seg = true) qu_sub in
        samp_seg ← random_choice qu_samp;
        samp_runs qu_segs_flat seg_pre seg_post rest (i + n) (samp_segs ++ [samp_seg])
      else samp_runs qu_segs_flat seg_pre seg_post rest (i + n) samp_segs
  end.

(** [seg_pre] and [seg_post] are taken after [int(np.around(..))]. *)
Definition samp_quint_segs (qu_segs : list (list Z)) (seg_pre seg_post : Z)
    : result (list (list Z) * list nat) :=
  let qu_segs_flat := concat qu_segs in
  d ← list_min (np_diff qu_segs_flat);
  if negb (isin d [1; 4]) then
    Raise (ValueError "No consecutive segments (1 or 4 interval) found in  qu_segs.")
  else
    let '(all_segs, n_consec) := consec qu_segs_flat true in
    samp_segs ← samp_runs qu_segs_flat seg_pre seg_post
                  (map snd (zip all_segs n_consec)) 0 [];
    qu_samp_segs ← mapM_res (fun sub_segs =>
        min_seg ← list_min sub_segs;
        max_seg ← list_max sub_segs;
        Ok (filter (fun seg => in_range min_seg max_seg seg = true) samp_segs)) qu_segs;
    Ok (qu_samp_segs, map (fun s => length s) qu_samp_segs).

End WithHelpers.

End QuintAnalys.

(** ** [analysis/session.py]: running speed and frame alignment *)

Module Session.

(** Float arithmetic on values that may be NaN.  The difference is the exact
    one, which binary64 rounds; for integer samples below 2^53 the two
    agree. *)
Definition fsub (a b : option Q) : option Q :=
  match a, b with
  | Some x, Some y => Some (x - y)%Q
  | _, _ => None
  end.

(** [np.mean([a, b])], kept in lowest terms. *)
Definition fmean2 (a b : option Q) : option Q :=
  match a, b with
  | Some x, Some y => Some (Qred ((x + y) / 2))
  | _, _ => None
  end.

(** [np.absolute(x) > thr]; false on NaN. *)
Definition abs_gt (x : option Q) (thr : Q) : bool :=
  match x with
  | Some v => Qltb thr (Qabs v)
  | None => false
  end.

(** [np.diff] on a float array. *)
Fixpoint np_diff_f (l : list (option Q)) : list (option Q) :=
  match l with
  | a :: ((b :: _) as t) => fsub b a :: np_diff_f t
  | _ => []
  end.

(** [np.where(mask)[0]] *)
Fixpoint np_where_from {A} (p : A -> bool) (i : nat) (l : list A) : list nat :=
  match l with
  | [] => []
  | x :: t => (if p x then [i] else []) ++ np_where_from p (S i) t
  end.

Definition np_where {A} (p : A -> bool) (l : list A) : list nat := np_where_from p 0 l.

(** [(run_diff < -diff_thr) | (run_diff > diff_thr)] *)
Definition diff_out (diff_thr : Q) (d : option Q) : bool :=
  match d with
  | Some d => Qltb d (- diff_thr) || Qltb diff_thr d
  | None => false
  end.

Definition out_idx (run : list (option Q)) (diff_thr : Q) : list nat :=
  np_where (diff_out diff_thr) (np_diff_f run).

(** [a[lo:hi] = v] for a scalar [v] and [0 <= lo]. *)
Definition fill {A} (lo hi : nat) (v : A) (a : list A) : list A :=
  imap (fun i x => if bool_decide (lo ≤ i < hi)%nat then v else x) a.

(** The loop
    [while np.absolute(run[idx + 1] - comp_val) > diff_thr:
         run[idx + 1] = np.nan; idx += 1]
    run on [tail = run[idx + 1:]]: the number of values it replaces, or
    IndexError when it walks off the end of the array. *)
Fixpoint nan_while (tail : list (option Q)) (comp_val : option Q) (diff_thr : Q) : result nat :=
  match tail with
  | [] => Raise IndexError
  | x :: t =>
      if abs_gt (fsub x comp_val) diff_thr then
        k ← nan_while t comp_val diff_thr; Ok (S k)
      else Ok 0%nat
  end.

(** The state of the loop over [out_idx]. *)
Record run_state : Type := {
  rs_run : list (option Q);
  rs_run_interp : list (option Q);
  rs_at_idx : Z;
  rs_warn : list warning
}.

Definition run_step (diff_thr : Q) (s : run_state) (idx : nat) : result run_state :=
  if rs_at_idx s <? Z.of_nat idx then
    let run := rs_run s in
    '(comp_val, run, orig) ←
      (if decide (idx = 0%nat) then
         (* in case the first value is completely off *)
         match run !! 0%nat with
         | Some r0 =>
             if abs_gt r0 diff_thr
             then Ok (Some 0%Q, <[0%nat := None]> run, -1)
             else Ok (Some 0%Q, run, Z.of_nat idx)
         | None => Raise IndexError
         end
       else
         match run !! idx with
         | Some c => Ok (c, run, Z.of_nat idx)
         | None => Raise IndexError
         end);
    k ← nan_while (drop (S idx) run) comp_val diff_thr;
    let run := fill (S idx) (S idx + k) None run in
    let idx' := (idx + k)%nat in
    (* linearly reinterpolate in the values *)
    match run !! S idx' with
    | Some nxt =>
        let interp := fill (Z.to_nat (orig + 1)) (S idx') (fmean2 comp_val nxt)
                        (rs_run_interp s) in
        let w := if 5 <? Z.of_nat idx' - orig
                 then [WarnRunConsec (Z.of_nat idx' - orig)] else [] in
        Ok {| rs_run := run; rs_run_interp := interp;
              rs_at_idx := Z.of_nat idx'; rs_warn := rs_warn s ++ w |}
    | None => Raise IndexError
    end
  else Ok s.

(** The state before the loop: [run_interp] is a copy of [run], [at_idx] is
    -1, and a warning has been printed if there are outliers. *)
Definition run_state0 (run : list (option Q)) (n_out : nat) : run_state :=
  {| rs_run := run; rs_run_interp := run; rs_at_idx := -1;
     rs_warn := if decide (0 < n_out)%nat then [WarnRunReplaced n_out] else [] |}.

(** The default of the keyword argument [diff_thr] of [_load_run_speed]. *)
Definition diff_thr_default : Q := 100.

(** [_load_run_speed(self, diff_thr=100)] on the running speed read from the
    stimulus dictionary; [diff_thr] is [None] when the caller leaves it out.
    Returns [run], [run_interp], [tot_run_fr] and the warnings printed. *)
Definition _load_run_speed (run : list (option Q)) (diff_thr : option Q)
    : result (list (option Q) * list (option Q) * nat * list warning) :=
  let diff_thr := default diff_thr_default diff_thr in
  let tot_run_fr := length run in
  (* identify outliers by identifying unusual changes in running speed *)
  let out := out_idx run diff_thr in
  s ← foldM (run_step diff_thr) (run_state0 run (length out)) out;
  Ok (rs_run s, rs_run_interp s, tot_run_fr, rs_warn s).

(** The part of [_load_stim_dict] that loads the running speed:
    [self._load_run_speed()]. *)
Definition _load_stim_dict_run (run : list (option Q)) :=
  _load_run_speed run None.

(** [a[i]] with Python's negative indices. *)
Definition py_index {A} (a : list A) (i : Z) : result A :=
  let j := if i <? 0 then i + Z.of_nat (length a) else i in
  if j <? 0 then Raise IndexError
  else match a !! Z.to_nat j with Some x => Ok x | None => Raise IndexError end.

(** The bound of a slice over an array of length [n]. *)
Definition slice_bound (n : nat) (i : Z) : nat :=
  if i <? 0 then Z.to_nat (Z.max 0 (i + Z.of_nat n)) else Nat.min (Z.to_nat i) n.

(** [a[start:end] = vals] for numpy arrays: the lengths must agree unless
    [vals] holds a single value, which is broadcast. *)
Definition slice_assign {A} (a : list A) (start stop : Z) (vals : list A) : result (list A) :=
  let lo := slice_bound (length a) start in
  let hi := slice_bound (length a) stop in
  let m := (hi - lo)%nat in
  if decide (length vals = m) then Ok (take lo a ++ vals ++ drop (lo + m) a)
  else match vals with
       | [v] => Ok (take lo a ++ replicate m v ++ drop (lo + m) a)
       | _ => Raise (ValueError "could not broadcast input array")
       end.

(** [l[-1:]] *)
Definition last_slice {A} (l : list A) : list A :=
  match last l with Some x => [x] | None => [] end.

(** [np.where(a == x)[0][0]] *)
Definition first_pos (x : nat) (a : list nat) : result nat :=
  match np_where (fun y => bool_decide (y = x)) a with
  | i :: _ => Ok i
  | [] => Raise IndexError
  end.

(** One round of the loop [for drop in dropped[-1:]]. *)
Definition repeat_dropped (diff : list Z) (stim_idx : list nat) (drop : nat) : result (list nat) :=
  loc ← first_pos drop stim_idx;
  prev ← py_index stim_idx (Z.of_nat loc - 1);
  d ← py_index diff (Z.of_nat drop);
  let add := replicate (Z.to_nat (d - 1)) prev in
  (* np.insert(stim_idx, loc, add) *)
  Ok (take loc stim_idx ++ add ++ List.skipn loc stim_idx).

(** [_get_twop2stimfr]: from [stim2twopfr] and the number of 2p frames
    ([len(self.twop2pupfr)]) to [twop2stimfr] and the warnings printed. *)
Definition _get_twop2stimfr (stim2twopfr : list Z) (n_twop : nat)
    : result (list (option Z) * list warning) :=
  let stim2twopfr_diff := 1 :: np_diff stim2twopfr in
  let stim_idx := np_where (fun d => negb (d =? 0)) stim2twopfr_diff in
  let dropped := np_where (fun d => 1 <? d) stim2twopfr_diff in
  '(stim_idx, w) ←
    (if decide (0 < length dropped)%nat then
       (* repeat stim idx when frame is dropped *)
       stim_idx ← foldM (repeat_dropped stim2twopfr_diff) stim_idx (last_slice dropped);
       Ok (stim_idx, [WarnDroppedSeqs (length dropped)])
     else Ok (stim_idx, []));
  let twop2stimfr := replicate n_twop None in
  start ← py_index stim2twopfr 0;
  last_fr ← py_index stim2twopfr (-1);
  let stop := last_fr + 1 in
  match slice_assign twop2stimfr start stop (map (fun i => Some (Z.of_nat i)) stim_idx) with
  | Ok a => Ok (a, w)
  | Raise _ => Ok (twop2stimfr, w ++ [WarnTwop2stimfrNotWorking])
  end.

End Session.

(** ** [util/math_util.py] (not part of the sources at hand) *)

Module MathUtil.

(** Modelled from the spec: [math_util.calc_mult_comp] is missing from the
    sources.  When testing [n_comps] simultaneous hypotheses the effective
    p-value is [p_val / n_comps], and the number of permutations is scaled up
    so that the smallest representable p-value stays below the corrected
    threshold: [max(n_perms, ceil(1 / effective_p_value))].  A division by
    zero raises. *)
Definition calc_mult_comp (n_comps : Q) (p_val : Q) (n_perms : Z) : result (Q * Z) :=
  if Qeq_bool n_comps 0 then Raise ZeroDivisionError
  else
    let new_p_val := (p_val / n_comps)%Q in
    if Qeq_bool new_p_val 0 then Raise ZeroDivisionError
    else Ok (new_p_val, Z.max n_perms (Qceiling (1 / new_p_val))).

End MathUtil.

(** ** [analysis/signif_grps.py] *)

Module SignifGrps.

(** One entry of [sign_rois], for one quintile: the significant ROIs (one
    tail), or a list of lists of significant ROIs per tail, [[lo, up]]. *)
Inductive sign_entry : Type :=
  | Rois (l : list nat)
  | Tails (l : list (list nat)).

(** [set(sign_rois[q])] *)
Definition quint_set (sign_rois : list sign_entry) (q : nat) : result (gset nat) :=
  match sign_rois !! q with
  | None => Raise IndexError
  | Some (Rois l) => Ok (list_to_set l)
  | Some (Tails _) => Raise TypeError
  end.

(** [set(sign_rois[q][t])] *)
Definition quint_tail_set (sign_rois : list sign_entry) (q t : nat) : result (gset nat) :=
  match sign_rois !! q with
  | None => Raise IndexError
  | Some (Rois l) =>
      (* sign_rois[q][t] is an ROI number, of which set() cannot be taken,
         or lies past the end of the list *)
      match l !! t with
      | None => Raise IndexError
      | Some _ => Raise TypeError
      end
  | Some (Tails ts) =>
      match ts !! t with
      | None => Raise IndexError
      | Some l => Ok (list_to_set l)
      end
  end.

(** [set(range(nrois))] *)
Definition all_rois (nrois : nat) : gset nat := set_seq 0 nrois.

Definition roi_grps_1tail (sign_rois : list sign_entry) (nrois : nat)
    : result (list (list nat)) :=
  s0 ← quint_set sign_rois 0;
  s1 ← quint_set sign_rois 1;
  let surp_surp := elements (s0 ∩ s1) in
  let surp_reg := elements (s0 ∖ s1) in
  let reg_surp := elements (s1 ∖ s0) in
  let reg_reg := elements (all_rois nrois ∖ list_to_set surp_surp ∖
                           list_to_set surp_reg ∖ list_to_set reg_surp) in
  Ok [surp_surp; surp_reg; reg_surp; reg_reg].

Definition grp_names_1tail : list string :=
  ["surp_surp"; "surp_reg"; "reg_surp"; "reg_reg"]%string.

Definition roi_grps_2tail (sign_rois : list sign_entry) (nrois : nat)
    : result (list (list nat)) :=
  (* sign_rois[first/last][lo/up] *)
  s01 ← quint_tail_set sign_rois 0 1;
  s11 ← quint_tail_set sign_rois 1 1;
  s10 ← quint_tail_set sign_rois 1 0;
  s00 ← quint_tail_set sign_rois 0 0;
  let surp_up_surp_up := elements (s01 ∩ s11) in
  let surp_up_surp_lo := elements (s01 ∩ s10) in
  let surp_lo_surp_up := elements (s00 ∩ s11) in
  let surp_lo_surp_lo := elements (s00 ∩ s10) in
  let surp_up_reg := elements (s01 ∖ s11 ∖ s10) in
  let surp_lo_reg := elements (s00 ∖ s11 ∖ s10) in
  let reg_surp_up := elements (s11 ∖ s01 ∖ s00) in
  let reg_surp_lo := elements (s10 ∖ s01 ∖ s00) in
  let reg_reg := elements (all_rois nrois ∖ s01 ∖ s11 ∖ s00 ∖ s10) in
  Ok [surp_up_surp_up; surp_up_surp_lo; surp_lo_surp_up; surp_lo_surp_lo;
      surp_up_reg; surp_lo_reg; reg_surp_up; reg_surp_lo; reg_reg].

Definition grp_names_2tail : list string :=
  ["surpup_surpup"; "surpup_surplo"; "surplo_surpup"; "surplo_surplo";
   "surpup_reg"; "surplo_reg"; "reg_surpup"; "reg_surplo"; "reg_reg"]%string.

(** The indices of the groups a set name stands for; [n_grps] is
    [len(roi_grps)] and [two] tells the two-tailed table from the one-tailed
    one.  For an unknown name the source calls
    [gen_util.accepted_values_error], which is not part of the sources; the
    last branch takes it to raise a ValueError, with a message of the
    embedding's own.  (Were it to return, the next statement would read the
    unbound [grp_ind] of a first unknown name and raise as well.) *)
Definition grp_ind_of (two : bool) (n_grps : nat) (g : string) : result (list nat) :=
  if String.eqb g "all" then Ok (seq 0 n_grps)
  else if String.eqb g "change" then Ok (if two then [1; 2; 4; 5; 6; 7] else [1; 2])%nat
  else if String.eqb g "no_change" then Ok (if two then [0; 3; 8] else [0; 3])%nat
  else if String.eqb g "reduc" then Ok (if two then [1; 4; 7] else [1])%nat
  else if String.eqb g "incr" then Ok (if two then [2; 5; 6] else [2])%nat
  else Raise (ValueError "grps can only take the values all, change, no_change, reduc, incr").

Definition grp_ind_sel (two : bool) (n_grps reg_ind : nat) (add_reg : bool) (g : string)
    : result (list nat) :=
  grp_ind ← grp_ind_of two n_grps g;
  let grp_ind :=
    if add_reg && negb (bool_decide (reg_ind ∈ grp_ind)) then grp_ind ++ [reg_ind]
    else grp_ind in
  Ok (merge_sort Nat.le grp_ind).

(** What [sep_grps] returns: lists per ROI group when [grps] holds one set,
    and otherwise sets x ROI groups. *)
Inductive grps_out : Type :=
  | OneSet (roi_grps : list (list nat)) (grp_names : list string)
  | ManySets (roi_grps : list (list (list nat))) (grp_names : list (list string)).

(** [[l[i] for i in ind]] *)
Definition pick {A} (l : list A) (ind : list nat) : result (list A) :=
  mapM_res (fun i => match l !! i with Some x => Ok x | None => Raise IndexError end) ind.

(** [grps] is the list [gen_util.list_if_not] makes of the argument. *)
Definition sep_grps (sign_rois : list sign_entry) (nrois : nat) (grps : list string)
    (tails : string) (add_reg : bool) : result grps_out :=
  '(roi_grps, grp_names, grp_inds) ←
    (if String.eqb tails "up" || String.eqb tails "lo" then
       roi_grps ← roi_grps_1tail sign_rois nrois;
       grp_inds ← mapM_res (grp_ind_sel false (length roi_grps) 3 add_reg) grps;
       Ok (roi_grps, grp_names_1tail, grp_inds)
     else if String.eqb tails "2" then
       roi_grps ← roi_grps_2tail sign_rois nrois;
       grp_inds ← mapM_res (grp_ind_sel true (length roi_grps) 8 add_reg) grps;
       Ok (roi_grps, grp_names_2tail, grp_inds)
     else Raise UnboundLocalError);
  all_roi_grps ← mapM_res (pick roi_grps) grp_inds;
  all_grp_names ← mapM_res (pick grp_names) grp_inds;
  if decide (length grps = 1%nat) then
    match all_roi_grps, all_grp_names with
    | g :: _, n :: _ => Ok (OneSet g n)
    | _, _ => Raise IndexError
    end
  else Ok (ManySets all_roi_grps all_grp_names).

(** The named tuples read by [signif_rois_by_grp_sess]. *)
Record PermPar : Type := {
  p_val : Q;
  n_perms : Z;
  tails : string
}.

Record RoiGrpPar : Type := {
  op : string;
  grps : list string;
  add_reg : bool
}.

(** [permpar_mult]: per session p-values and numbers of permutations. *)
Record PermParMult : Type := {
  p_val_mult : list Q;
  n_perms_mult : list Z;
  tails_mult : string
}.

Section SignifRois.

(** The integrated data of one session, and its number of ROIs
    ([sess_data[0][0].shape[0]]). *)
Variable SessData : Type.
Variable sess_nrois : SessData -> nat.

(** The permutation test of one quintile of one session
    ([math_util.permute_diff_ratio] followed by [math_util.id_elem], neither
    of which is part of the sources): from the data, the quintile, the number
    of permutations, the operation, the tails and the p-value to the
    significant ROIs. *)
Variable perm_signif : SessData -> nat -> Z -> string -> string -> Q -> result sign_entry.

(** The body of the loop over sessions, up to the grouping: the significant
    ROIs of each quintile with the p-value and number of permutations they
    were identified with. *)
Definition sess_signif (sess_data : SessData) (n_qu_labs : nat) (permpar : PermPar)
    (roigrppar : RoiGrpPar) : result (list sign_entry * nat * Q * Z) :=
  (* adjust p-value to number of comparisons *)
  let nrois := sess_nrois sess_data in
  let n_comps := (inject_Z (Z.of_nat nrois) * inject_Z (Z.of_nat n_qu_labs))%Q in
  '(pval_mult, nperm_mult) ← MathUtil.calc_mult_comp n_comps (p_val permpar) (n_perms permpar);
  sess_rois ← mapM_res (fun q =>
      perm_signif sess_data q nperm_mult (op roigrppar) (tails permpar) pval_mult)
    (seq 0 n_qu_labs);
  Ok (sess_rois, nrois, pval_mult, nperm_mult).

(** [sorted(list(set([roi for grp in roi_grps_set for roi in grp])))] *)
Definition flat_grp (roi_grps_set : list (list nat)) : list nat :=
  merge_sort Nat.le (elements (list_to_set (C := gset nat) (concat roi_grps_set))).

Definition sess_grps (sess_rois : list sign_entry) (nrois : nat) (permpar : PermPar)
    (roigrppar : RoiGrpPar) : result (list (list nat) * list string) :=
  if decide (length (grps roigrppar) = 1%nat) then
    o ← sep_grps sess_rois nrois (grps roigrppar) (tails permpar) (add_reg roigrppar);
    match o with
    | OneSet g n => Ok (g, n)
    | ManySets _ _ => Raise TypeError
    end
  else
    roi_grps ← mapM_res (fun grp_set =>
        o ← sep_grps sess_rois nrois [grp_set] (tails permpar) false;
        match o with
        | OneSet g _ => Ok (flat_grp g)
        | ManySets _ _ => Raise TypeError
        end) (grps roigrppar);
    Ok (roi_grps, grps roigrppar).

(** [signif_rois_by_grp_sess]: [qu_labs] is represented by its length. *)
Definition signif_rois_by_grp_sess (integ_data : list SessData) (permpar : PermPar)
    (roigrppar : RoiGrpPar) (n_qu_labs : nat)
    : result (list (list (list nat)) * list string * PermParMult) :=
  if decide (n_qu_labs ≠ 2%nat) then
    Raise (ValueError "Identifying significant ROIs is only implemented for 2 quintiles.")
  else
    '(all_roi_grps, names, pvals_mult, nperms_mult) ←
      foldM (fun '(all_roi_grps, _, pvals_mult, nperms_mult) sess_data =>
          '(sess_rois, nrois, pval_mult, nperm_mult) ←
             sess_signif sess_data n_qu_labs permpar roigrppar;
          '(roi_grps, grp_names) ← sess_grps sess_rois nrois permpar roigrppar;
          Ok (all_roi_grps ++ [roi_grps], Some grp_names,
              pvals_mult ++ [pval_mult], nperms_mult ++ [nperm_mult]))
        ([], None, [], []) integ_data;
    match names with
    | Some grp_names =>
        Ok (all_roi_grps, grp_names,
            {| p_val_mult := pvals_mult; n_perms_mult := nperms_mult;
               tails_mult := tails permpar |})
    | None => Raise UnboundLocalError
    end.

End SignifRois.

End SignifGrps.

(** ** Statements of the design document, and example data *)

Module Design.
Import GenUtil Stim QuintAnalys Session SignifGrps.






(** A gabor stimulus of 100 segments, numbered 0 to 99, in two blocks, with a
    surprise every tenth segment; the table starts with the grayscreen row. *)
Definition gab_row (seg : Z) : stim_row :=
  {| stimType := "g"; stimPar1 := VInt (45 * (seg mod 4)); stimPar2 := VInt 16;
     surp := if seg mod 10 =? 9 then 1 else 0; stimSeg := seg; gabfr := seg mod 4;
     start2pfr := 100 + 9 * seg; end2pfr := 109 + 9 * seg; num2pfr := 9 |}.

Definition gray_row : stim_row :=
  {| stimType := "-1"; stimPar1 := VInt (-1); stimPar2 := VInt (-1);
     surp := -1; stimSeg := -1; gabfr := -1;
     start2pfr := 0; end2pfr := 100; num2pfr := 100 |}.

Definition gab_stim : stim :=
  {| stimtype := "gabors"; stim_df := gray_row :: map gab_row (range 100);
     block_ran_seg := [[(0, 60)]; [(60, 100)]] |}.

Definition gab_par : StimPar :=
  {| sp_gabfr := Any; sp_gabk := Vals [VInt 16]; sp_gab_ori := Any;
     sp_bri_dir := Any; sp_bri_size := Any |}.



(** An instance of [gen_util.pos_idx] for the examples: negative indices
    count from the end. *)
Definition pos_idx_ex (l : list Z) (n : Z) : result (list Z) :=
  Ok (map (fun i => if i <? 0 then n + i else i) l).




(** Linear interpolation between the value [a] before a run of [n] samples
    and the value [b] after it, at the [k]-th sample of the run (from 1). *)
Definition lin_interp (a b : Q) (n k : nat) : Q :=
  Qred (a + (b - a) * inject_Z (Z.of_nat k) / inject_Z (Z.of_nat (S n))).

(** Sample [i + 1] differs from its predecessor by more than [thr] in
    absolute value. *)
Definition diff_exceeds (thr : Q) (run : list (option Q)) (i : nat) : Prop :=
  ∃ a b, run !! i = Some (Some a) ∧ run !! S i = Some (Some b) ∧ (thr < Qabs (b - a))%Q.

(** The difference that [np.diff] computes between sample [i + 1] and its
    predecessor exceeds [thr] in absolute value. *)
Definition diff_flagged (thr : Q) (run : list (option Q)) (i : nat) : Prop :=
  ∃ d, np_diff_f run !! i = Some (Some d) ∧ (thr < Qabs d)%Q.

(** The running-speed samples are numbers and differ from [a] by more than
    [thr] in absolute value. *)
Definition all_off (thr a : Q) (bad : list (option Q)) : Prop :=
  Forall (fun x => ∃ v, x = Some v ∧ (thr < Qabs (v - a))%Q) bad.

(** The groups are disjoint, cover exactly the ROIs [0 .. nrois - 1], hold
    no ROI twice, and their sizes add up to [nrois]. *)
Definition roi_partition (nrois : nat) (gs : list (list nat)) : Prop :=
  sum_list (length <$> gs) = nrois
  ∧ (∀ i j gi gj x, gs !! i = Some gi → gs !! j = Some gj → x ∈ gi → x ∈ gj → i = j)
  ∧ (∀ x, (x < nrois)%nat ↔ ∃ g, g ∈ gs ∧ x ∈ g)
  ∧ Forall NoDup gs.

Definition in_range_rois (nrois : nat) (l : list nat) : Prop :=
  Forall (fun x => (x < nrois)%nat) l.

Definition disjoint_rois (l1 l2 : list nat) : Prop :=
  ∀ x, x ∈ l1 → x ∈ l2 → False.

(** The alignment the design document describes: the repetition of the last
    valid stimulus frame is applied at every dropped sequence.  Processing the
    dropped positions from the last to the first keeps the positions of the
    earlier ones valid. *)
Definition twop2stimfr_all_repaired (stim2twopfr : list Z) (n_twop : nat)
    : result (list (option Z)) :=
  let stim2twopfr_diff := 1 :: np_diff stim2twopfr in
  let stim_idx := np_where (fun d => negb (d =? 0)) stim2twopfr_diff in
  let dropped := np_where (fun d => 1 <? d) stim2twopfr_diff in
  stim_idx ← foldM (repeat_dropped stim2twopfr_diff) stim_idx (rev dropped);
  start ← py_index stim2twopfr 0;
  last_fr ← py_index stim2twopfr (-1);
  slice_assign (replicate n_twop None) start (last_fr + 1)
    (map (fun i => Some (Z.of_nat i)) stim_idx).

(** Sets that are disjoint from all the sets after them in the list. *)
Fixpoint all_disjoint (gs : list (gset nat)) : Prop :=
  match gs with
  | [] => True
  | X :: t => X ## ⋃ t ∧ all_disjoint t
  end.

End Design.

(** ** [analysis/session.py]: queries built on [get_segs_by_criteria] *)

Module StimQueries.
Import GenUtil Stim.

(** The arguments of a call that passes no keyword: the defaults of the
    signature of [get_segs_by_criteria]. *)
Definition default_args : seg_args :=
  {| a_stimPar1 := Any; a_stimPar2 := Any; a_surp := Any; a_stimSeg := Any;
     a_gabfr := Any; a_start2pfr := FrAny; a_end2pfr := FrAny; a_num2pfr := FrAny;
     a_gabk := NoneArg; a_gab_ori := NoneArg; a_bri_size := NoneArg;
     a_bri_dir := NoneArg; a_remconsec := false; a_by := "block" |}.

(** The arguments [a] with the keyword [by] replaced. *)
Definition with_by (a : seg_args) (by_val : string) : seg_args :=
  {| a_stimPar1 := a_stimPar1 a; a_stimPar2 := a_stimPar2 a; a_surp := a_surp a;
     a_stimSeg := a_stimSeg a; a_gabfr := a_gabfr a; a_start2pfr := a_start2pfr a;
     a_end2pfr := a_end2pfr a; a_num2pfr := a_num2pfr a; a_gabk := a_gabk a;
     a_gab_ori := a_gab_ori a; a_bri_size := a_bri_size a; a_bri_dir := a_bri_dir a;
     a_remconsec := a_remconsec a; a_by := by_val |}.

(** [surp=s, remconsec=.., by=by] *)
Definition surp_args (s : Z) (remconsec : bool) (by_val : string) : seg_args :=
  {| a_stimPar1 := Any; a_stimPar2 := Any; a_surp := Vals [s]; a_stimSeg := Any;
     a_gabfr := Any; a_start2pfr := FrAny; a_end2pfr := FrAny; a_num2pfr := FrAny;
     a_gabk := NoneArg; a_gab_ori := NoneArg; a_bri_size := NoneArg;
     a_bri_dir := NoneArg; a_remconsec := remconsec; a_by := by_val |}.

(** [start2pfr=s, end2pfr=e, num2pfr=n, by='seg'] *)
Definition range_args (s e n : frran) : seg_args :=
  {| a_stimPar1 := Any; a_stimPar2 := Any; a_surp := Any; a_stimSeg := Any;
     a_gabfr := Any; a_start2pfr := s; a_end2pfr := e; a_num2pfr := n;
     a_gabk := NoneArg; a_gab_ori := NoneArg; a_bri_size := NoneArg;
     a_bri_dir := NoneArg; a_remconsec := false; a_by := "seg" |}.

(** [get_first_surp_segs]: the first regular and the first surprise segments
    at the transitions, as [(reg_segs, surp_segs)]. *)
Definition get_first_surp_segs (st : stim) (by_val : string) : result (segs_out * segs_out) :=
  reg_segs ← get_segs_by_criteria st (surp_args 0 true by_val);
  surp_segs ← get_segs_by_criteria st (surp_args 1 true by_val);
  Ok (reg_segs, surp_segs).

(** [get_all_surp_segs]: all regular and all surprise segments. *)
Definition get_all_surp_segs (st : stim) (by_val : string) : result (segs_out * segs_out) :=
  reg_segs ← get_segs_by_criteria st (surp_args 0 false by_val);
  surp_segs ← get_segs_by_criteria st (surp_args 1 false by_val);
  Ok (reg_segs, surp_segs).

(** The rows of the stimulus appear in the table in ascending order of
    their segment numbers. *)
Definition segs_ascending (st : stim) : Prop :=
  StronglySorted Z.lt
    (map stimSeg (filter (fun r => stimType r = first_char (stimtype st)) (stim_df st))).

(** Formatted criteria for the example stimulus of [Design]: the surprise
    segments, whatever their other properties. *)
Definition surp_criteria : criteria :=
  {| c_stimPar1 := [VInt 0; VInt 45; VInt 90; VInt 135]; c_stimPar2 := [VInt 16];
     c_surp := [1]; c_stimSeg := range 100; c_gabfr := [0; 1; 2; 3];
     c_start2pfr_min := 0; c_start2pfr_max := 992;
     c_end2pfr_min := 100; c_end2pfr_max := 1001;
     c_num2pfr_min := 9; c_num2pfr_max := 101 |}.

End StimQueries.

(** ** [sess_util/sess_load_util.py]: outliers of the running velocity *)

Module SessLoadUtil.
Import Session.

(** What [_warn_nans_diff_thr] logs: the number of NaNs, the number of NaNs
    that were there before the thresholding ([None] if it is not passed),
    and the lengths above [min_consec] of the runs of consecutive NaNs,
    longest first.  The message is a rendering of these numbers, of the
    proportion of NaNs and of the session ID. *)
Record nan_warning : Type := {
  w_n_nans : nat;
  w_n_pre_existing : option nat;
  w_n_consec : list nat
}.

(** [np.isnan(run)] *)
Definition isnan (x : option Q) : bool :=
  match x with None => true | Some _ => false end.

(** [idx[1 :: 2] - idx[:: 2]] *)
Fixpoint pair_diffs (idx : list nat) : list nat :=
  match idx with
  | a :: b :: t => (b - a)%nat :: pair_diffs t
  | _ => []
  end.

(** [mask[1 : ] != mask[ : -1]] *)
Fixpoint changes (mask : list bool) : list bool :=
  match mask with
  | a :: ((b :: _) as t) => xorb b a :: changes t
  | _ => []
  end.

Definition _warn_nans_diff_thr (run : list (option Q)) (min_consec : nat)
    (n_pre_existing : option nat) : list nan_warning :=
  let n_nans := length (filter (fun x => isnan x = true) run) in
  if decide (n_nans = 0%nat) then []
  else
    let mask := [false] ++ map isnan run ++ [false] in
    let idx := np_where (fun b : bool => b) (changes mask) in
    let n_consec := rev (merge_sort Nat.le (pair_diffs idx)) in
    [{| w_n_nans := n_nans; w_n_pre_existing := n_pre_existing;
        w_n_consec := filter (fun n => (min_consec < n)%nat) n_consec |}].

(** [run[not_nans_idx]] *)
Definition take_idx {A} (a : list A) (idx : list nat) : list A :=
  omap (fun i => a !! i) idx.

(** [run[not_nans_idx] = prev_run] *)
Definition put_idx {A} (a : list A) (idx : list nat) (vals : list A) : list A :=
  fold_left (fun acc '(i, v) => <[i := v]> acc) (zip idx vals) a.

(** One round of the loop over [out_idx]; the state is the array and
    [at_idx]. *)
Definition nan_step (diff_thr : Q) (s : list (option Q) * Z) (idx : nat)
    : result (list (option Q) * Z) :=
  let '(run, at_idx) := s in
  if at_idx <? Z.of_nat idx then
    '(comp_val, run) ←
      (if decide (idx = 0%nat) then
         (* in case the first value is completely off *)
         match run !! 0%nat with
         | Some r0 =>
             Ok (Some 0%Q, if abs_gt r0 diff_thr then <[0%nat := None]> run else run)
         | None => Raise IndexError
         end
       else
         match run !! idx with
         | Some c => Ok (c, run)
         | None => Raise IndexError
         end);
    k ← nan_while (drop (S idx) run) comp_val diff_thr;
    Ok (fill (S idx) (S idx + k) None run, Z.of_nat (idx + k))
  else Ok s.

(** The defaults of the keyword arguments [diff_thr] and [drop_tol]. *)
Definition diff_thr_default : Q := 50.
Definition drop_tol_default : Q := 3 # 10000.

(** [nan_large_run_differences(run, diff_thr=50, warn_nans=True,
    drop_tol=0.0003)]: the updated array and what is logged. *)
Definition nan_large_run_differences (run : list (option Q)) (diff_thr : option Q)
    (warn_nans : bool) (drop_tol : option Q)
    : result (list (option Q) * list nan_warning) :=
  let diff_thr := default diff_thr_default diff_thr in
  let drop_tol := default drop_tol_default drop_tol in
  (* temporarily remove preexisting NaNs (to be reinserted after) *)
  let original_length := length run in
  let not_nans_idx := np_where (fun x => negb (isnan x)) run in
  let run1 := take_idx run not_nans_idx in
  let n_pre_existing := (original_length - length run1)%nat in
  let out := out_idx run1 diff_thr in
  '(run2, _) ← foldM (nan_step diff_thr) (run1, -1) out;
  (* reinsert pre-existing NaNs *)
  let run3 := put_idx (replicate original_length None) not_nans_idx run2 in
  let n_nans := length (filter (fun x => isnan x = true) run3) in
  let above_tol :=
    if decide (length run3 = 0%nat) then false
    else Qltb drop_tol (inject_Z (Z.of_nat n_nans) / inject_Z (Z.of_nat (length run3))) in
  Ok (run3, if warn_nans && above_tol
            then _warn_nans_diff_thr run3 5 (Some n_pre_existing) else []).

End SessLoadUtil.

(** ** [analysis/session.py]: frames of segments *)

Module StimFrames.
Import GenUtil Stim Session.

(** [l.index(val)]: the first position of [val], or ValueError, with the
    message CPython words for an [int]. *)
Fixpoint list_index (val : Z) (l : list Z) : result nat :=
  match l with
  | [] => Raise (ValueError (pretty val +:+ " is not in list"))
  | x :: t => if decide (x = val) then Ok 0%nat else i ← list_index val t; Ok (S i)
  end.

(** [np.arange(a, b)] *)
Definition arange (a b : Z) : list Z :=
  map (fun k => a + Z.of_nat k) (seq 0 (Z.to_nat (b - a))).

(** [first_fr = [self.stim_seg_list.index(val) for val in seglist]] *)
Definition first_frames (stim_seg_list seglist : list Z) : result (list Z) :=
  mapM_res (fun val => i ← list_index val stim_seg_list; Ok (Z.of_nat i)) seglist.

(** [rev_list = self.stim_seg_list[::-1]] and
    [last_fr = [len(rev_list) - rev_list.index(val) - 1 for val in seglist]] *)
Definition last_frames (stim_seg_list seglist : list Z) : result (list Z) :=
  let rev_list := rev stim_seg_list in
  mapM_res (fun val => i ← list_index val rev_list;
                       Ok (Z.of_nat (length rev_list) - Z.of_nat i - 1)) seglist.

(** [np.where(stim_seg_list_array == val)[0]] for each [val] of [seglist] *)
Definition all_frames (stim_seg_list seglist : list Z) : list (list Z) :=
  map (fun val => map Z.of_nat (np_where (fun x => bool_decide (x = val)) stim_seg_list))
      seglist.

(** The rows of [get_twop_fr_by_seg]: those of the stimulus type whose
    segment is in [seglist], in the order of the table. *)
Definition seg_rows (st : stim) (seglist : list Z) : list stim_row :=
  filter (fun r => stimType r = first_char (stimtype st) ∧ stimSeg r ∈ seglist) (stim_df st).

Section Frames.

(** [gen_util.delist_if_not] is not part of the sources; it is a parameter
    of the embedding, as is the type of what it returns. *)
Variable Frames : Type.
Variable delist_if_not : list (list Z) -> Frames.

(** What the two functions return: one list of frames per segment, or what
    [delist_if_not] makes of the lists of first and of last frames. *)
Inductive frames_out : Type :=
  | PerSeg (frames : list (list Z))
  | Delisted (frames : Frames).

(** [stim_seg_list] is the attribute [self.stim_seg_list]. *)
Definition get_stim_fr_by_seg (stim_seg_list seglist : list Z) (first last : bool)
    : result frames_out :=
  if negb first && negb last then Ok (PerSeg (all_frames stim_seg_list seglist))
  else
    frames ← (if first then first_fr ← first_frames stim_seg_list seglist; Ok [first_fr]
              else Ok []);
    frames ← (if last then last_fr ← last_frames stim_seg_list seglist;
                           Ok (frames ++ [last_fr])
              else Ok frames);
    Ok (Delisted (delist_if_not frames)).

Definition get_twop_fr_by_seg (st : stim) (seglist : list Z) (first last : bool)
    : frames_out :=
  (* get the rows in the alignment dataframe that correspond to the segments *)
  let rows := seg_rows st seglist in
  (* get the start frames and end frames from each row *)
  let start2pfrs := map start2pfr rows in
  let end2pfrs := map end2pfr rows in
  if negb first && negb last then
    (* build arrays for each segment *)
    PerSeg (map (fun r => arange (start2pfr r) (end2pfr r)) rows)
  else
    Delisted (delist_if_not ((if first then [start2pfrs] else [])
                             ++ (if last then [end2pfrs] else []))).

End Frames.

(** [get_n_twop_fr_by_seg]: [segs] is the list [gen_util.list_if_not] makes
    of the argument. *)
Definition get_n_twop_fr_by_seg (st : stim) (segs : list Z) : result (list Z) :=
  let segs_unique := merge_sort Z.le (remove_dups segs) in
  (* number of frames will be returned in ascending order of seg number *)
  let n_fr := map num2pfr (seg_rows st segs_unique) in
  (* resort based on order in which segs were passed and include any
     duplicates *)
  mapM_res (fun seg => i ← list_index seg segs_unique;
                       match n_fr !! i with
                       | Some n => Ok n
                       | None => Raise IndexError
                       end) segs.

End StimFrames.

(** ** [analysis/session.py]: the [Grayscr] frames *)

Module Grayscr.
Import Session.

(** The attributes of the gabors stimulus that [Grayscr] reads:
    [stim_seg_list] and [block_ran_fr] (display sequence x block x
    [start, end], frame numbers that [list.index] produced, so not
    negative). *)
Record gabors_fr : Type := {
  gab_seg_list : list Z;
  gab_block_ran_fr : list (list (nat * nat))
}.

(** [for i in gab_blocks: for j in i: frames_gab[j[0]:j[1]] = 0] *)
Definition zero_blocks (frames_gab : list Z) (gab_blocks : list (list (nat * nat))) : list Z :=
  fold_left (fun acc i => fold_left (fun acc j => fill (fst j) (snd j) 0 acc) i acc)
    gab_blocks frames_gab.

(** What the loops over a list of frame numbers keep: the first frame of
    each run of consecutive frames, the lengths of the runs that have ended,
    and the length [k] of the current run. *)
Definition runs_step (j : list nat) (s : list nat * list nat * nat) (lv : nat * nat)
    : list nat * list nat * nat :=
  let '(first, n, k) := s in
  let '(l, val) := lv in
  if decide (l = 0%nat) then (first ++ [val], n, 1%nat)
  else if decide (Some val ≠ (S <$> j !! (l - 1)%nat)) then (first ++ [val], n ++ [k], 1%nat)
  else (first, n, S k).

Definition runs_loop (j : list nat) (k : nat) : list nat * list nat * nat :=
  fold_left (runs_step j) (imap pair j) ([], [], k).

(** What [get_all_gab_stim_fr] returns, by the value of [by]. *)
Inductive grays_out : Type :=
  | ByFrame (l : list nat)
  | ByBlock (l : list (list nat))
  | ByDisp (l : list (list (list nat))).

Section Ragged.

(** What [np.sum(np.asarray(frames), axis=0)] makes of two lists of
    different lengths depends on the version of numpy; it is a parameter of
    the embedding. *)
Variable ragged_sum : list Z -> list Z -> result (list Z).

(** [gabors] and [bricks] are the two stimuli of the session, [None] for
    one the session does not have. *)
Definition get_all_nongab_stim_fr (gabors : option gabors_fr) (bricks : option (list Z))
    : result (list nat) :=
  let frames :=
    match gabors with
    | Some g => [zero_blocks (gab_seg_list g) (gab_block_ran_fr g)]
    | None => []
    end ++
    match bricks with
    | Some seg_list => [seg_list]
    | None => []
    end in
  grays ←
    match frames with
    | [] => Raise (ValueError
              "No frame lists were found for either stimulus  types (gabors, bricks.")
    | [a] =>
        (* frames_sum is the array of shape 1 x n, on which np.where(..)[0]
           holds the row, 0, of each match *)
        Ok (map (fun _ => 0%nat) (np_where (fun x => x =? -1) a))
    | a :: b :: _ =>
        frames_sum ← (if decide (length a = length b) then Ok (zip_with Z.add a b)
                      else ragged_sum a b);
        Ok (np_where (fun x => x =? -2) frames_sum)
    end;
  if decide (length grays = 0%nat) then
    Raise (ValueError "No grayscreen frames were found outside of gabor stimulus sequences.")
  else Ok grays.

Definition get_first_nongab_stim_fr (gabors : option gabors_fr) (bricks : option (list Z))
    : result (list nat * list nat) :=
  grays_all ← get_all_nongab_stim_fr gabors bricks;
  let '(first_grays, n_grays, k) := runs_loop grays_all 0 in
  Ok (first_grays, n_grays ++ [k]).

End Ragged.

Definition get_all_gab_stim_fr (gabors : option gabors_fr) (by_val : string)
    : result grays_out :=
  match gabors with
  | Some g =>
      let gab_grays :=
        map (fun i =>
               map (fun j : nat * nat =>
                      map (fun x => (x + fst j)%nat)
                          (np_where (fun x => x =? -1)
                             (slice (fst j) (snd j) (gab_seg_list g)))) i)
            (gab_block_ran_fr g) in
      (* if not returning by disp *)
      if String.eqb by_val "block" then Ok (ByBlock (concat gab_grays))
      else if String.eqb by_val "frame" then Ok (ByFrame (concat (concat gab_grays)))
      else if String.eqb by_val "disp" then Ok (ByDisp gab_grays)
      else Raise (ValueError "`by` can only take the values `disp`, `block` or `frame`.")
  | None =>
      Raise (ValueError
        "Session does not have a gabors attribute. Be sure to extract stim info and check that session contains a gabor stimulus.")
  end.

(** The frame numbers of a result of [get_all_gab_stim_fr], whatever the
    grouping. *)
Definition flat_grays (o : grays_out) : list nat :=
  match o with
  | ByFrame l => l
  | ByBlock l => concat l
  | ByDisp l => concat (concat l)
  end.

(** The expansion of first frames and run lengths into frame numbers. *)
Definition expand_runs (first n : list nat) : list nat :=
  concat (zip_with (fun a m => seq a m) first n).

(** One block of [get_gab_gray_stim_fr]: the runs of the frames [j] of the
    block are appended to those of the display sequence; [k] is the
    variable of that name, which the code sets to 0 once for each display
    sequence and not between the blocks. *)
Definition block_runs (s : list (list nat) * list (list nat) * nat) (j : list nat)
    : list (list nat) * list (list nat) * nat :=
  let '(temp_first, temp_n, k) := s in
  let '(temp2_first, temp2_n, k') := runs_loop j k in
  (temp_first ++ [temp2_first], temp_n ++ [temp2_n ++ [k']], k').

(** One display sequence [i] of [get_gab_gray_stim_fr]. *)
Definition disp_runs (i : list (list nat)) : list (list nat) * list (list nat) :=
  let '(temp_first, temp_n, _) := fold_left block_runs i ([], [], 0%nat) in
  (temp_first, temp_n).

Definition get_gab_gray_stim_fr (gabors : option gabors_fr) (by_val : string)
    : result (grays_out * grays_out) :=
  grays_gab ← get_all_gab_stim_fr gabors "disp";
  match grays_gab with
  | ByDisp grays_gab =>
      let first_gab_grays := map (fun i => fst (disp_runs i)) grays_gab in
      let n_gab_grays := map (fun i => snd (disp_runs i)) grays_gab in
      (* if not returning by disp *)
      if String.eqb by_val "block" || String.eqb by_val "frame" then
        let first_gab_grays := concat first_gab_grays in
        let n_gab_grays := concat n_gab_grays in
        if String.eqb by_val "frame" then
          Ok (ByFrame (concat first_gab_grays), ByFrame (concat n_gab_grays))
        else Ok (ByBlock first_gab_grays, ByBlock n_gab_grays)
      else if negb (String.eqb by_val "disp") then
        Raise (ValueError "`by` can only take the values `disp`, `block` or `frame`.")
      else Ok (ByDisp first_gab_grays, ByDisp n_gab_grays)
  | ByBlock _ | ByFrame _ =>
      (* the loops iterate over an int *)
      Raise TypeError
  end.

(** The first frames [first] and the run lengths [n] spell out [frames]:
    as many lengths as first frames, every run of at least one frame, and
    the runs written out are [frames]. *)
Definition runs_of (first n frames : list nat) : Prop :=
  length first = length n ∧ Forall (fun m => 1 ≤ m)%nat n ∧ expand_runs first n = frames.

(** The same for the results of [get_gab_gray_stim_fr] and
    [get_all_gab_stim_fr], grouped alike. *)
Definition runs_of_out (first n frames : grays_out) : Prop :=
  match first, n, frames with
  | ByFrame f, ByFrame m, ByFrame j => runs_of f m j
  | ByBlock f, ByBlock m, ByBlock j => Forall3 runs_of f m j
  | ByDisp f, ByDisp m, ByDisp j => Forall3 (Forall3 runs_of) f m j
  | _, _, _ => False
  end.

End Grayscr.

(** * Properties *)

(** ** ROI groups ([sep_grps]) *)

Section RoiGroups.
Import SignifGrps Design.

Lemma sum_sizes_union (gs : list (gset nat)) :
  all_disjoint gs → sum_list (length <$> (elements <$> gs)) = size (⋃ gs).
Proof.
  induction gs as [|X t IH].
  - intros _. reflexivity.
  - intros [HX Ht]. rewrite !fmap_cons.
    change (⋃ (X :: t)) with (X ∪ ⋃ t).
    rewrite size_union by done. rewrite <- IH by done. reflexivity.
Qed.

Lemma all_disjoint_lookup (gs : list (gset nat)) i j X Y x :
  all_disjoint gs → gs !! i = Some X → gs !! j = Some Y → x ∈ X → x ∈ Y → i = j.
Proof.
  revert i j. induction gs as [|Z t IH]; intros i j Hd Hi Hj HX HY; [done|].
  destruct Hd as [HZ Ht].
  assert (Hin : ∀ k W, t !! k = Some W → W ⊆ ⋃ t).
  { intros k W Hk y Hy. apply elem_of_union_list. exists W. split; [|done].
    apply list_elem_of_lookup. eauto. }
  destruct i as [|i], j as [|j]; simpl in *; simplify_eq.
  - done.
  - apply Hin in Hj. set_solver.
  - apply Hin in Hi. set_solver.
  - f_equal. eauto.
Qed.

Lemma sets_partition (gs : list (gset nat)) (nrois : nat) :
  all_disjoint gs → ⋃ gs = all_rois nrois → roi_partition nrois (elements <$> gs).
Proof.
  intros Hd HU. repeat split.
  - rewrite sum_sizes_union by done. rewrite HU. apply size_set_seq.
  - intros i j gi gj x Hi Hj Hxi Hxj.
    rewrite list_lookup_fmap in Hi, Hj.
    destruct (gs !! i) as [X|] eqn:EX; [|done].
    destruct (gs !! j) as [Y|] eqn:EY; [|done].
    simpl in *; simplify_eq.
    apply elem_of_elements in Hxi, Hxj. eapply all_disjoint_lookup; eauto.
  - intros Hx. assert (x ∈ ⋃ gs) as Hin.
    { rewrite HU. apply elem_of_set_seq. lia. }
    apply elem_of_union_list in Hin as (X & HX & HxX).
    exists (elements X). split; [|by apply elem_of_elements].
    apply list_elem_of_fmap. eauto.
  - intros (g & Hg & Hx). apply list_elem_of_fmap in Hg as (X & -> & HX).
    apply elem_of_elements in Hx.
    assert (x ∈ all_rois nrois) as Hin.
    { rewrite <- HU. apply elem_of_union_list. eauto. }
    apply elem_of_set_seq in Hin. lia.
  - apply Forall_fmap, Forall_forall. intros X _. apply NoDup_elements.
Qed.

Lemma in_range_rois_set (nrois : nat) (l : list nat) :
  in_range_rois nrois l → list_to_set (C := gset nat) l ⊆ all_rois nrois.
Proof.
  intros H x Hx. apply elem_of_list_to_set in Hx.
  unfold in_range_rois in H. rewrite Forall_forall in H.
  apply elem_of_set_seq. specialize (H x Hx). lia.
Qed.

Lemma disjoint_rois_set (l1 l2 : list nat) :
  disjoint_rois l1 l2 → list_to_set (C := gset nat) l1 ## list_to_set l2.
Proof.
  intros H x H1 H2. apply elem_of_list_to_set in H1, H2. eauto.
Qed.

Lemma sep_grps_1tail_all sign_rois nrois a b tails add_reg :
  tails = "up"%string ∨ tails = "lo"%string →
  sign_rois !! 0%nat = Some (Rois a) → sign_rois !! 1%nat = Some (Rois b) →
  sep_grps sign_rois nrois ["all"%string] tails add_reg =
    Ok (OneSet (elements <$> [list_to_set a ∩ list_to_set b; list_to_set a ∖ list_to_set b;
                              list_to_set b ∖ list_to_set a;
                              all_rois nrois ∖ (list_to_set a ∩ list_to_set b)
                                ∖ (list_to_set a ∖ list_to_set b)
                                ∖ (list_to_set b ∖ list_to_set a)])
               grp_names_1tail).
Proof.
  intros Ht H0 H1. unfold sep_grps.
  assert (String.eqb tails "up" || String.eqb tails "lo" = true) as ->.
  { destruct Ht as [-> | ->]; reflexivity. }
  unfold roi_grps_1tail, quint_set. rewrite H0, H1. simpl.
  rewrite andb_false_r, !list_to_set_elements_L. reflexivity.
Qed.

Lemma sep_grps_2tail_all sign_rois nrois lo0 up0 lo1 up1 add_reg :
  sign_rois !! 0%nat = Some (Tails [lo0; up0]) →
  sign_rois !! 1%nat = Some (Tails [lo1; up1]) →
  let s00 : gset nat := list_to_set lo0 in
  let s01 : gset nat := list_to_set up0 in
  let s10 : gset nat := list_to_set lo1 in
  let s11 : gset nat := list_to_set up1 in
  sep_grps sign_rois nrois ["all"%string] "2" add_reg =
    Ok (OneSet (elements <$> [s01 ∩ s11; s01 ∩ s10; s00 ∩ s11; s00 ∩ s10;
                              s01 ∖ s11 ∖ s10; s00 ∖ s11 ∖ s10;
                              s11 ∖ s01 ∖ s00; s10 ∖ s01 ∖ s00;
                              all_rois nrois ∖ s01 ∖ s11 ∖ s00 ∖ s10])
               grp_names_2tail).
Proof.
  intros H0 H1. simpl. unfold sep_grps. simpl.
  unfold roi_grps_2tail, quint_tail_set. rewrite H0, H1. simpl.
  rewrite andb_false_r. reflexivity.
Qed.

(** C4. For significant-ROI lists over [nrois] ROIs (every listed ROI is below
    [nrois], and in the two-tailed case no ROI is listed in both tails of one
    quintile), the elementary groups returned by [sep_grps] partition the ROI
    indices: they are pairwise disjoint, cover every ROI, and their sizes add
    up to [nrois].  There are 4 groups for one tail and 9 for two. *)
Theorem sep_grps_partition :
  (∀ sign_rois nrois a b tails add_reg,
     tails = "up"%string ∨ tails = "lo"%string →
     sign_rois !! 0%nat = Some (Rois a) → sign_rois !! 1%nat = Some (Rois b) →
     in_range_rois nrois a → in_range_rois nrois b →
     ∃ gs, sep_grps sign_rois nrois ["all"%string] tails add_reg
             = Ok (OneSet gs grp_names_1tail)
           ∧ length gs = 4%nat ∧ roi_partition nrois gs)
  ∧ (∀ sign_rois nrois lo0 up0 lo1 up1 add_reg,
     sign_rois !! 0%nat = Some (Tails [lo0; up0]) →
     sign_rois !! 1%nat = Some (Tails [lo1; up1]) →
     in_range_rois nrois lo0 → in_range_rois nrois up0 →
     in_range_rois nrois lo1 → in_range_rois nrois up1 →
     disjoint_rois lo0 up0 → disjoint_rois lo1 up1 →
     ∃ gs, sep_grps sign_rois nrois ["all"%string] "2" add_reg
             = Ok (OneSet gs grp_names_2tail)
           ∧ length gs = 9%nat ∧ roi_partition nrois gs).
Proof.
  split.
  - intros sign_rois nrois a b tails add_reg Ht H0 H1 Ha Hb.
    eexists. split; [by eapply sep_grps_1tail_all|]. split; [done|].
    apply in_range_rois_set in Ha, Hb.
    apply sets_partition.
    + simpl. repeat match goal with |- _ ∧ _ => split end; try done; set_solver.
    + simpl. apply set_eq. intros x.
      destruct (decide (x ∈ (list_to_set a : gset nat)));
        destruct (decide (x ∈ (list_to_set b : gset nat))); set_solver.
  - intros sign_rois nrois lo0 up0 lo1 up1 add_reg H0 H1 Hl0 Hu0 Hl1 Hu1 Hd0 Hd1.
    eexists. split; [by eapply sep_grps_2tail_all|]. split; [done|].
    apply in_range_rois_set in Hl0, Hu0, Hl1, Hu1.
    apply disjoint_rois_set in Hd0, Hd1.
    apply sets_partition.
    + simpl. repeat match goal with |- _ ∧ _ => split end; try done; set_solver.
    + simpl. apply set_eq. intros x.
      destruct (decide (x ∈ (list_to_set lo0 : gset nat)));
        destruct (decide (x ∈ (list_to_set up0 : gset nat)));
        destruct (decide (x ∈ (list_to_set lo1 : gset nat)));
        destruct (decide (x ∈ (list_to_set up1 : gset nat))); set_solver.
Qed.

Lemma sep_grps_partition_witness :
  (∃ gs, sep_grps [Rois [0; 2]; Rois [2; 3]]%nat 5 ["all"%string] "up" false
           = Ok (OneSet gs grp_names_1tail)
         ∧ length gs = 4%nat ∧ roi_partition 5 gs)
  ∧ (∃ gs, sep_grps [Tails [[0; 2]; [1]]; Tails [[2; 3]; [4]]]%nat 6 ["all"%string] "2" false
           = Ok (OneSet gs grp_names_2tail)
         ∧ length gs = 9%nat ∧ roi_partition 6 gs).
Proof.
  split.
  - apply (proj1 sep_grps_partition) with (a := [0; 2]%nat) (b := [2; 3]%nat);
      [by left | reflexivity | reflexivity | |].
    + unfold in_range_rois. repeat constructor.
    + unfold in_range_rois. repeat constructor.
  - apply (proj2 sep_grps_partition)
      with (lo0 := [0; 2]%nat) (up0 := [1]%nat) (lo1 := [2; 3]%nat) (up1 := [4]%nat);
      try reflexivity; unfold in_range_rois; try (repeat constructor; lia).
    + intros x H1 H2. set_solver.
    + intros x H1 H2. set_solver.
Defined.

End RoiGroups.

(** ** Multiple-comparison correction ([signif_rois_by_grp_sess]) *)

Section MultComp.
Import MathUtil SignifGrps.

Lemma calc_mult_comp_ok (n_comps p : Q) (n : Z) :
  (0 < n_comps)%Q → (0 < p)%Q →
  calc_mult_comp n_comps p n =
    Ok ((p / n_comps)%Q, Z.max n (Qceiling (1 / (p / n_comps)))).
Proof.
  intros Hn Hp. unfold calc_mult_comp.
  destruct (Qeq_bool n_comps 0) eqn:E1.
  { apply Qeq_bool_iff in E1. rewrite E1 in Hn. by apply Qlt_irrefl in Hn. }
  destruct (Qeq_bool (p / n_comps) 0) eqn:E2; [|done].
  apply Qeq_bool_iff in E2.
  assert (0 < p / n_comps)%Q as H.
  { apply Qlt_shift_div_l; [done|]. by rewrite Qmult_0_l. }
  rewrite E2 in H. by apply Qlt_irrefl in H.
Qed.

Lemma calc_mult_comp_inv (n_comps p : Q) (n : Z) (p' : Q) (n' : Z) :
  calc_mult_comp n_comps p n = Ok (p', n') →
  p' = (p / n_comps)%Q ∧ n' = Z.max n (Qceiling (1 / (p / n_comps))).
Proof.
  unfold calc_mult_comp. destruct (Qeq_bool n_comps 0); [done|].
  destruct (Qeq_bool (p / n_comps) 0); [done|]. by intros [= <- <-].
Qed.

(** The p-values and numbers of permutations collected over the sessions. *)
Lemma signif_loop_mult (SessData : Type) (sess_nrois : SessData → nat)
    (perm_signif : SessData → nat → Z → string → string → Q → result sign_entry)
    (permpar : PermPar) (roigrppar : RoiGrpPar) (integ_data : list SessData)
    acc_grps acc_names acc_p acc_n all_roi_grps names pvals nperms :
  foldM (λ '(all_roi_grps, _, pvals_mult, nperms_mult) sess_data,
      '(sess_rois, nrois, pval_mult, nperm_mult) ←
         sess_signif SessData sess_nrois perm_signif sess_data 2 permpar roigrppar;
      '(roi_grps, grp_names) ← sess_grps sess_rois nrois permpar roigrppar;
      Ok (all_roi_grps ++ [roi_grps], Some grp_names,
          pvals_mult ++ [pval_mult], nperms_mult ++ [nperm_mult]))
    (acc_grps, acc_names, acc_p, acc_n) integ_data
    = Ok (all_roi_grps, names, pvals, nperms) →
  let corrected d := (p_val permpar / (inject_Z (Z.of_nat (sess_nrois d)) * 2))%Q in
  pvals = acc_p ++ map corrected integ_data
  ∧ nperms = acc_n ++ map (λ d, Z.max (n_perms permpar) (Qceiling (1 / corrected d)))
                        integ_data.
Proof.
  revert acc_grps acc_names acc_p acc_n.
  induction integ_data as [|d t IH]; intros acc_grps acc_names acc_p acc_n; simpl.
  - intros [= <- <- <- <-]. by rewrite !app_nil_r.
  - unfold sess_signif at 1.
    destruct (calc_mult_comp _ _ _) as [[pm nm]|] eqn:Ec; [|done].
    apply calc_mult_comp_inv in Ec as [-> ->]. cbn [mbind result_bind].
    destruct (mapM_res _ (seq 0 2)) as [sess_rois|]; [|done]. cbn [mbind result_bind].
    destruct (sess_grps sess_rois (sess_nrois d) permpar roigrppar) as [[g nm]|]; [|done].
    cbn [mbind result_bind]. intros H. apply IH in H as [-> ->].
    by rewrite <- !app_assoc.
Qed.

(** C3. For a session with [nrois > 0] ROIs and a positive p-value, the two
    quintiles are tested with the p-value [p_val / (nrois * 2)] and with
    [max(n_perms, ceil(1 / effective p-value))] permutations; these are the
    values [signif_rois_by_grp_sess] reports for each session.  With 10
    comparisons and [p_val = 0.05] the corrected p-value equals 0.005 and the
    number of permutations is at least 200. *)
Theorem signif_rois_mult_comp :
  (∀ (SessData : Type) (sess_nrois : SessData → nat)
     (perm_signif : SessData → nat → Z → string → string → Q → result sign_entry)
     (sess_data : SessData) (permpar : PermPar) (roigrppar : RoiGrpPar),
     (0 < sess_nrois sess_data)%nat → (0 < p_val permpar)%Q →
     let pval_mult := (p_val permpar / (inject_Z (Z.of_nat (sess_nrois sess_data)) * 2))%Q in
     let nperm_mult := Z.max (n_perms permpar) (Qceiling (1 / pval_mult)) in
     sess_signif SessData sess_nrois perm_signif sess_data 2 permpar roigrppar =
       (first ← perm_signif sess_data 0%nat nperm_mult (op roigrppar) (tails permpar) pval_mult;
        last ← perm_signif sess_data 1%nat nperm_mult (op roigrppar) (tails permpar) pval_mult;
        Ok ([first; last], sess_nrois sess_data, pval_mult, nperm_mult)))
  ∧ (∀ (SessData : Type) (sess_nrois : SessData → nat)
       (perm_signif : SessData → nat → Z → string → string → Q → result sign_entry)
       (integ_data : list SessData) (permpar : PermPar) (roigrppar : RoiGrpPar)
       all_roi_grps grp_names permpar_mult,
       signif_rois_by_grp_sess SessData sess_nrois perm_signif integ_data permpar
         roigrppar 2 = Ok (all_roi_grps, grp_names, permpar_mult) →
       let corrected d := (p_val permpar / (inject_Z (Z.of_nat (sess_nrois d)) * 2))%Q in
       p_val_mult permpar_mult = map corrected integ_data
       ∧ n_perms_mult permpar_mult =
           map (λ d, Z.max (n_perms permpar) (Qceiling (1 / corrected d))) integ_data)
  ∧ (∀ n_perms, ∃ p n,
       calc_mult_comp 10 (5 # 100) n_perms = Ok (p, n)
       ∧ (p == 5 # 1000)%Q ∧ n = Z.max n_perms 200 ∧ 200 ≤ n).
Proof.
  split; [|split].
  - intros SessData sess_nrois perm_signif sess_data permpar roigrppar Hn Hp.
    unfold sess_signif.
    change (inject_Z (Z.of_nat 2)) with 2%Q.
    rewrite calc_mult_comp_ok; [|  |done].
    + simpl.
      destruct (perm_signif sess_data 0%nat _ _ _ _); [|done].
      destruct (perm_signif sess_data 1%nat _ _ _ _); done.
    + apply Qmult_lt_0_compat; [|done].
      change 0%Q with (inject_Z 0). rewrite <- Zlt_Qlt. lia.
  - intros SessData sess_nrois perm_signif integ_data permpar roigrppar
      all_roi_grps grp_names permpar_mult H.
    unfold signif_rois_by_grp_sess in H. simpl in H.
    destruct (foldM _ _ integ_data) as [[[[g nm] pv] np]|] eqn:E; [|done].
    apply signif_loop_mult in E as [-> ->]. simpl in H.
    destruct nm; [|done]. by injection H as <- <- <-.
  - intros n. eexists _, _. split; [apply calc_mult_comp_ok; done|].
    split; [done|]. split; [reflexivity|]. change (Qceiling _) with 200. lia.
Qed.

Lemma signif_rois_mult_comp_witness :
  sess_signif (list nat) (fun d => length d) (fun _ _ _ _ _ _ => Ok (Rois []))
      [0; 1; 2; 3; 4]%nat 2
      {| p_val := 5 # 100; n_perms := 100; tails := "up" |}
      {| op := "diff"; grps := ["all"%string]; add_reg := false |}
    = Ok ([Rois []; Rois []], 5%nat, ((5 # 100) / (inject_Z 5 * 2))%Q, 200)
  ∧ [(5 # 100) / (inject_Z 5 * 2); (5 # 100) / (inject_Z 2 * 2)]%Q
    = map (λ d : list nat, (5 # 100) / (inject_Z (Z.of_nat (length d)) * 2))%Q
        [[0; 1; 2; 3; 4]; [0; 1]]%nat
  ∧ [200; 100]
    = map (λ d : list nat,
             Z.max 100 (Qceiling (1 / ((5 # 100) / (inject_Z (Z.of_nat (length d)) * 2)))))
        [[0; 1; 2; 3; 4]; [0; 1]]%nat.
Proof.
  split.
  - rewrite (proj1 signif_rois_mult_comp); [reflexivity | simpl; lia | reflexivity].
  - eapply (proj1 (proj2 signif_rois_mult_comp) (list nat) (fun d => length d)
             (fun _ q _ _ _ _ => Ok (Rois [q]))
             [[0; 1; 2; 3; 4]; [0; 1]]%nat
             {| p_val := 5 # 100; n_perms := 100; tails := "up" |}
             {| op := "diff"; grps := ["all"%string]; add_reg := false |}
             _
             grp_names_1tail
             {| p_val_mult := [(5 # 100) / (inject_Z 5 * 2); (5 # 100) / (inject_Z 2 * 2)]%Q;
                n_perms_mult := [200; 100]; tails_mult := "up" |}).
    vm_compute. reflexivity.
Defined.

End MultComp.

(** ** Running speed ([_load_run_speed]) *)

Section RunSpeed.
Import Session Design.

Lemma Qltb_lt (a b : Q) : Qltb a b = true ↔ (a < b)%Q.
Proof.
  unfold Qltb. rewrite negb_true_iff, <- not_true_iff_false, Qle_bool_iff.
  split; [apply Qnot_le_lt | apply Qlt_not_le].
Qed.

Lemma Qabs_gt (thr d : Q) : (thr < Qabs d)%Q ↔ (d < - thr)%Q ∨ (thr < d)%Q.
Proof.
  split.
  - apply Qabs_case; intros H1 H2; [by right | left].
    apply Qopp_lt_compat in H2. by rewrite Qopp_involutive in H2.
  - intros [H | H].
    + apply Qlt_le_trans with (- d)%Q.
      * apply Qopp_lt_compat in H. by rewrite Qopp_involutive in H.
      * rewrite <- Qabs_opp. apply Qle_Qabs.
    + eapply Qlt_le_trans; [exact H | apply Qle_Qabs].
Qed.

Lemma diff_out_spec (thr : Q) (d : option Q) :
  diff_out thr d = true ↔ ∃ v, d = Some v ∧ (thr < Qabs v)%Q.
Proof.
  destruct d as [v|]; simpl.
  - rewrite orb_true_iff, !Qltb_lt, <- Qabs_gt. naive_solver.
  - naive_solver.
Qed.

Lemma abs_gt_spec (x : option Q) (thr : Q) :
  abs_gt x thr = true ↔ ∃ v, x = Some v ∧ (thr < Qabs v)%Q.
Proof.
  destruct x as [v|]; simpl; [rewrite Qltb_lt|]; naive_solver.
Qed.

Lemma elem_of_np_where_from {A} (p : A → bool) (k : nat) (l : list A) (i : nat) :
  i ∈ np_where_from p k l ↔ (k ≤ i)%nat ∧ ∃ x, l !! (i - k)%nat = Some x ∧ p x = true.
Proof.
  revert k. induction l as [|y t IH]; intros k; simpl.
  - rewrite elem_of_nil. naive_solver.
  - rewrite elem_of_app, IH. split.
    + intros [H | [Hk (x & Hx & Hp)]].
      * destruct (p y) eqn:E; [|by apply elem_of_nil in H].
        apply list_elem_of_singleton in H as ->. split; [lia|].
        exists y. by rewrite Nat.sub_diag.
      * split; [lia|]. exists x. split; [|done].
        replace (i - k)%nat with (S (i - S k)) by lia. done.
    + intros [Hk (x & Hx & Hp)].
      destruct (decide (i = k)) as [-> | Hne].
      * rewrite Nat.sub_diag in Hx. simpl in Hx. simplify_eq.
        left. rewrite Hp. by apply list_elem_of_singleton.
      * right. split; [lia|]. exists x. split; [|done].
        replace (i - k)%nat with (S (i - S k)) in Hx by lia. done.
Qed.

Lemma elem_of_np_where {A} (p : A → bool) (l : list A) (i : nat) :
  i ∈ np_where p l ↔ ∃ x, l !! i = Some x ∧ p x = true.
Proof.
  unfold np_where. rewrite elem_of_np_where_from, Nat.sub_0_r.
  split; [naive_solver | intros H; split; [lia | done]].
Qed.

Lemma np_diff_f_lookup (l : list (option Q)) (i : nat) :
  np_diff_f l !! i =
    match l !! i, l !! S i with
    | Some a, Some b => Some (fsub b a)
    | _, _ => None
    end.
Proof.
  revert i. induction l as [|a t IH]; intros i; [done|].
  destruct t as [|b t']; [by destruct i as [|[|i]]|].
  destruct i as [|i]; [done|].
  change (np_diff_f (a :: b :: t')) with (fsub b a :: np_diff_f (b :: t')).
  change ((fsub b a :: np_diff_f (b :: t')) !! S i) with (np_diff_f (b :: t') !! i).
  rewrite IH. done.
Qed.

Lemma elem_of_out_idx (run : list (option Q)) (thr : Q) (i : nat) :
  i ∈ out_idx run thr ↔ diff_exceeds thr run i.
Proof.
  unfold out_idx, diff_exceeds. rewrite elem_of_np_where. split.
  - intros (d & Hd & Hout). rewrite np_diff_f_lookup in Hd.
    destruct (run !! i) as [a|] eqn:Ea; [|done].
    destruct (run !! S i) as [b|] eqn:Eb; [|done].
    simplify_eq. apply diff_out_spec in Hout as (v & Hv & Hlt).
    destruct a as [a|], b as [b|]; simpl in Hv; simplify_eq. by exists a, b.
  - intros (a & b & Ha & Hb & Hlt). exists (Some (b - a)%Q).
    rewrite np_diff_f_lookup, Ha, Hb. split; [done|].
    apply diff_out_spec. eauto.
Qed.

Lemma elem_of_out_idx_flagged (run : list (option Q)) (thr : Q) (i : nat) :
  i ∈ out_idx run thr ↔ diff_flagged thr run i.
Proof.
  unfold out_idx, diff_flagged. rewrite elem_of_np_where. split.
  - intros (d & Hd & Hout). apply diff_out_spec in Hout as (v & -> & Hlt). eauto.
  - intros (d & Hd & Hlt). exists (Some d). split; [done|]. apply diff_out_spec. eauto.
Qed.

(** C7, as the code has it.  A [Session] that loads its running speed without
    a threshold argument uses the threshold 100: a sample is flagged as an
    outlier iff the difference to its predecessor, as [np.diff] computes it,
    exceeds 100 in absolute value. *)
Theorem load_run_speed_default_thr (run : list (option Q)) :
  _load_stim_dict_run run = _load_run_speed run (Some 100%Q)
  ∧ (∀ i, i ∈ out_idx run (default diff_thr_default None) ↔ diff_flagged 100 run i).
Proof.
  split; [reflexivity|]. intros i. apply elem_of_out_idx_flagged.
Qed.

(** C7 as stated fails: a jump of 75 exceeds 50, yet the sample is not
    flagged and the running speed is left as it is. *)
Lemma load_run_speed_default_thr_not_50 :
  diff_exceeds 50 [Some 0%Q; Some 75%Q; Some 1%Q] 0
  ∧ (0%nat ∉ out_idx [Some 0%Q; Some 75%Q; Some 1%Q] (default diff_thr_default None))
  ∧ _load_stim_dict_run [Some 0%Q; Some 75%Q; Some 1%Q]
    = Ok ([Some 0%Q; Some 75%Q; Some 1%Q], [Some 0%Q; Some 75%Q; Some 1%Q], 3%nat, []).
Proof.
  split; [|split].
  - exists 0%Q, 75%Q. done.
  - vm_compute. apply not_elem_of_nil.
  - reflexivity.
Qed.

Lemma foldM_app {A B} (f : B → A → result B) (b : B) (l1 l2 : list A) :
  foldM f b (l1 ++ l2) = foldM f b l1 ≫= λ b', foldM f b' l2.
Proof.
  revert b. induction l1 as [|x t IH]; intros b; simpl; [done|].
  destruct (f b x); [apply IH | done].
Qed.

Lemma fill_lookup {A} (lo hi : nat) (v : A) (l : list A) (i : nat) :
  fill lo hi v l !! i = (λ x, if bool_decide (lo ≤ i < hi)%nat then v else x) <$> l !! i.
Proof. unfold fill. apply list_lookup_imap. Qed.

Lemma fill_lookup_out {A} (lo hi : nat) (v : A) (l : list A) (i : nat) :
  (i < lo ∨ hi ≤ i)%nat → fill lo hi v l !! i = l !! i.
Proof.
  intros H. rewrite fill_lookup. rewrite bool_decide_eq_false_2 by lia.
  by destruct (l !! i).
Qed.

Lemma fill_lookup_in {A} (lo hi : nat) (v : A) (l : list A) (i : nat) :
  (lo ≤ i < hi)%nat → (i < length l)%nat → fill lo hi v l !! i = Some v.
Proof.
  intros H Hl. rewrite fill_lookup. rewrite bool_decide_eq_true_2 by lia.
  destruct (lookup_lt_is_Some_2 l i Hl) as [x ->]. done.
Qed.

Lemma drop_ext {A} (n : nat) (l1 l2 : list A) :
  (∀ i, (n ≤ i)%nat → l1 !! i = l2 !! i) → drop n l1 = drop n l2.
Proof.
  intros H. apply list_eq. intros i. rewrite !lookup_drop. apply H. lia.
Qed.

Lemma nan_while_run (thr a b : Q) (bad post : list (option Q)) :
  all_off thr a bad → (Qabs (b - a) <= thr)%Q →
  nan_while (bad ++ Some b :: post) (Some a) thr = Ok (length bad).
Proof.
  intros Hbad Hb. induction Hbad as [|x bad (v & -> & Hv) _ IH].
  - cbn [app nan_while fsub].
    destruct (abs_gt (Some (b - a)%Q) thr) eqn:E; [|done].
    apply abs_gt_spec in E as (w & [= <-] & Hw). by apply Qlt_not_le in Hw.
  - cbn [app nan_while fsub].
    destruct (abs_gt (Some (v - a)%Q) thr) eqn:E.
    + by rewrite IH.
    + apply not_true_iff_false in E. rewrite abs_gt_spec in E. naive_solver.
Qed.

(** What one round of the loop does at an outlier index [idx >= 1] that
    opens a run: the run is NaN in [run] and holds the mean of the values
    around it in [run_interp]; nothing else is written. *)
Lemma run_step_run (thr a b : Q) (s : run_state) (idx : nat)
    (bad post : list (option Q)) :
  rs_at_idx s < Z.of_nat idx → (1 ≤ idx)%nat →
  drop idx (rs_run s) = Some a :: bad ++ Some b :: post →
  all_off thr a bad → (Qabs (b - a) <= thr)%Q →
  ∃ s', run_step thr s idx = Ok s'
    ∧ rs_at_idx s' = Z.of_nat (idx + length bad)
    ∧ rs_run s' = fill (S idx) (S idx + length bad) None (rs_run s)
    ∧ rs_run_interp s' =
        fill (S idx) (S idx + length bad) (fmean2 (Some a) (Some b)) (rs_run_interp s).
Proof.
  intros Hat Hidx Hdrop Hbad Hb. unfold run_step.
  apply Z.ltb_lt in Hat. rewrite Hat.
  destruct (decide (idx = 0%nat)) as [->|_]; [lia|].
  assert (rs_run s !! idx = Some (Some a)) as Ha.
  { rewrite <- (Nat.add_0_r idx), <- lookup_drop, Hdrop. done. }
  rewrite Ha. simpl.
  assert (drop (S idx) (rs_run s) = bad ++ Some b :: post) as Hd.
  { replace (S idx) with (idx + 1)%nat by lia.
    rewrite <- (drop_drop (rs_run s) 1 idx), Hdrop. done. }
  rewrite Hd, nan_while_run by done. simpl.
  assert (fill (S idx) (S (idx + length bad)) None (rs_run s) !! S (idx + length bad)
          = Some (Some b)) as Hnxt.
  { rewrite fill_lookup_out by lia.
    replace (S (idx + length bad)) with (S idx + length bad)%nat by lia.
    rewrite <- lookup_drop, Hd. by rewrite list_lookup_middle. }
  rewrite Hnxt. eexists. split; [reflexivity|]. simpl.
  replace (Z.to_nat (Z.of_nat idx + 1)) with (S idx) by lia. done.
Qed.

(** Case analysis on the result the next step of a computation examines. *)
Ltac case_scrut :=
  match goal with
  | |- context [match ?x with Ok _ => _ | Raise _ => _ end = Ok _ → _] =>
      destruct x eqn:?; [|done]
  | |- context [match ?x with Some _ => _ | None => _ end = Ok _ → _] =>
      destruct x eqn:?; [|done]
  | |- (?x ≫= _) = Ok _ → _ => destruct x eqn:?; [|done]
  end; simpl.

(** A round of the loop writes nothing beyond the index it stops at. *)
Lemma run_step_later (thr : Q) (s s' : run_state) (idx : nat) :
  run_step thr s idx = Ok s' →
  rs_at_idx s ≤ rs_at_idx s'
  ∧ ∀ i, rs_at_idx s' < Z.of_nat i →
      rs_run s' !! i = rs_run s !! i ∧ rs_run_interp s' !! i = rs_run_interp s !! i.
Proof.
  unfold run_step. destruct (rs_at_idx s <? Z.of_nat idx) eqn:Hat;
    [|intros [= <-]; split; [lia | done]].
  apply Z.ltb_lt in Hat.
  destruct (decide (idx = 0%nat)) as [->|Hne].
  - destruct (rs_run s !! 0%nat) as [r0|] eqn:E0; [|done].
    destruct (abs_gt r0 thr); simpl.
    + case_scrut. simpl.
      case_scrut. intros [= <-]. simpl.
      split; [lia|]. intros i Hi. rewrite !fill_lookup_out by lia.
      rewrite list_lookup_insert_ne by lia. done.
    + case_scrut. simpl.
      case_scrut. intros [= <-]. simpl.
      split; [lia|]. intros i Hi. rewrite !fill_lookup_out by lia. done.
  - destruct (rs_run s !! idx) as [c|] eqn:Ec; [|done]. simpl.
    case_scrut. simpl.
    case_scrut. intros [= <-]. simpl.
    split; [lia|]. intros i Hi. rewrite !fill_lookup_out by lia. done.
Qed.

(** Once the loop is past the first sample, a round writes nothing at or
    below the index after the one it had reached. *)
Lemma run_step_earlier (thr : Q) (s s' : run_state) (idx : nat) :
  run_step thr s idx = Ok s' → 0 ≤ rs_at_idx s →
  ∀ i, Z.of_nat i ≤ rs_at_idx s + 1 →
    rs_run s' !! i = rs_run s !! i ∧ rs_run_interp s' !! i = rs_run_interp s !! i.
Proof.
  unfold run_step. destruct (rs_at_idx s <? Z.of_nat idx) eqn:Hat;
    [|by intros [= <-]].
  apply Z.ltb_lt in Hat.
  destruct (decide (idx = 0%nat)) as [->|Hne]; [lia|].
  destruct (rs_run s !! idx) as [c|] eqn:Ec; [|done]. simpl.
  case_scrut. case_scrut. intros [= <-] H0 i Hi. simpl.
  rewrite !fill_lookup_out by lia. done.
Qed.

Lemma run_loop_later (thr : Q) (out : list nat) (s s' : run_state) :
  foldM (run_step thr) s out = Ok s' →
  rs_at_idx s ≤ rs_at_idx s'
  ∧ ∀ i, rs_at_idx s' < Z.of_nat i →
      rs_run s' !! i = rs_run s !! i ∧ rs_run_interp s' !! i = rs_run_interp s !! i.
Proof.
  revert s. induction out as [|idx t IH]; intros s; simpl.
  - intros [= <-]. split; [lia | done].
  - destruct (run_step thr s idx) as [s1|] eqn:E1; [|done]. intros Ht.
    apply run_step_later in E1 as [Hle1 H1]. apply IH in Ht as [Hle2 H2].
    split; [lia|]. intros i Hi.
    destruct (H2 i Hi) as [-> ->]. apply H1. lia.
Qed.

Lemma run_loop_earlier (thr : Q) (out : list nat) (s s' : run_state) :
  foldM (run_step thr) s out = Ok s' → 0 ≤ rs_at_idx s →
  ∀ i, Z.of_nat i ≤ rs_at_idx s + 1 →
    rs_run s' !! i = rs_run s !! i ∧ rs_run_interp s' !! i = rs_run_interp s !! i.
Proof.
  revert s. induction out as [|idx t IH]; intros s; simpl.
  - by intros [= <-].
  - destruct (run_step thr s idx) as [s1|] eqn:E1; [|done]. intros Ht H0 i Hi.
    pose proof (run_step_later _ _ _ _ E1) as [Hle1 _].
    pose proof (run_step_earlier _ _ _ _ E1 H0 i Hi) as [<- <-].
    apply (IH _ Ht); lia.
Qed.

(** What the repair does with a run.  Whenever the loop reaches an outlier
    index [idx >= 1] that opens a run (the good value [a] at [idx], the
    samples [bad] off by more than the threshold from [a], then the first
    value [b] within the threshold of [a]), the round succeeds, and in the
    output the run is NaN in [run] and every sample of it holds the one value
    [(a + b) / 2] in [run_interp], with [a] and [b] left in place.  For
    [[0,1,2,200,3,4]] and a threshold of 50 the outputs are
    [[0,1,2,NaN,3,4]] and [[0,1,2,2.5,3,4]]. *)
Theorem load_run_speed_repair :
  (∀ (run : list (option Q)) (thr : Q) (o1 o2 : list nat) (s : run_state)
     (pre : list (option Q)) (a : Q) (bad : list (option Q)) (b : Q)
     (post : list (option Q)),
     out_idx run thr = o1 ++ length pre :: o2 →
     foldM (run_step thr) (run_state0 run (length (out_idx run thr))) o1 = Ok s →
     rs_at_idx s < Z.of_nat (length pre) →
     pre ≠ [] →
     run = pre ++ Some a :: bad ++ Some b :: post →
     all_off thr a bad → (Qabs (b - a) <= thr)%Q →
     ∃ s', run_step thr s (length pre) = Ok s'
       ∧ rs_at_idx s' = Z.of_nat (length pre + length bad)
       ∧ ∀ r ri n w, _load_run_speed run (Some thr) = Ok (r, ri, n, w) →
           r !! length pre = Some (Some a) ∧ ri !! length pre = Some (Some a)
           ∧ (∀ j, (j < length bad)%nat →
                r !! (S (length pre) + j)%nat = Some None
                ∧ ri !! (S (length pre) + j)%nat = Some (Some (Qred ((a + b) / 2))))
           ∧ r !! (S (length pre) + length bad)%nat = Some (Some b)
           ∧ ri !! (S (length pre) + length bad)%nat = Some (Some b))
  ∧ _load_run_speed [Some 0%Q; Some 1%Q; Some 2%Q; Some 200%Q; Some 3%Q; Some 4%Q]
                    (Some 50%Q)
    = Ok ([Some 0%Q; Some 1%Q; Some 2%Q; None; Some 3%Q; Some 4%Q],
          [Some 0%Q; Some 1%Q; Some 2%Q; Some (5 # 2); Some 3%Q; Some 4%Q],
          6%nat, [WarnRunReplaced 2]).
Proof.
  split; [|reflexivity].
  intros run thr o1 o2 s pre a bad b post Hout Ho1 Hat Hpre Hrun Hbad Hb.
  set (idx := length pre) in *. set (k := length bad).
  assert (1 ≤ idx)%nat as Hidx.
  { subst idx. destruct pre; [done | simpl; lia]. }
  (* the samples from [idx] on are still those of the input *)
  pose proof (run_loop_later _ _ _ _ Ho1) as [_ Hlater]. simpl in Hlater.
  assert (Hra : run !! idx = Some (Some a)).
  { rewrite Hrun. by apply list_lookup_middle. }
  assert (Hrbad : ∀ j, (j < k)%nat → ∃ x, run !! (S idx + j)%nat = Some x).
  { intros j Hj. rewrite Hrun. rewrite lookup_app_r by (subst idx; lia).
    replace (S idx + j - length pre)%nat with (S j) by (subst idx; lia).
    simpl. rewrite lookup_app_l by done. by apply lookup_lt_is_Some_2. }
  assert (Hrb : run !! (S idx + k)%nat = Some (Some b)).
  { rewrite Hrun. rewrite lookup_app_r by (subst idx; lia).
    replace (S idx + k - length pre)%nat with (S k) by (subst idx; lia).
    simpl. by apply list_lookup_middle. }
  assert (Hdrop : drop idx (rs_run s) = Some a :: bad ++ Some b :: post).
  { transitivity (drop idx run).
    - apply drop_ext. intros i Hi. apply Hlater. lia.
    - rewrite Hrun. unfold idx. by rewrite drop_app_length. }
  destruct (run_step_run thr a b s idx bad post Hat Hidx Hdrop Hbad Hb)
    as (s' & Hstep & Hat' & Hr' & Hi').
  exists s'. split; [done|]. split; [done|].
  intros r ri n w Hload. unfold _load_run_speed in Hload.
  change (default diff_thr_default (Some thr)) with thr in Hload.
  set (s0 := run_state0 run (length (out_idx run thr))) in *.
  rewrite Hout, foldM_app, Ho1 in Hload. simpl in Hload.
  rewrite Hstep in Hload.
  destruct (foldM (run_step thr) s' o2) as [sf|] eqn:Ho2; [|done].
  simpl in Hload. injection Hload as <- <- _ _.
  assert (0 ≤ rs_at_idx s') as H0 by lia.
  pose proof (run_loop_earlier _ _ _ _ Ho2 H0) as Hearly.
  rewrite Hat' in Hearly. fold k in Hr', Hi', Hearly.
  assert (Hs : ∀ i, (idx ≤ i)%nat →
            rs_run s !! i = run !! i ∧ rs_run_interp s !! i = run !! i).
  { intros i Hi. apply Hlater. lia. }
  repeat split.
  - destruct (Hearly idx) as [-> _]; [lia|].
    rewrite Hr', fill_lookup_out by lia. by destruct (Hs idx) as [-> _].
  - destruct (Hearly idx) as [_ ->]; [lia|].
    rewrite Hi', fill_lookup_out by lia. by destruct (Hs idx) as [_ ->].
  - destruct (Hearly (S idx + j)%nat) as [-> _]; [lia|].
    rewrite Hr'. apply fill_lookup_in; [lia|].
    destruct (Hrbad j) as [x Hx]; [done|].
    destruct (Hs (S idx + j)%nat) as [Hl _]; [lia|].
    rewrite <- Hl in Hx. by apply lookup_lt_Some in Hx.
  - destruct (Hearly (S idx + j)%nat) as [_ ->]; [lia|].
    rewrite Hi'. apply fill_lookup_in; [lia|].
    destruct (Hrbad j) as [x Hx]; [done|].
    destruct (Hs (S idx + j)%nat) as [_ Hl]; [lia|].
    rewrite <- Hl in Hx. by apply lookup_lt_Some in Hx.
  - destruct (Hearly (S idx + k)%nat) as [-> _]; [lia|].
    rewrite Hr', fill_lookup_out by lia. by destruct (Hs (S idx + k)%nat) as [-> _]; [lia|].
  - destruct (Hearly (S idx + k)%nat) as [_ ->]; [lia|].
    rewrite Hi', fill_lookup_out by lia. by destruct (Hs (S idx + k)%nat) as [_ ->]; [lia|].
Qed.

Lemma load_run_speed_repair_witness :
  ∃ s', run_step 50%Q (run_state0 [Some 0%Q; Some 1%Q; Some 2%Q; Some 200%Q; Some 3%Q; Some 4%Q] 2)
          2%nat = Ok s'
    ∧ rs_at_idx s' = 3
    ∧ ∀ r ri n w,
        _load_run_speed [Some 0%Q; Some 1%Q; Some 2%Q; Some 200%Q; Some 3%Q; Some 4%Q]
          (Some 50%Q) = Ok (r, ri, n, w) →
        r !! 2%nat = Some (Some 2%Q) ∧ ri !! 2%nat = Some (Some 2%Q)
        ∧ (∀ j, (j < 1)%nat →
             r !! (3 + j)%nat = Some None ∧ ri !! (3 + j)%nat = Some (Some (5 # 2)))
        ∧ r !! 4%nat = Some (Some 3%Q) ∧ ri !! 4%nat = Some (Some 3%Q).
Proof.
  apply (proj1 load_run_speed_repair
           [Some 0%Q; Some 1%Q; Some 2%Q; Some 200%Q; Some 3%Q; Some 4%Q] 50%Q
           [] [3%nat] _ [Some 0%Q; Some 1%Q] 2%Q [Some 200%Q] 3%Q [Some 4%Q]).
  - reflexivity.
  - reflexivity.
  - simpl. lia.
  - done.
  - reflexivity.
  - constructor; [|constructor]. exists 200%Q. split; [done|]. reflexivity.
  - vm_compute. discriminate.
Defined.

(** C6 on the code.  The example of the claim holds, but a run of two
    samples is not linearly interpolated: between the good values 1 and 4 the
    interpolated output holds 2.5 twice, where the linear interpolation is 2
    and then 3.  And a run that starts at the second sample is filled from 0,
    not from the good first sample: for [[30, 90, 31]] the output holds
    [(0 + 31) / 2] between 30 and 31. *)
Theorem load_run_speed_not_linear :
  _load_run_speed [Some 0%Q; Some 1%Q; Some 2%Q; Some 200%Q; Some 3%Q; Some 4%Q]
                  (Some 50%Q)
    = Ok ([Some 0%Q; Some 1%Q; Some 2%Q; None; Some 3%Q; Some 4%Q],
          [Some 0%Q; Some 1%Q; Some 2%Q; Some (5 # 2); Some 3%Q; Some 4%Q],
          6%nat, [WarnRunReplaced 2])
  ∧ lin_interp 2 3 1 1 = (5 # 2)
  ∧ _load_run_speed [Some 0%Q; Some 1%Q; Some 200%Q; Some 200%Q; Some 4%Q; Some 5%Q]
                    (Some 50%Q)
    = Ok ([Some 0%Q; Some 1%Q; None; None; Some 4%Q; Some 5%Q],
          [Some 0%Q; Some 1%Q; Some (5 # 2); Some (5 # 2); Some 4%Q; Some 5%Q],
          6%nat, [WarnRunReplaced 2])
  ∧ lin_interp 1%Q 4%Q 2 1 = 2%Q ∧ lin_interp 1%Q 4%Q 2 2 = 3%Q
  ∧ ¬ ((5 # 2) == lin_interp 1 4 2 1)%Q
  ∧ ¬ ((5 # 2) == lin_interp 1 4 2 2)%Q
  ∧ _load_run_speed [Some 30%Q; Some 90%Q; Some 31%Q] (Some 50%Q)
    = Ok ([Some 30%Q; None; Some 31%Q], [Some 30%Q; Some (31 # 2); Some 31%Q],
          3%nat, [WarnRunReplaced 2])
  ∧ lin_interp 30 31 1 1 = (61 # 2).
Proof.
  repeat split; try reflexivity; vm_compute; discriminate.
Qed.

End RunSpeed.

(** ** The 2p to stimulus frame alignment ([_get_twop2stimfr]) *)

Section Twop2Stimfr.
Import Session Design.

(** With at most one dropped sequence the loop over [dropped[-1:]] visits
    every dropped sequence. *)
Lemma last_slice_short {A} (l : list A) : (length l ≤ 1)%nat → last_slice l = rev l.
Proof. destruct l as [|x [|y t]]; simpl; [done | done | lia]. Qed.

(** When the alignment has at most one dropped sequence, the code repairs
    it: it returns the alignment in which every dropped sequence is
    backfilled, and warns if there is one. *)
Lemma get_twop2stimfr_one_drop (stim2twopfr : list Z) (n_twop : nat) (a : list (option Z)) :
  let dropped := np_where (fun d => 1 <? d) (1 :: np_diff stim2twopfr) in
  (length dropped ≤ 1)%nat →
  twop2stimfr_all_repaired stim2twopfr n_twop = Ok a →
  _get_twop2stimfr stim2twopfr n_twop =
    Ok (a, if decide (0 < length dropped)%nat then [WarnDroppedSeqs (length dropped)] else []).
Proof.
  intros dropped Hlen. unfold twop2stimfr_all_repaired, _get_twop2stimfr.
  fold dropped. rewrite <- (last_slice_short dropped Hlen).
  destruct (decide (0 < length dropped)%nat) as [Hpos|Hpos].
  - destruct (foldM _ _ (last_slice dropped)) as [stim_idx|]; [|done]. simpl.
    destruct (py_index stim2twopfr 0); [|done]. simpl.
    destruct (py_index stim2twopfr (-1)); [|done]. simpl.
    by intros ->.
  - assert (dropped = []) as -> by (destruct dropped; [done | simpl in Hpos; lia]).
    simpl.
    destruct (py_index stim2twopfr 0); [|done]. simpl.
    destruct (py_index stim2twopfr (-1)); [|done]. simpl.
    by intros ->.
Qed.

(** C5 fails on the code when the alignment has two dropped sequences: for
    [stim2twopfr = [0, 2, 4]] over 5 two-photon frames, only the last
    sequence is repeated, the assignment of 4 values to 5 frames fails, and
    the alignment is left all NaN with the warning that it is not working;
    repairing every dropped sequence gives [[0, 0, 1, 1, 2]]. *)
Theorem get_twop2stimfr_two_drops :
  _get_twop2stimfr [0; 2; 4] 5
    = Ok ([None; None; None; None; None], [WarnDroppedSeqs 2; WarnTwop2stimfrNotWorking])
  ∧ foldM (repeat_dropped [1; 2; 2]) [0; 1; 2]%nat (last_slice [1; 2]%nat)
    = Ok [0; 1; 1; 2]%nat
  ∧ twop2stimfr_all_repaired [0; 2; 4] 5
    = Ok [Some 0; Some 0; Some 1; Some 1; Some 2].
Proof. repeat split. Qed.

(** With a single dropped sequence the last valid stimulus frame is
    repeated and a warning is printed. *)
Example get_twop2stimfr_single_drop :
  _get_twop2stimfr [0; 1; 3] 4
    = Ok ([Some 0; Some 1; Some 1; Some 2], [WarnDroppedSeqs 1]).
Proof. reflexivity. Qed.

End Twop2Stimfr.

(** ** Quintile segmentation ([quint_segs]) *)

Section QuintSegs.
Import GenUtil Stim QuintAnalys Design.

(** The test of the comprehension, for a finite quintile length. *)
Lemma in_quint_Fin (w : Q) (seg_min q seg : Z) :
  in_quint (Fin w) seg_min q seg = true ↔
    (inject_Z seg_min + inject_Z q * w <= inject_Z seg)%Q
    ∧ (inject_Z seg < inject_Z seg_min + (inject_Z q + 1) * w)%Q.
Proof.
  unfold in_quint. cbn [bin_edge ge_edge lt_edge].
  rewrite andb_true_iff, Qle_bool_iff, Qltb_lt.
  rewrite inject_Z_plus.
  rewrite (Qplus_comm (inject_Z q * w)), (Qplus_comm ((inject_Z q + inject_Z 1) * w)).
  done.
Qed.

Lemma quint_len_nonzero (from_numpy : bool) (seg_min seg_max n : Z) :
  n ≠ 0 →
  quint_len from_numpy seg_min seg_max n
    = Ok (Fin (inject_Z (seg_max - seg_min) / inject_Z n)).
Proof. intros Hn. unfold quint_len. by rewrite (proj2 (Z.eqb_neq n 0)). Qed.

Section Fixed.
Variable pos_idx : list Z → Z → result (list Z).

(** What a successful call has computed. *)
Lemma quint_segs_inv st stimpar n qu_idx surp empty_ok remconsec by_surp_len qs qc nc :
  quint_segs pos_idx st stimpar n qu_idx surp empty_ok remconsec by_surp_len
    = Ok (qs, qc, nc) →
  ∃ retained all_segs segs qu_len,
    retained_quints pos_idx n qu_idx = Ok retained
    ∧ query_segs st (all_seg_args stimpar) empty_ok = Ok all_segs
    ∧ quint_len (nonempty all_segs) (fst (seg_extent all_segs))
        (snd (seg_extent all_segs)) n = Ok qu_len
    ∧ query_segs st (crit_seg_args stimpar surp remconsec) empty_ok = Ok segs
    ∧ qs = map (λ q, filter (λ seg, in_quint qu_len (fst (seg_extent all_segs)) q seg = true)
                       (if by_surp_len then fst (consec segs false) else segs)) retained
    ∧ qc = map (λ s, length s) qs
    ∧ (by_surp_len = false → nc = None).
Proof.
  unfold quint_segs. intros H.
  destruct (retained_quints pos_idx n qu_idx) as [retained|]; [|done]. simpl in H.
  destruct (query_segs st (all_seg_args stimpar) empty_ok) as [all_segs|]; [|done].
  simpl in H. destruct (seg_extent all_segs) as [seg_min seg_max] eqn:Eext.
  destruct (quint_len _ seg_min seg_max n) as [qu_len|] eqn:Elen; [|done]. simpl in H.
  destruct (query_segs st (crit_seg_args stimpar surp remconsec) empty_ok)
    as [segs|]; [|done].
  simpl in H. exists retained, all_segs, segs, qu_len. rewrite Eext. simpl.
  destruct by_surp_len.
  - destruct (consec segs false) as [firsts n_consec]. simpl in *.
    destruct (mapM_res _ retained); [|done]. simpl in H. injection H as <- <- <-.
    by repeat split.
  - injection H as <- <- <-. by repeat split.
Qed.

(** A call without [by_surp_len] returns once its parts do. *)
Lemma quint_segs_ok st stimpar n qu_idx surp empty_ok remconsec retained all_segs segs :
  n ≠ 0 →
  retained_quints pos_idx n qu_idx = Ok retained →
  query_segs st (all_seg_args stimpar) empty_ok = Ok all_segs →
  query_segs st (crit_seg_args stimpar surp remconsec) empty_ok = Ok segs →
  let seg_min := fst (seg_extent all_segs) in
  let seg_max := snd (seg_extent all_segs) in
  let qs := map (λ q, filter (λ seg,
               in_quint (Fin (inject_Z (seg_max - seg_min) / inject_Z n)) seg_min q seg = true)
               segs) retained in
  quint_segs pos_idx st stimpar n qu_idx surp empty_ok remconsec false
    = Ok (qs, map (λ s, length s) qs, None).
Proof.
  intros Hn Hret Hall Hsegs. simpl. unfold quint_segs.
  rewrite Hret. simpl. rewrite Hall. simpl.
  destruct (seg_extent all_segs) as [seg_min seg_max]. simpl.
  rewrite quint_len_nonzero by done. simpl. rewrite Hsegs. done.
Qed.

End Fixed.





(** *** Queries that match no segment *)

Lemma filter_nonempty_nil {A B} (f : A → list B) (l : list A) :
  (∀ x, x ∈ l → f x = []) → filter (λ y, nonempty y = true) (map f l) = [].
Proof.
  induction l as [|x t IH]; intros H; [done|]. simpl.
  rewrite filter_cons_False by (rewrite (H x) by apply list_elem_of_here; done).
  apply IH. intros y Hy. apply H. by apply list_elem_of_further.
Qed.

Lemma filter_none {A} (P : A → Prop) `{∀ x, Decision (P x)} (l : list A) :
  (∀ x, x ∈ l → ¬ P x) → filter P l = [].
Proof.
  induction l as [|x t IH]; intros H'; [done|].
  rewrite filter_cons_False by (apply H'; apply list_elem_of_here).
  apply IH. intros y Hy. apply H'. by apply list_elem_of_further.
Qed.

Lemma mapM_res_Ok {A B} (g : A → B) (l : list A) :
  mapM_res (λ x, Ok (g x)) l = Ok (map g l).
Proof. induction l as [|x t IH]; simpl; [done|]. by rewrite IH. Qed.

(** With the frame ranges left at ['any'], as in every query of
    [quint_segs], a segment query raises nothing but ValueError. *)
Lemma get_segs_raises_ValueError st a e :
  a_start2pfr a = FrAny → a_end2pfr a = FrAny → a_num2pfr a = FrAny →
  get_segs_by_criteria st a = Raise e → is_ValueError e = true.
Proof.
  intros H1 H2 H3.
  unfold get_segs_by_criteria, _format_stim_criteria, resolve_ran, col_min, col_max1.
  rewrite H1, H2, H3.
  destruct (map start2pfr (stim_df st)); simpl; [by intros [= <-]|].
  destruct (map end2pfr (stim_df st)); simpl; [by intros [= <-]|].
  destruct (map num2pfr (stim_df st)); simpl; [by intros [= <-]|].
  destruct (decide _); [by intros [= <-]|].
  destruct (String.eqb (a_by a) "block"); [done|].
  destruct (String.eqb (a_by a) "seg"); [done|].
  destruct (String.eqb (a_by a) "disp"); [done|]. by intros [= <-].
Qed.

Lemma query_segs_empty_ok st a :
  a_start2pfr a = FrAny → a_end2pfr a = FrAny → a_num2pfr a = FrAny →
  ∃ l, query_segs st a true = Ok l.
Proof.
  intros H1 H2 H3. unfold query_segs.
  destruct (get_segs_by_criteria st a) as [o|e] eqn:E; simpl; [by eexists|].
  rewrite (get_segs_raises_ValueError st a e) by done. by eexists.
Qed.

Lemma query_segs_raise st a empty_ok msg :
  get_segs_by_criteria st a = Raise (ValueError msg) →
  query_segs st a empty_ok = if empty_ok then Ok [] else Raise (ValueError msg).
Proof. intros H. unfold query_segs. by rewrite H. Qed.

(** With [empty_ok], a call whose criteria match no segment returns an empty
    list and a zero count for each retained quintile. *)
Lemma quint_segs_empty pos_idx st stimpar n qu_idx surp remconsec by_surp_len retained msg :
  n ≠ 0 →
  retained_quints pos_idx n qu_idx = Ok retained →
  get_segs_by_criteria st (crit_seg_args stimpar surp remconsec) = Raise (ValueError msg) →
  quint_segs pos_idx st stimpar n qu_idx surp true remconsec by_surp_len
    = Ok (map (λ _, []) retained, map (λ _, 0%nat) retained,
          if by_surp_len then Some (map (λ _, []) retained) else None).
Proof.
  intros Hn Hret Hq. unfold quint_segs. rewrite Hret. simpl.
  destruct (query_segs_empty_ok st (all_seg_args stimpar)) as [all_segs ->]; try done.
  simpl. destruct (seg_extent all_segs) as [seg_min seg_max].
  rewrite quint_len_nonzero by done. simpl.
  rewrite (query_segs_raise _ _ _ _ Hq). simpl.
  destruct by_surp_len; simpl.
  - unfold quint_n_consec. simpl. rewrite mapM_res_Ok. simpl.
    f_equal. f_equal. by rewrite map_map.
  - f_equal. f_equal. by rewrite map_map.
Qed.

(** Without [empty_ok] the same call raises. *)
Lemma quint_segs_empty_raises pos_idx st stimpar n qu_idx surp remconsec by_surp_len
    retained msg :
  n ≠ 0 →
  retained_quints pos_idx n qu_idx = Ok retained →
  get_segs_by_criteria st (crit_seg_args stimpar surp remconsec) = Raise (ValueError msg) →
  ∃ msg', quint_segs pos_idx st stimpar n qu_idx surp false remconsec by_surp_len
            = Raise (ValueError msg').
Proof.
  intros Hn Hret Hq. unfold quint_segs. rewrite Hret. simpl.
  destruct (get_segs_by_criteria st (all_seg_args stimpar)) as [o|e] eqn:E.
  - assert (query_segs st (all_seg_args stimpar) false = Ok (flat_segs o)) as ->.
    { unfold query_segs. by rewrite E. }
    simpl. destruct (seg_extent (flat_segs o)) as [seg_min seg_max].
    rewrite quint_len_nonzero by done. simpl.
    rewrite (query_segs_raise _ _ _ _ Hq). simpl. by eexists.
  - pose proof (get_segs_raises_ValueError st (all_seg_args stimpar) e
                  eq_refl eq_refl eq_refl E) as He.
    destruct e; try done. rewrite (query_segs_raise _ _ _ _ E). simpl. by eexists.
Qed.

(** C8. A segment query whose criteria match no segment of any block raises
    ValueError, and so does [quint_segs] by default; with [empty_ok=True] the
    same call returns an empty segment list and a zero count for each
    retained quintile. *)
Theorem empty_query_raises_unless_empty_ok :
  (∀ st a c,
     _format_stim_criteria st a = Ok c →
     (∀ blk j r, blk ∈ block_ran_seg st → j ∈ blk → r ∈ stim_df st →
        row_mask st c r = true → ¬ (fst j ≤ stimSeg r < snd j)) →
     get_segs_by_criteria st a = Raise (ValueError "No segments fit these criteria."))
  ∧ (∀ pos_idx st stimpar n qu_idx surp remconsec by_surp_len retained msg,
     n ≠ 0 →
     retained_quints pos_idx n qu_idx = Ok retained →
     get_segs_by_criteria st (crit_seg_args stimpar surp remconsec)
       = Raise (ValueError msg) →
     (∃ msg', quint_segs pos_idx st stimpar n qu_idx surp false remconsec by_surp_len
                = Raise (ValueError msg'))
     ∧ quint_segs pos_idx st stimpar n qu_idx surp true remconsec by_surp_len
       = Ok (map (λ _, []) retained, map (λ _, 0%nat) retained,
             if by_surp_len then Some (map (λ _, []) retained) else None)).
Proof.
  split.
  - intros st a c Hc Hnone. unfold get_segs_by_criteria. rewrite Hc. simpl.
    unfold nested_segs. rewrite filter_nonempty_nil; [done|].
    intros blk Hblk. apply filter_nonempty_nil. intros j Hj.
    unfold block_segs.
    assert (filter (λ r, row_mask st c r && (j.1 <=? stimSeg r) && (stimSeg r <? j.2) = true)
              (stim_df st) = []) as ->; [|by destruct (a_remconsec a)].
    apply filter_none. intros r Hr Hm.
    rewrite !andb_true_iff in Hm. destruct Hm as [[Hm H1] H2].
    apply (Hnone blk j r Hblk Hj Hr Hm). lia.
  - intros pos_idx st stimpar n qu_idx surp remconsec by_surp_len retained msg Hn Hret Hq.
    split; [by eapply quint_segs_empty_raises | by eapply quint_segs_empty].
Qed.

Lemma empty_query_raises_unless_empty_ok_witness :
  get_segs_by_criteria gab_stim (crit_seg_args gab_par (Vals [2]) true)
    = Raise (ValueError "No segments fit these criteria.")
  ∧ (∃ msg', quint_segs pos_idx_ex gab_stim gab_par 4 None (Vals [2]) false true true
               = Raise (ValueError msg'))
  ∧ quint_segs pos_idx_ex gab_stim gab_par 4 None (Vals [2]) true true true
    = Ok ([[]; []; []; []], [0; 0; 0; 0]%nat, Some [[]; []; []; []]).
Proof.
  split.
  - destruct (_format_stim_criteria gab_stim (crit_seg_args gab_par (Vals [2]) true))
      as [c|] eqn:Ec; [|by vm_compute in Ec].
    apply (proj1 empty_query_raises_unless_empty_ok gab_stim _ c Ec).
    intros blk j r _ _ Hr Hm _.
    assert (r ∈ filter (λ r, row_mask gab_stim c r = true) (stim_df gab_stim)) as Hin.
    { by apply list_elem_of_filter. }
    vm_compute in Ec. injection Ec as <-. vm_compute in Hin. inversion Hin.
  - apply (proj2 empty_query_raises_unless_empty_ok pos_idx_ex gab_stim gab_par 4 None
             (Vals [2]) true true (range 4) "No segments fit these criteria.");
      [lia | reflexivity | vm_compute; reflexivity].
Defined.

(** C10. A call that returns gives one list and one count per retained
    quintile ([n_quints] of them for ['all']); with [empty_ok], a call whose
    criteria match no segment returns, every list is empty and every count is
    zero. *)
Theorem quint_segs_one_entry_per_quintile :
  (∀ pos_idx st stimpar n qu_idx surp empty_ok remconsec by_surp_len qs qc nc,
     quint_segs pos_idx st stimpar n qu_idx surp empty_ok remconsec by_surp_len
       = Ok (qs, qc, nc) →
     ∃ retained, retained_quints pos_idx n qu_idx = Ok retained
       ∧ length qs = length retained ∧ length qc = length retained
       ∧ (qu_idx = None → length qs = Z.to_nat n ∧ length qc = Z.to_nat n))
  ∧ (∀ pos_idx st stimpar n qu_idx surp remconsec by_surp_len retained msg,
     n ≠ 0 →
     retained_quints pos_idx n qu_idx = Ok retained →
     get_segs_by_criteria st (crit_seg_args stimpar surp remconsec)
       = Raise (ValueError msg) →
     ∃ qs qc nc,
       quint_segs pos_idx st stimpar n qu_idx surp true remconsec by_surp_len
         = Ok (qs, qc, nc)
       ∧ length qs = length retained ∧ length qc = length retained
       ∧ Forall (λ segs, segs = []) qs ∧ Forall (λ c, c = 0%nat) qc).
Proof.
  split.
  - intros pos_idx st stimpar n qu_idx surp empty_ok remconsec by_surp_len qs qc nc H.
    apply quint_segs_inv in H
      as (retained & all_segs & segs & qu_len & Hret & _ & _ & _ & -> & -> & _).
    exists retained. split; [done|]. rewrite !length_map.
    split; [done|]. split; [done|]. intros ->. simpl in Hret. injection Hret as <-.
    unfold range. by rewrite length_map, length_seq.
  - intros pos_idx st stimpar n qu_idx surp remconsec by_surp_len retained msg Hn Hret Hq.
    eexists _, _, _. split; [by eapply quint_segs_empty|].
    rewrite !length_map. split; [done|]. split; [done|].
    split; apply Forall_forall; intros x Hx; apply list_elem_of_fmap in Hx; naive_solver.
Qed.

Lemma quint_segs_one_entry_per_quintile_witness :
  (∃ retained, retained_quints pos_idx_ex 4 None = Ok retained
     ∧ length [[9; 19]; [29; 39; 49]; [59; 69]; [79; 89; 99]] = length retained
     ∧ length [2; 3; 2; 3]%nat = length retained
     ∧ (@None (list Z) = None → length [[9; 19]; [29; 39; 49]; [59; 69]; [79; 89; 99]] = Z.to_nat 4
                      ∧ length [2; 3; 2; 3]%nat = Z.to_nat 4))
  ∧ (∃ qs qc nc,
       quint_segs pos_idx_ex gab_stim gab_par 4 (Some [0; -1]) (Vals [2]) true false true
         = Ok (qs, qc, nc)
       ∧ length qs = 2%nat ∧ length qc = 2%nat
       ∧ Forall (λ segs, segs = []) qs ∧ Forall (λ c, c = 0%nat) qc).
Proof.
  split.
  - apply (proj1 quint_segs_one_entry_per_quintile pos_idx_ex gab_stim gab_par 4 None
             (Vals [1]) false false false _ _ None). vm_compute. reflexivity.
  - apply (proj2 quint_segs_one_entry_per_quintile pos_idx_ex gab_stim gab_par 4
             (Some [0; -1]) (Vals [2]) false true [0; 3]
             "No segments fit these criteria.");
      [lia | reflexivity | vm_compute; reflexivity].
Defined.

(** *** The quintiles partition the segments that fit the criteria *)

Lemma isin_all {A} `{EqDecision A} {R} (col : R → A) (df : list R) (r : R) :
  r ∈ df → isin (col r) (remove_dups (map col df)) = true.
Proof.
  intros Hr. apply bool_decide_eq_true. apply elem_of_remove_dups.
  apply list_elem_of_fmap. eauto.
Qed.

(** The criteria of the first query of [quint_segs] are weaker than those of
    the second: every row that fits the criteria is among the rows the
    extent is computed from. *)
Lemma format_all_of_crit st stimpar surp remconsec c :
  stimtype st = "gabors"%string ∨ stimtype st = "bricks"%string →
  _format_stim_criteria st (crit_seg_args stimpar surp remconsec) = Ok c →
  ∃ c_all, _format_stim_criteria st (all_seg_args stimpar) = Ok c_all
    ∧ ∀ r, r ∈ stim_df st → row_mask st c r = true → row_mask st c_all r = true.
Proof.
  intros Hst. unfold _format_stim_criteria, resolve_ran. cbn [crit_seg_args all_seg_args
    a_start2pfr a_end2pfr a_num2pfr a_gabk a_gab_ori a_bri_size a_bri_dir a_gabfr
    a_stimPar1 a_stimPar2 a_surp a_stimSeg].
  destruct (col_min (stim_df st) start2pfr) as [s_min|]; [|done].
  destruct (col_max1 (stim_df st) start2pfr) as [s_max|]; [|done].
  destruct (col_min (stim_df st) end2pfr) as [e_min|]; [|done].
  destruct (col_max1 (stim_df st) end2pfr) as [e_max|]; [|done].
  destruct (col_min (stim_df st) num2pfr) as [n_min|]; [|done].
  destruct (col_max1 (stim_df st) num2pfr) as [n_max|]; [|done].
  cbn [mbind result_bind].
  destruct Hst as [-> | ->]; cbn [String.eqb Ascii.eqb Bool.eqb negb andb resolve_par app length];
    intros [= <-]; (eexists; split; [reflexivity|]);
    intros r Hr; unfold row_mask; cbn [c_stimPar1 c_stimPar2 c_surp c_stimSeg c_gabfr
      c_start2pfr_min c_start2pfr_max c_end2pfr_min c_end2pfr_max c_num2pfr_min
      c_num2pfr_max];
    rewrite !andb_true_iff; intros Hm; decompose [and] Hm; clear Hm;
    repeat split; try assumption;
    try (destruct (decide _); [done|]);
    by apply isin_all.
Qed.

Lemma concat_filter_nonempty {A} (l : list (list A)) :
  concat (filter (λ y, nonempty y = true) l) = concat l.
Proof.
  induction l as [|x t IH]; [done|]. rewrite filter_cons.
  destruct x as [|a x]; simpl; [done|]. by rewrite IH.
Qed.

Lemma elem_of_concat {A} (x : A) (ls : list (list A)) :
  x ∈ concat ls ↔ ∃ l, x ∈ l ∧ l ∈ ls.
Proof.
  induction ls as [|l0 t IH]; simpl.
  - split; [by intros H%elem_of_nil | by intros (l & _ & H%elem_of_nil)].
  - rewrite elem_of_app, IH. split.
    + intros [H | (l & Hx & Hl)].
      * exists l0. split; [done | apply list_elem_of_here].
      * exists l. split; [done | by apply list_elem_of_further].
    + intros (l & Hx & Hl). apply elem_of_cons in Hl as [-> | Hl]; [by left|].
      right. eauto.
Qed.

Lemma elem_of_remconsec_from (prev : Z) (l : list Z) (x : Z) :
  x ∈ remconsec_from prev l → x ∈ l.
Proof.
  revert prev. induction l as [|v t IH]; intros prev; simpl; [done|].
  rewrite elem_of_app. intros [H | H].
  - destruct (v =? prev + 1); [by apply elem_of_nil in H|].
    apply list_elem_of_singleton in H as ->. apply list_elem_of_here.
  - apply list_elem_of_further. by eapply IH.
Qed.

Lemma elem_of_remconsec (l : list Z) (x : Z) : x ∈ remconsec l → x ∈ l.
Proof.
  destruct l as [|v t]; simpl; [done|]. rewrite elem_of_cons. intros [-> | H].
  - apply list_elem_of_here.
  - apply list_elem_of_further. by eapply elem_of_remconsec_from.
Qed.

Lemma elem_of_nested_segs st c rc (x : Z) :
  x ∈ concat (concat (nested_segs st c rc)) ↔
    ∃ blk j, blk ∈ block_ran_seg st ∧ j ∈ blk ∧ x ∈ block_segs st c rc j.
Proof.
  unfold nested_segs. rewrite concat_filter_nonempty. split.
  - intros H. apply elem_of_concat in H as (l & Hx & Hl).
    apply elem_of_concat in Hl as (ll & Hl & Hll).
    apply list_elem_of_fmap in Hll as (blk & -> & Hblk).
    apply list_elem_of_filter in Hl as [_ Hl].
    apply list_elem_of_fmap in Hl as (j & -> & Hj). eauto.
  - intros (blk & j & Hblk & Hj & Hx).
    apply elem_of_concat. exists (block_segs st c rc j). split; [done|].
    apply elem_of_concat.
    exists (filter (λ idxs, nonempty idxs = true) (map (block_segs st c rc) blk)).
    split.
    + apply list_elem_of_filter. split.
      * destruct (block_segs st c rc j); [by apply elem_of_nil in Hx | done].
      * apply list_elem_of_fmap. eauto.
    + apply (list_elem_of_fmap_2 (λ i, filter _ (map (block_segs st c rc) i))). done.
Qed.

Lemma nested_segs_nil st c rc :
  nested_segs st c rc = [] ↔ concat (concat (nested_segs st c rc)) = [].
Proof.
  split; [by intros ->|]. unfold nested_segs.
  induction (block_ran_seg st) as [|blk t IH]; [done|].
  rewrite fmap_cons, filter_cons.
  destruct (filter _ (map (block_segs st c rc) blk)) as [|idxs l] eqn:E; simpl; [done|].
  assert (idxs ∈ filter (λ idxs, nonempty idxs = true) (map (block_segs st c rc) blk)) as Hin.
  { rewrite E. apply list_elem_of_here. }
  apply list_elem_of_filter in Hin as [Hne _]. by destruct idxs.
Qed.

(** How [get_segs_by_criteria] answers a [by='seg'] query. *)
Lemma get_segs_by_seg st a c :
  a_by a = "seg"%string →
  _format_stim_criteria st a = Ok c →
  get_segs_by_criteria st a =
    if decide (nested_segs st c (a_remconsec a) = [])
    then Raise (ValueError "No segments fit these criteria.")
    else Ok (BySeg (concat (concat (nested_segs st c (a_remconsec a))))).
Proof.
  intros Hby Hc. unfold get_segs_by_criteria. rewrite Hc, Hby. simpl.
  destruct (nested_segs st c (a_remconsec a)); by simpl.
Qed.

Lemma block_segs_weaken st c c_all rc j (x : Z) :
  (∀ r, r ∈ stim_df st → row_mask st c r = true → row_mask st c_all r = true) →
  x ∈ block_segs st c rc j → x ∈ block_segs st c_all false j.
Proof.
  intros Hw. unfold block_segs. intros Hx.
  assert (x ∈ map stimSeg (filter (λ r, row_mask st c r && (j.1 <=? stimSeg r)
                                        && (stimSeg r <? j.2) = true) (stim_df st))) as H.
  { destruct rc; [by apply elem_of_remconsec | done]. }
  apply list_elem_of_fmap in H as (r & -> & Hr).
  apply list_elem_of_filter in Hr as [Hm Hr].
  apply list_elem_of_fmap. exists r. split; [done|].
  apply list_elem_of_filter. split; [|done].
  rewrite !andb_true_iff in *. destruct Hm as [[Hm H1] H2]. auto.
Qed.

(** When the criteria match some segment, the first query of [quint_segs]
    returns too, and its segments include all those that fit the criteria. *)
Lemma crit_segs_subset st stimpar surp remconsec segs :
  stimtype st = "gabors"%string ∨ stimtype st = "bricks"%string →
  get_segs_by_criteria st (crit_seg_args stimpar surp remconsec) = Ok (BySeg segs) →
  segs ≠ [] ∧
  ∃ all_segs, get_segs_by_criteria st (all_seg_args stimpar) = Ok (BySeg all_segs)
    ∧ ∀ x, x ∈ segs → x ∈ all_segs.
Proof.
  intros Hst Hq.
  destruct (_format_stim_criteria st (crit_seg_args stimpar surp remconsec))
    as [c|] eqn:Ec; [|by unfold get_segs_by_criteria in Hq; rewrite Ec in Hq].
  destruct (format_all_of_crit _ _ _ _ _ Hst Ec) as (c_all & Ec_all & Hw).
  rewrite (get_segs_by_seg st (crit_seg_args stimpar surp remconsec) c eq_refl Ec) in Hq.
  rewrite (get_segs_by_seg st (all_seg_args stimpar) c_all eq_refl Ec_all).
  cbn [crit_seg_args all_seg_args a_remconsec] in *.
  destruct (decide (nested_segs st c remconsec = [])) as [|Hne]; [done|].
  injection Hq as <-.
  assert (∀ x, x ∈ concat (concat (nested_segs st c remconsec)) →
               x ∈ concat (concat (nested_segs st c_all false))) as Hsub.
  { intros x Hx. apply elem_of_nested_segs in Hx as (blk & j & Hblk & Hj & Hx).
    apply elem_of_nested_segs. exists blk, j. split; [done|]. split; [done|].
    by eapply block_segs_weaken. }
  split; [by rewrite <- nested_segs_nil|].
  destruct (decide (nested_segs st c_all false = [])) as [Hnil|_].
  - exfalso. apply Hne. apply nested_segs_nil.
    destruct (concat (concat (nested_segs st c remconsec))) as [|x l] eqn:E; [done|].
    apply nested_segs_nil in Hnil.
    specialize (Hsub x (list_elem_of_here _ _)). rewrite Hnil in Hsub.
    by apply elem_of_nil in Hsub.
  - eauto.
Qed.

Lemma fold_min_max_bounds (x : Z) (t : list Z) (s : Z) :
  s ∈ x :: t → fold_left Z.min t x ≤ s ≤ fold_left Z.max t x.
Proof.
  revert x. induction t as [|y t IH]; intros x; simpl.
  - intros H. apply list_elem_of_singleton in H. lia.
  - assert (Hmin : ∀ l a, fold_left Z.min l a ≤ a).
    { induction l as [|b l IHl]; intros a; simpl; [lia|]. specialize (IHl (Z.min a b)). lia. }
    assert (Hmax : ∀ l a, a ≤ fold_left Z.max l a).
    { induction l as [|b l IHl]; intros a; simpl; [lia|]. specialize (IHl (Z.max a b)). lia. }
    rewrite elem_of_cons. intros [-> | H].
    + specialize (Hmin t (Z.min x y)). specialize (Hmax t (Z.max x y)). lia.
    + apply elem_of_cons in H as [-> | H].
      * specialize (Hmin t (Z.min x y)). specialize (Hmax t (Z.max x y)). lia.
      * pose proof (IH (Z.min x y) (list_elem_of_further _ _ _ H)) as [Hlo _].
        pose proof (IH (Z.max x y) (list_elem_of_further _ _ _ H)) as [_ Hhi].
        done.
Qed.

(** With four quintiles the bin test is a comparison of integers: segment
    [seg] is in quintile [q] iff [q * d <= 4 * (seg - seg_min) < (q + 1) * d],
    for the extent [d = seg_max - seg_min]. *)
Lemma in_quint_4 (d seg_min q seg : Z) :
  in_quint (Fin (inject_Z d / inject_Z 4)) seg_min q seg = true ↔
    q * d ≤ 4 * (seg - seg_min) ∧ 4 * (seg - seg_min) < (q + 1) * d.
Proof.
  rewrite in_quint_Fin. unfold Qle, Qlt. simpl. lia.
Qed.

Lemma seg_extent_bounds (all_segs : list Z) (seg : Z) :
  seg ∈ all_segs → fst (seg_extent all_segs) ≤ seg < snd (seg_extent all_segs).
Proof.
  destruct all_segs as [|x t]; [by intros H%elem_of_nil|].
  intros H%fold_min_max_bounds. simpl. lia.
Qed.

(** Four filters of which each element passes exactly one split the list. *)
Lemma filter4_partition {A} (p : Z → A → bool) (l : list A) :
  (∀ x, x ∈ l → ∃ q, 0 ≤ q < 4 ∧ ∀ q', 0 ≤ q' < 4 → (p q' x = true ↔ q' = q)) →
  filter (λ x, p 0 x = true) l ++ filter (λ x, p 1 x = true) l
    ++ filter (λ x, p 2 x = true) l ++ filter (λ x, p 3 x = true) l ≡ₚ l.
Proof.
  induction l as [|x t IH]; intros H; [done|].
  assert (IH' := IH (λ y Hy, H y (list_elem_of_further _ _ _ Hy))).
  destruct (H x (list_elem_of_here _ _)) as (q & Hq & Hone).
  assert (∀ q', 0 ≤ q' < 4 → q' ≠ q → ¬ (p q' x = true)) as Hoff.
  { intros q' Hq' Hne Hp. apply Hne. by apply Hone. }
  assert (p q x = true) as Hon by (by apply Hone).
  assert (q = 0 ∨ q = 1 ∨ q = 2 ∨ q = 3) as [-> | [-> | [-> | ->]]] by lia.
  - rewrite (filter_cons_True _ x t Hon).
    rewrite !(filter_cons_False _ x t) by (apply Hoff; lia).
    simpl. by constructor.
  - rewrite (filter_cons_True _ x t Hon).
    rewrite !(filter_cons_False _ x t) by (apply Hoff; lia).
    rewrite <- !app_comm_cons, <- Permutation_middle. by constructor.
  - rewrite (filter_cons_True _ x t Hon).
    rewrite !(filter_cons_False _ x t) by (apply Hoff; lia).
    rewrite <- !app_comm_cons, (app_assoc (filter _ t)), <- Permutation_middle, <- app_assoc.
    by constructor.
  - rewrite (filter_cons_True _ x t Hon).
    rewrite !(filter_cons_False _ x t) by (apply Hoff; lia).
    rewrite !app_assoc, <- Permutation_middle, <- !app_assoc.
    by constructor.
Qed.

(** C2. For a gabor or brick stimulus whose criteria match some segment,
    splitting into four quintiles with all quintiles retained returns four
    lists that are pairwise disjoint and whose union is the set of segments
    that fit the criteria: every such segment, the largest included, is in
    exactly one quintile. *)
Theorem quint_segs_partition :
  ∀ pos_idx st stimpar surp empty_ok remconsec segs,
    stimtype st = "gabors"%string ∨ stimtype st = "bricks"%string →
    get_segs_by_criteria st (crit_seg_args stimpar surp remconsec) = Ok (BySeg segs) →
    ∃ q0 q1 q2 q3,
      quint_segs pos_idx st stimpar 4 None surp empty_ok remconsec false
        = Ok ([q0; q1; q2; q3], [length q0; length q1; length q2; length q3], None)
      ∧ segs ≠ []
      ∧ (∀ seg, seg ∈ segs ↔ seg ∈ q0 ∨ seg ∈ q1 ∨ seg ∈ q2 ∨ seg ∈ q3)
      ∧ (∀ i j qi qj seg, [q0; q1; q2; q3] !! i = Some qi → [q0; q1; q2; q3] !! j = Some qj →
           seg ∈ qi → seg ∈ qj → i = j)
      ∧ q0 ++ q1 ++ q2 ++ q3 ≡ₚ segs.
Proof.
  intros pos_idx st stimpar surp empty_ok remconsec segs Hst Hq.
  destruct (crit_segs_subset _ _ _ _ _ Hst Hq) as (Hne & all_segs & Hall & Hsub).
  assert (query_segs st (all_seg_args stimpar) empty_ok = Ok all_segs) as Hq1.
  { unfold query_segs. by rewrite Hall. }
  assert (query_segs st (crit_seg_args stimpar surp remconsec) empty_ok = Ok segs) as Hq2.
  { unfold query_segs. by rewrite Hq. }
  pose proof (quint_segs_ok pos_idx st stimpar 4 None surp empty_ok remconsec
                (range 4) all_segs segs ltac:(lia) eq_refl Hq1 Hq2) as Hok.
  cbv zeta in Hok. set (seg_min := fst (seg_extent all_segs)) in *.
  set (d := snd (seg_extent all_segs) - seg_min) in *.
  set (p := λ q seg, in_quint (Fin (inject_Z d / inject_Z 4)) seg_min q seg) in *.
  assert (Hin : ∀ seg, seg ∈ segs → 0 ≤ 4 * (seg - seg_min) < 4 * d).
  { intros seg Hseg. apply Hsub, seg_extent_bounds in Hseg. subst d seg_min. lia. }
  assert (Hp : ∀ q seg, p q seg = true ↔
                 q * d ≤ 4 * (seg - seg_min) ∧ 4 * (seg - seg_min) < (q + 1) * d).
  { intros q seg. apply in_quint_4. }
  exists (filter (λ seg, p 0 seg = true) segs), (filter (λ seg, p 1 seg = true) segs),
         (filter (λ seg, p 2 seg = true) segs), (filter (λ seg, p 3 seg = true) segs).
  split; [exact Hok|]. split; [done|]. split; [|split].
  - intros seg. rewrite !list_elem_of_filter, !Hp. split; [|tauto].
    intros Hseg. specialize (Hin seg Hseg).
    assert (4 * (seg - seg_min) < d ∨ d ≤ 4 * (seg - seg_min) < 2 * d
            ∨ 2 * d ≤ 4 * (seg - seg_min) < 3 * d ∨ 3 * d ≤ 4 * (seg - seg_min))
      as [H | [H | [H | H]]] by lia;
      [left | right; left | right; right; left | right; right; right];
      (split; [lia | done]).
  - intros i j qi qj seg Hi Hj Hsi Hsj.
    destruct i as [|[|[|[|i]]]]; simpl in Hi; simplify_eq;
      destruct j as [|[|[|[|j]]]]; simpl in Hj; simplify_eq; try done;
      apply list_elem_of_filter in Hsi as [Hsi _];
      apply list_elem_of_filter in Hsj as [Hsj _];
      rewrite Hp in Hsi, Hsj; lia.
  - apply (filter4_partition p). intros seg Hseg. specialize (Hin seg Hseg).
    assert (4 * (seg - seg_min) < d ∨ d ≤ 4 * (seg - seg_min) < 2 * d
            ∨ 2 * d ≤ 4 * (seg - seg_min) < 3 * d ∨ 3 * d ≤ 4 * (seg - seg_min))
      as [H | [H | [H | H]]] by lia.
    + exists 0. split; [lia|]. intros q' Hq'. rewrite Hp.
      assert (q' = 0 ∨ q' = 1 ∨ q' = 2 ∨ q' = 3) as [-> | [-> | [-> | ->]]] by lia; lia.
    + exists 1. split; [lia|]. intros q' Hq'. rewrite Hp.
      assert (q' = 0 ∨ q' = 1 ∨ q' = 2 ∨ q' = 3) as [-> | [-> | [-> | ->]]] by lia; lia.
    + exists 2. split; [lia|]. intros q' Hq'. rewrite Hp.
      assert (q' = 0 ∨ q' = 1 ∨ q' = 2 ∨ q' = 3) as [-> | [-> | [-> | ->]]] by lia; lia.
    + exists 3. split; [lia|]. intros q' Hq'. rewrite Hp.
      assert (q' = 0 ∨ q' = 1 ∨ q' = 2 ∨ q' = 3) as [-> | [-> | [-> | ->]]] by lia; lia.
Qed.

Lemma quint_segs_partition_witness :
  ∃ q0 q1 q2 q3,
    quint_segs pos_idx_ex gab_stim gab_par 4 None (Vals [1]) false false false
      = Ok ([q0; q1; q2; q3], [length q0; length q1; length q2; length q3], None)
    ∧ [9; 19; 29; 39; 49; 59; 69; 79; 89; 99] ≠ []
    ∧ (∀ seg, seg ∈ [9; 19; 29; 39; 49; 59; 69; 79; 89; 99]
          ↔ seg ∈ q0 ∨ seg ∈ q1 ∨ seg ∈ q2 ∨ seg ∈ q3)
    ∧ (∀ i j qi qj seg, [q0; q1; q2; q3] !! i = Some qi → [q0; q1; q2; q3] !! j = Some qj →
         seg ∈ qi → seg ∈ qj → i = j)
    ∧ q0 ++ q1 ++ q2 ++ q3 ≡ₚ [9; 19; 29; 39; 49; 59; 69; 79; 89; 99].
Proof.
  apply (quint_segs_partition pos_idx_ex gab_stim gab_par (Vals [1]) false false);
    [by left | vm_compute; reflexivity].
Defined.

End QuintSegs.

(** ** Sampling from consecutive runs ([samp_quint_segs]) *)

Section SampQuintSegs.
Import GenUtil Stim QuintAnalys Design.





Section Sampling.
Variable rand_pos : list Z → nat.





End Sampling.





End SampQuintSegs.

(** ** Segment queries ([get_segs_by_criteria] and its callers) *)

Section SegQueries.
Import GenUtil Stim QuintAnalys StimQueries Design.

Lemma format_criteria_inv st a c :
  _format_stim_criteria st a = Ok c →
  c_stimSeg c = remove_if (get_df_label_vals (stim_df st) stimSeg (a_stimSeg a)) (-1)
  ∧ c_surp c = get_df_label_vals (stim_df st) surp (a_surp a)
  ∧ resolve_ran (stim_df st) start2pfr (a_start2pfr a) (a_start2pfr a)
      "`start2pfr` must be of length 2 if passed." = Ok (c_start2pfr_min c, c_start2pfr_max c)
  ∧ resolve_ran (stim_df st) end2pfr (a_end2pfr a) (a_start2pfr a)
      "`end2pfr` must be of length 2 if passed." = Ok (c_end2pfr_min c, c_end2pfr_max c)
  ∧ resolve_ran (stim_df st) num2pfr (a_num2pfr a) (a_start2pfr a)
      "`num2pfr` must be of length 2 if passed." = Ok (c_num2pfr_min c, c_num2pfr_max c).
Proof.
  unfold _format_stim_criteria.
  destruct (resolve_ran _ start2pfr _ _ _) as [[s1 s2]|] eqn:E1; [|done].
  destruct (resolve_ran _ end2pfr _ _ _) as [[e1 e2]|] eqn:E2; [|done].
  destruct (resolve_ran _ num2pfr _ _ _) as [[n1 n2]|] eqn:E3; [|done].
  cbn. intros [= <-]. cbn. done.
Qed.

Lemma row_mask_inv st c r :
  row_mask st c r = true →
  stimType r = first_char (stimtype st)
  ∧ surp r ∈ c_surp c ∧ stimSeg r ∈ c_stimSeg c.
Proof.
  unfold row_mask, isin. rewrite !andb_true_iff, !bool_decide_eq_true, String.eqb_eq.
  naive_solver.
Qed.

Lemma flat_segs_get st a c o :
  _format_stim_criteria st a = Ok c →
  get_segs_by_criteria st a = Ok o →
  flat_segs o = concat (concat (nested_segs st c (a_remconsec a)))
  ∧ nested_segs st c (a_remconsec a) ≠ [].
Proof.
  intros Hc. unfold get_segs_by_criteria. rewrite Hc. cbn.
  destruct (decide _) as [Hl|Hl]; [done|].
  assert (nested_segs st c (a_remconsec a) ≠ []) by (by intros E; rewrite E in Hl).
  repeat (destruct (String.eqb _ _); [by intros [= <-]|]). done.
Qed.

Lemma elem_of_block_segs st c rc j (x : Z) :
  x ∈ block_segs st c rc j →
  ∃ r, r ∈ stim_df st ∧ row_mask st c r = true ∧ stimSeg r = x ∧ fst j ≤ x < snd j.
Proof.
  unfold block_segs. intros Hx.
  assert (x ∈ map stimSeg
            (filter (λ r, (row_mask st c r && (fst j <=? stimSeg r) && (stimSeg r <? snd j)) = true)
               (stim_df st))) as Hin.
  { destruct rc; [by apply elem_of_remconsec|done]. }
  apply list_elem_of_fmap in Hin as (r & -> & Hr).
  apply list_elem_of_filter in Hr as [Hm Hr].
  rewrite !andb_true_iff in Hm. destruct Hm as [[Hm H1] H2].
  exists r. repeat split; [done..| lia | lia].
Qed.

Lemma get_segs_by_criteria_rows st a o (x : Z) :
  get_segs_by_criteria st a = Ok o → x ∈ flat_segs o →
  ∃ c r, _format_stim_criteria st a = Ok c
    ∧ r ∈ stim_df st ∧ row_mask st c r = true ∧ stimSeg r = x
    ∧ ∃ blk j, blk ∈ block_ran_seg st ∧ j ∈ blk ∧ fst j ≤ x < snd j.
Proof.
  intros Hget Hx.
  destruct (_format_stim_criteria st a) as [c|e] eqn:Hc;
    [|by unfold get_segs_by_criteria in Hget; rewrite Hc in Hget].
  destruct (flat_segs_get _ _ _ _ Hc Hget) as [E _]. rewrite E in Hx. clear E.
  apply elem_of_nested_segs in Hx as (blk & j & Hblk & Hj & Hx).
  apply elem_of_block_segs in Hx as (r & Hr & Hm & <- & Hran).
  exists c, r. eauto 10.
Qed.

(** X1.  Soundness of the segment query: every segment number
    [get_segs_by_criteria] returns, for any grouping and with or without the
    removal of consecutive values, is the segment of a row that
    [get_stim_df_by_criteria] returns for the same criteria, belongs to the
    stimulus type, lies inside one of the blocks of [block_ran_seg], and is
    never the grayscreen number -1; if surprise values were passed the row
    carries one of them. *)
Theorem get_segs_by_criteria_sound st a o (x : Z) :
  get_segs_by_criteria st a = Ok o → x ∈ flat_segs o →
  x ≠ -1
  ∧ ∃ rows r, get_stim_df_by_criteria st a = Ok rows
      ∧ r ∈ rows ∧ stimSeg r = x
      ∧ stimType r = first_char (stimtype st)
      ∧ (∀ l, a_surp a = Vals l → surp r ∈ l)
      ∧ ∃ blk j, blk ∈ block_ran_seg st ∧ j ∈ blk ∧ fst j ≤ x < snd j.
Proof.
  intros Hget Hx.
  destruct (get_segs_by_criteria_rows _ _ _ _ Hget Hx)
    as (c & r & Hc & Hr & Hm & <- & blk & j & Hblk & Hj & Hran).
  destruct (row_mask_inv _ _ _ Hm) as (Hty & Hsurp & Hseg).
  destruct (format_criteria_inv _ _ _ Hc) as (Eseg & Esurp & _).
  split.
  - rewrite Eseg in Hseg. unfold remove_if in Hseg.
    apply list_elem_of_filter in Hseg as [? _]. done.
  - exists (filter (λ r, row_mask st c r = true) (stim_df st)), r.
    unfold get_stim_df_by_criteria. rewrite Hc. cbn.
    split; [done|]. split; [by apply list_elem_of_filter|].
    split; [done|]. split; [done|]. split.
    + intros l Hl. rewrite Esurp, Hl in Hsurp. done.
    + eauto.
Qed.

Lemma get_segs_by_criteria_sound_witness :
  27 ≠ -1
  ∧ ∃ rows r, get_stim_df_by_criteria gab_stim (surp_args 0 false "seg") = Ok rows
      ∧ r ∈ rows ∧ stimSeg r = 27
      ∧ stimType r = first_char (stimtype gab_stim)
      ∧ (∀ l, a_surp (surp_args 0 false "seg") = Vals l → surp r ∈ l)
      ∧ ∃ blk j, blk ∈ block_ran_seg gab_stim ∧ j ∈ blk ∧ fst j ≤ 27 < snd j.
Proof.
  eapply (get_segs_by_criteria_sound gab_stim (surp_args 0 false "seg") _ 27).
  - vm_compute. reflexivity.
  - cbn [flat_segs]. apply list_elem_of_In. vm_compute. tauto.
Defined.


Lemma block_segs_first st c j r :
  r ∈ stim_df st → row_mask st c r = true → fst j ≤ stimSeg r < snd j →
  stimSeg r ∈ block_segs st c false j ∧ ∀ rc, block_segs st c rc j ≠ [].
Proof.
  intros Hr Hm Hran.
  assert (stimSeg r ∈ block_segs st c false j) as Hin.
  { unfold block_segs. apply list_elem_of_fmap. exists r. split; [done|].
    apply list_elem_of_filter. split; [|done].
    rewrite Hm. cbn. apply andb_true_iff. split; [apply Z.leb_le|apply Z.ltb_lt]; lia. }
  split; [done|]. intros rc. unfold block_segs in *.
  destruct (map stimSeg _) as [|v t]; [by apply elem_of_nil in Hin|].
  by destruct rc.
Qed.

Lemma nested_segs_nonempty st c rc blk j :
  blk ∈ block_ran_seg st → j ∈ blk → block_segs st c rc j ≠ [] →
  nested_segs st c rc ≠ [].
Proof.
  intros Hblk Hj Hne Hnil.
  destruct (block_segs st c rc j) as [|x l] eqn:E; [done|].
  assert (x ∈ concat (concat (nested_segs st c rc))) as Hx.
  { apply elem_of_nested_segs. exists blk, j. rewrite E. split_and!; [done..|left]. }
  rewrite Hnil in Hx. by apply elem_of_nil in Hx.
Qed.

(** X2.  Completeness of the segment query: when a row that
    [get_stim_df_by_criteria] returns has its segment inside a block, the
    query with the same criteria does not raise, for any of the three
    groupings, and, unless consecutive values are removed, returns that
    segment. *)
Theorem get_segs_by_criteria_complete st a rows r blk j :
  get_stim_df_by_criteria st a = Ok rows → r ∈ rows →
  blk ∈ block_ran_seg st → j ∈ blk → fst j ≤ stimSeg r < snd j →
  a_by a = "block"%string ∨ a_by a = "seg"%string ∨ a_by a = "disp"%string →
  ∃ o, get_segs_by_criteria st a = Ok o
    ∧ (a_remconsec a = false → stimSeg r ∈ flat_segs o).
Proof.
  unfold get_stim_df_by_criteria, get_segs_by_criteria.
  destruct (_format_stim_criteria st a) as [c|e]; [|done]. cbn.
  intros [= <-] Hr Hblk Hj Hran Hby.
  apply list_elem_of_filter in Hr as [Hm Hr].
  destruct (block_segs_first st c j r Hr Hm Hran) as [Hin Hne].
  pose proof (nested_segs_nonempty st c (a_remconsec a) blk j Hblk Hj (Hne _)) as Hnn.
  destruct (decide _) as [Hl|_]; [by destruct (nested_segs st c (a_remconsec a))|].
  assert (a_remconsec a = false → stimSeg r ∈ concat (concat (nested_segs st c (a_remconsec a))))
    as Hflat.
  { intros ->. apply elem_of_nested_segs. eauto. }
  destruct Hby as [-> | [-> | ->]]; cbn; eauto.
Qed.

Lemma get_segs_by_criteria_complete_witness :
  ∃ o, get_segs_by_criteria gab_stim (surp_args 1 false "disp") = Ok o
    ∧ (a_remconsec (surp_args 1 false "disp") = false → stimSeg (gab_row 69) ∈ flat_segs o).
Proof.
  eapply (get_segs_by_criteria_complete gab_stim (surp_args 1 false "disp") _
            (gab_row 69) [(60, 100)] (60, 100)).
  - vm_compute. reflexivity.
  - apply list_elem_of_In. vm_compute. tauto.
  - apply list_elem_of_In. vm_compute. tauto.
  - apply list_elem_of_In. vm_compute. tauto.
  - cbn. lia.
  - right. right. reflexivity.
Defined.

Lemma format_with_by st a by_val :
  _format_stim_criteria st (with_by a by_val) = _format_stim_criteria st a.
Proof. reflexivity. Qed.

Lemma nested_segs_no_empty st c rc :
  Forall (λ d, d ≠ [] ∧ Forall (λ b : list Z, b ≠ []) d) (nested_segs st c rc).
Proof.
  unfold nested_segs. apply Forall_forall. intros d Hd.
  apply list_elem_of_filter in Hd as [Hne Hd]. split; [by destruct d|].
  apply list_elem_of_fmap in Hd as (i & -> & _).
  apply Forall_forall. intros b Hb. apply list_elem_of_filter in Hb as [Hb _].
  by destruct b.
Qed.

(** X3.  The keyword [by] only regroups the result of
    [get_segs_by_criteria]: when the query grouped by display sequence
    returns, no display sequence and no block of the result is empty, the
    query grouped by block returns the same blocks with the display level
    flattened, and the flat query returns their concatenation.  If the query
    raises for one of the three values of [by], it raises the same exception
    for the other two. *)
Theorem get_segs_by_criteria_regroup st a :
  (∀ o, get_segs_by_criteria st (with_by a "disp") = Ok o →
     ∃ segs, o = ByDisp segs
       ∧ segs ≠ []
       ∧ Forall (λ d, d ≠ [] ∧ Forall (λ b : list Z, b ≠ []) d) segs
       ∧ get_segs_by_criteria st (with_by a "block") = Ok (ByBlock (concat segs))
       ∧ get_segs_by_criteria st (with_by a "seg") = Ok (BySeg (concat (concat segs))))
  ∧ (∀ e b1 b2, b1 ∈ ["disp"; "block"; "seg"]%string → b2 ∈ ["disp"; "block"; "seg"]%string →
       get_segs_by_criteria st (with_by a b1) = Raise e →
       get_segs_by_criteria st (with_by a b2) = Raise e).
Proof.
  split.
  - intros o. unfold get_segs_by_criteria. rewrite !format_with_by.
    destruct (_format_stim_criteria st a) as [c|e]; [|done]. cbn.
    destruct (decide _) as [Hl|Hl]; [done|]. intros [= <-].
    eexists. split; [done|]. split; [by intros E; rewrite E in Hl|].
    split; [apply nested_segs_no_empty|]. done.
  - intros e b1 b2 H1 H2.
    repeat (apply elem_of_cons in H1 as [->|H1]); [..|by apply elem_of_nil in H1];
      (repeat (apply elem_of_cons in H2 as [->|H2]); [..|by apply elem_of_nil in H2]);
      unfold get_segs_by_criteria; rewrite !format_with_by;
      (destruct (_format_stim_criteria st a) as [c|e0]; [|done]); cbn;
      by destruct (decide _).
Qed.

Lemma get_segs_by_criteria_regroup_witness :
  (∃ segs, ByDisp [[[9; 19; 29; 39; 49; 59]]; [[69; 79; 89; 99]]] = ByDisp segs
     ∧ segs ≠ []
     ∧ Forall (λ d, d ≠ [] ∧ Forall (λ b : list Z, b ≠ []) d) segs
     ∧ get_segs_by_criteria gab_stim (with_by (surp_args 1 false "disp") "block")
       = Ok (ByBlock (concat segs))
     ∧ get_segs_by_criteria gab_stim (with_by (surp_args 1 false "disp") "seg")
       = Ok (BySeg (concat (concat segs))))
  ∧ get_segs_by_criteria gab_stim (with_by (surp_args 5 false "disp") "seg")
    = Raise (ValueError "No segments fit these criteria.").
Proof.
  split.
  - apply (proj1 (get_segs_by_criteria_regroup gab_stim (surp_args 1 false "disp"))).
    vm_compute. reflexivity.
  - apply (proj2 (get_segs_by_criteria_regroup gab_stim (surp_args 5 false "disp"))
             _ "disp"%string "seg"%string).
    + left.
    + right. right. left.
    + vm_compute. reflexivity.
Defined.

Lemma col_min_max_ok (df : list stim_row) (col : stim_row → Z) :
  df ≠ [] → ∃ lo hi, col_min df col = Ok lo ∧ col_max1 df col = Ok hi.
Proof.
  intros Hne. unfold col_min, col_max1. destruct df as [|r t]; [done|]. cbn. eauto.
Qed.

(** X4.  A 2p frame range passed for [end2pfr] or [num2pfr] is accepted only
    if [start2pfr] is passed as a list of two values as well, because the
    length that [_format_stim_criteria] tests is that of [start2pfr] in all
    three cases.  With [start2pfr] left at 'any' a two-valued [end2pfr] makes
    the segment query raise ValueError, and with [start2pfr=None] it raises
    TypeError. *)
Theorem format_criteria_range_needs_start :
  (∀ st a c, _format_stim_criteria st a = Ok c →
     (∃ l, a_end2pfr a = FrList l) ∨ (∃ l, a_num2pfr a = FrList l) →
     ∃ lo hi, a_start2pfr a = FrList [lo; hi])
  ∧ (∀ st a lo hi, stim_df st ≠ [] → a_start2pfr a = FrAny →
       a_end2pfr a = FrList [lo; hi] →
       get_segs_by_criteria st a
         = Raise (ValueError "`end2pfr` must be of length 2 if passed."))
  ∧ (∀ st a lo hi, stim_df st ≠ [] → a_start2pfr a = FrNone →
       a_end2pfr a = FrList [lo; hi] →
       get_segs_by_criteria st a = Raise TypeError).
Proof.
  split_and!.
  - intros st a c Hc Hl.
    destruct (format_criteria_inv _ _ _ Hc) as (_ & _ & Hs & He & Hn).
    assert (∀ col l msg r, resolve_ran (stim_df st) col (FrList l) (a_start2pfr a) msg = Ok r →
              ∃ lo hi, a_start2pfr a = FrList [lo; hi]) as Hlen.
    { intros col l msg r. unfold resolve_ran.
      destruct (a_start2pfr a) as [| |ls] eqn:Es; cbn; [done..|].
      destruct (decide _) as [Hl2|]; [|done].
      destruct ls as [|x [|y [|]]]; try done. eauto. }
    destruct Hl as [[l Hl]|[l Hl]].
    + rewrite Hl in He. by apply Hlen in He.
    + rewrite Hl in Hn. by apply Hlen in Hn.
  - intros st a lo hi Hne Hs He. unfold get_segs_by_criteria, _format_stim_criteria.
    rewrite Hs, He. cbn.
    destruct (col_min_max_ok (stim_df st) start2pfr Hne) as (x & y & -> & ->). done.
  - intros st a lo hi Hne Hs He. unfold get_segs_by_criteria, _format_stim_criteria.
    rewrite Hs, He. cbn.
    destruct (col_min_max_ok (stim_df st) start2pfr Hne) as (x & y & -> & ->). done.
Qed.


Lemma format_criteria_range_needs_start_witness :
  (∃ lo hi, a_start2pfr (range_args (FrList [100; 500]) (FrList [100; 500]) FrAny)
            = FrList [lo; hi])
  ∧ get_segs_by_criteria gab_stim (range_args FrAny (FrList [100; 500]) FrAny)
    = Raise (ValueError "`end2pfr` must be of length 2 if passed.")
  ∧ get_segs_by_criteria gab_stim (range_args FrNone (FrList [100; 500]) FrAny)
    = Raise TypeError.
Proof.
  destruct format_criteria_range_needs_start as (H1 & H2 & H3). split_and!.
  - eapply (H1 gab_stim (range_args (FrList [100; 500]) (FrList [100; 500]) FrAny)).
    + vm_compute. reflexivity.
    + left. eexists. reflexivity.
  - apply (H2 gab_stim _ 100 500); [discriminate | reflexivity | reflexivity].
  - apply (H3 gab_stim _ 100 500); [discriminate | reflexivity | reflexivity].
Defined.

Lemma StronglySorted_sublist {A} (R : relation A) (l1 l2 : list A) :
  sublist l1 l2 → StronglySorted R l2 → StronglySorted R l1.
Proof.
  induction 1 as [|x l1 l2 Hs IH|x l1 l2 Hs IH]; intros Hsort.
  - constructor.
  - apply StronglySorted_inv in Hsort as [Hs2 Hall]. constructor; [by apply IH|].
    eapply Forall_forall. intros y Hy. eapply Forall_forall in Hall; [done|].
    by eapply elem_of_sublist.
  - apply StronglySorted_inv in Hsort as [Hs2 _]. by apply IH.
Qed.

Lemma remconsec_from_sorted (prev : Z) (l : list Z) (x : Z) :
  StronglySorted Z.lt (prev :: l) →
  x ∈ remconsec_from prev l ↔ x ∈ l ∧ (x - 1) ∉ prev :: l.
Proof.
  revert prev. induction l as [|v t IH]; intros prev Hs.
  - cbn. split; [by intros ?%elem_of_nil|by intros [?%elem_of_nil _]].
  - apply StronglySorted_inv in Hs as [Hs Hprev].
    pose proof Hs as Hs'. apply StronglySorted_inv in Hs' as [_ Hv].
    apply Forall_cons in Hprev as [Hpv Hpt].
    rewrite Forall_forall in Hv, Hpt.
    cbn [remconsec_from]. rewrite elem_of_app, (IH v Hs), !elem_of_cons.
    split.
    + intros [Hx | [Hx Hn]].
      * destruct (Z.eqb_spec v (prev + 1)); [by apply elem_of_nil in Hx|].
        apply list_elem_of_singleton in Hx as ->. split; [by left|].
        intros [? | [? | Hin]]; [lia | lia | apply Hv in Hin; lia].
      * split; [by right|].
        intros [? | [? | Hin]]; [apply Hv in Hx; lia | tauto | tauto].
    + intros [[-> | Hx] Hn].
      * left. destruct (Z.eqb_spec v (prev + 1)); [|by left].
        exfalso. apply Hn. left. lia.
      * right. split; [done|]. tauto.
Qed.

Lemma remconsec_sorted (l : list Z) (x : Z) :
  StronglySorted Z.lt l → x ∈ remconsec l ↔ x ∈ l ∧ (x - 1) ∉ l.
Proof.
  destruct l as [|v t]; intros Hs.
  - cbn. split; [by intros ?%elem_of_nil|by intros [?%elem_of_nil _]].
  - cbn [remconsec]. rewrite elem_of_cons, (remconsec_from_sorted v t x Hs), !elem_of_cons.
    apply StronglySorted_inv in Hs as [_ Hv]. rewrite Forall_forall in Hv.
    split.
    + intros [-> | [Hx Hn]]; [|tauto]. split; [by left|].
      intros [? | Hin]; [lia | apply Hv in Hin; lia].
    + intros [[-> | Hx] Hn]; [by left | right; tauto].
Qed.

Lemma filter_filter_impl {A} (P Q : A → Prop) `{∀ x, Decision (P x)} `{∀ x, Decision (Q x)}
    (l : list A) :
  (∀ x, P x → Q x) → filter P l = filter P (filter Q l).
Proof.
  intros HPQ. induction l as [|x l IH]; [done|].
  destruct (decide (P x)) as [HP|HP].
  - rewrite (filter_cons_True P) by done. rewrite (filter_cons_True Q) by auto.
    rewrite (filter_cons_True P) by done. by rewrite IH.
  - rewrite (filter_cons_False P) by done.
    destruct (decide (Q x)).
    + rewrite (filter_cons_True Q) by done. by rewrite (filter_cons_False P) by done.
    + by rewrite (filter_cons_False Q) by done.
Qed.

Lemma block_idxs_sorted st c j :
  segs_ascending st →
  StronglySorted Z.lt
    (map stimSeg
       (filter (λ r, (row_mask st c r && (fst j <=? stimSeg r) && (stimSeg r <? snd j)) = true)
          (stim_df st))).
Proof.
  unfold segs_ascending. intros Hs.
  eapply StronglySorted_sublist; [|exact Hs].
  rewrite (filter_filter_impl _ (λ r, stimType r = first_char (stimtype st))).
  - apply fmap_sublist, sublist_filter.
  - intros r Hr. rewrite !andb_true_iff in Hr. destruct Hr as [[Hm _] _].
    by apply row_mask_inv in Hm as [? _].
Qed.

(** X5.  What the removal of consecutive values keeps.  When the rows of the
    stimulus are listed in ascending order of their segment numbers, the
    segments a block contributes with [remconsec=True] are exactly those
    matching segments of the block whose predecessor, the segment numbered one
    less, does not match within the block: the first segment of each run of
    consecutive matching segments. *)
Theorem block_segs_remconsec st c j (x : Z) :
  segs_ascending st →
  x ∈ block_segs st c true j ↔
    x ∈ block_segs st c false j ∧ (x - 1) ∉ block_segs st c false j.
Proof.
  intros Hs. unfold block_segs. apply remconsec_sorted, block_idxs_sorted, Hs.
Qed.

Lemma gab_stim_ascending : segs_ascending gab_stim.
Proof.
  unfold segs_ascending.
  apply Sorted_StronglySorted; [intros ???; lia|].
  vm_compute map. repeat (constructor; [|first [by constructor | constructor; reflexivity]]).
  constructor.
Qed.

Lemma block_segs_remconsec_witness :
  59 ∈ block_segs gab_stim surp_criteria true (0, 60) ↔
    59 ∈ block_segs gab_stim surp_criteria false (0, 60)
    ∧ (59 - 1) ∉ block_segs gab_stim surp_criteria false (0, 60).
Proof.
  apply (block_segs_remconsec gab_stim surp_criteria (0, 60) 59).
  unfold segs_ascending.
  apply Sorted_StronglySorted; [intros ???; lia|].
  vm_compute map. repeat (constructor; [|first [by constructor | constructor; reflexivity]]).
  constructor.
Defined.

Lemma nonempty_elem {A} (l : list A) : l ≠ [] → ∃ x, x ∈ l.
Proof. destruct l as [|x l]; [done|]. intros _. exists x. left. Qed.

Lemma nested_segs_remconsec_nil st c :
  nested_segs st c true = [] ↔ nested_segs st c false = [].
Proof.
  assert (∀ rc rc', nested_segs st c rc ≠ [] → nested_segs st c rc' ≠ []) as H.
  { intros rc rc' Hne.
    assert (concat (concat (nested_segs st c rc)) ≠ []) as Hc
      by (by rewrite <- nested_segs_nil).
    apply nonempty_elem in Hc as [x Hx].
    apply elem_of_nested_segs in Hx as (blk & j & Hblk & Hj & Hx).
    apply elem_of_block_segs in Hx as (r & Hr & Hm & <- & Hran).
    destruct (block_segs_first st c j r Hr Hm Hran) as [_ Hne'].
    eapply nested_segs_nonempty; [done..|apply Hne']. }
  split; intros E.
  - destruct (decide (nested_segs st c false = [])) as [|Hn]; [done|].
    by apply (H false true) in Hn.
  - destruct (decide (nested_segs st c true = [])) as [|Hn]; [done|].
    by apply (H true false) in Hn.
Qed.

Lemma get_segs_remconsec st s by_val :
  (∀ e, get_segs_by_criteria st (surp_args s true by_val) = Raise e ↔
        get_segs_by_criteria st (surp_args s false by_val) = Raise e)
  ∧ (∀ o, get_segs_by_criteria st (surp_args s false by_val) = Ok o →
       ∃ o1, get_segs_by_criteria st (surp_args s true by_val) = Ok o1
         ∧ ∀ x, x ∈ flat_segs o1 → x ∈ flat_segs o).
Proof.
  unfold get_segs_by_criteria.
  change (_format_stim_criteria st (surp_args s true by_val))
    with (_format_stim_criteria st (surp_args s false by_val)).
  destruct (_format_stim_criteria st (surp_args s false by_val)) as [c|e0]; cbn; [|done].
  pose proof (nested_segs_remconsec_nil st c) as Hnil.
  assert (∀ x, x ∈ concat (concat (nested_segs st c true)) →
               x ∈ concat (concat (nested_segs st c false))) as Hsub.
  { intros x Hx. apply elem_of_nested_segs in Hx as (blk & j & Hblk & Hj & Hx).
    apply elem_of_nested_segs. exists blk, j. split_and!; [done..|].
    unfold block_segs in *. by apply elem_of_remconsec. }
  destruct (decide (length (nested_segs st c true) = 0%nat)) as [Ht|Ht];
    destruct (decide (length (nested_segs st c false) = 0%nat)) as [Hf|Hf].
  - done.
  - apply length_zero_iff_nil, Hnil in Ht. by rewrite Ht in Hf.
  - apply length_zero_iff_nil, Hnil in Hf. by rewrite Hf in Ht.
  - repeat (destruct (String.eqb _ _); [split; [done|intros o [= <-]; eauto]|]).
    split; [done|done].
Qed.

Lemma StronglySorted_lt_NoDup (l : list Z) : StronglySorted Z.lt l → NoDup l.
Proof.
  induction 1 as [|x l Hs IH Hall]; constructor; [|done].
  intros Hx. rewrite Forall_forall in Hall. apply Hall in Hx. lia.
Qed.

Lemma NoDup_fmap_eq {A B} (f : A → B) (l : list A) (a b : A) :
  NoDup (map f l) → a ∈ l → b ∈ l → f a = f b → a = b.
Proof.
  induction l as [|x l IH]; [by intros _ ?%elem_of_nil|].
  cbn. intros [Hx Hnd]%NoDup_cons [->|Ha]%elem_of_cons [->|Hb]%elem_of_cons Hf; [done|..].
  - exfalso. apply Hx. rewrite Hf. apply list_elem_of_fmap. eauto.
  - exfalso. apply Hx. rewrite <- Hf. apply list_elem_of_fmap. eauto.
  - by apply IH.
Qed.

(** X6.  The first surprise and first regular segments are taken from the
    surprise and the regular segments: [get_first_surp_segs] raises exactly
    when [get_all_surp_segs] raises, and with the same exception; otherwise
    each of its two lists holds only segments of the corresponding list of
    [get_all_surp_segs].  When the rows of the stimulus are listed in
    ascending order of their segment numbers, no segment is returned as both
    regular and surprise. *)
Theorem first_surp_segs_of_all st by_val :
  (∀ e, get_first_surp_segs st by_val = Raise e ↔ get_all_surp_segs st by_val = Raise e)
  ∧ (∀ reg surp, get_all_surp_segs st by_val = Ok (reg, surp) →
       ∃ reg1 surp1, get_first_surp_segs st by_val = Ok (reg1, surp1)
         ∧ (∀ x, x ∈ flat_segs reg1 → x ∈ flat_segs reg)
         ∧ (∀ x, x ∈ flat_segs surp1 → x ∈ flat_segs surp))
  ∧ (segs_ascending st → ∀ reg surp x, get_all_surp_segs st by_val = Ok (reg, surp) →
       x ∈ flat_segs reg → x ∉ flat_segs surp).
Proof.
  unfold get_first_surp_segs, get_all_surp_segs.
  destruct (get_segs_remconsec st 0 by_val) as [Hr0 Ho0].
  destruct (get_segs_remconsec st 1 by_val) as [Hr1 Ho1].
  split_and!.
  - intros e.
    destruct (get_segs_by_criteria st (surp_args 0 false by_val)) as [o0|e0] eqn:E0.
    + destruct (Ho0 _ eq_refl) as (o0' & -> & _).
      destruct (get_segs_by_criteria st (surp_args 1 false by_val)) as [o1|e1] eqn:E1.
      * destruct (Ho1 _ eq_refl) as (o1' & -> & _). done.
      * rewrite (proj2 (Hr1 e1) eq_refl). done.
    + rewrite (proj2 (Hr0 e0) eq_refl). done.
  - intros reg surp.
    destruct (get_segs_by_criteria st (surp_args 0 false by_val)) as [o0|e0]; [|done].
    destruct (get_segs_by_criteria st (surp_args 1 false by_val)) as [o1|e1]; [|done].
    intros [= <- <-].
    destruct (Ho0 _ eq_refl) as (o0' & -> & Hs0).
    destruct (Ho1 _ eq_refl) as (o1' & -> & Hs1). eexists _, _. split; [done|]. eauto.
  - intros Hasc reg surp x.
    destruct (get_segs_by_criteria st (surp_args 0 false by_val)) as [o0|e0] eqn:E0; [|done].
    destruct (get_segs_by_criteria st (surp_args 1 false by_val)) as [o1|e1] eqn:E1; [|done].
    intros [= <- <-] Hx0 Hx1.
    destruct (get_segs_by_criteria_rows _ _ _ _ E0 Hx0) as (c0 & r0 & Hc0 & Hin0 & Hm0 & Hseg0 & _).
    destruct (get_segs_by_criteria_rows _ _ _ _ E1 Hx1) as (c1 & r1 & Hc1 & Hin1 & Hm1 & Hseg1 & _).
    destruct (row_mask_inv _ _ _ Hm0) as (Hty0 & Hsurp0 & _).
    destruct (row_mask_inv _ _ _ Hm1) as (Hty1 & Hsurp1 & _).
    destruct (format_criteria_inv _ _ _ Hc0) as (_ & Es0 & _).
    destruct (format_criteria_inv _ _ _ Hc1) as (_ & Es1 & _).
    rewrite Es0 in Hsurp0. rewrite Es1 in Hsurp1. cbn in Hsurp0, Hsurp1.
    apply list_elem_of_singleton in Hsurp0, Hsurp1.
    assert (r0 = r1) as Heq.
    { apply (NoDup_fmap_eq stimSeg
               (filter (λ r, stimType r = first_char (stimtype st)) (stim_df st))).
      - by apply StronglySorted_lt_NoDup.
      - by apply list_elem_of_filter.
      - by apply list_elem_of_filter.
      - congruence. }
    subst r1. congruence.
Qed.

Lemma first_surp_segs_of_all_witness :
  (∃ reg1 surp1, get_first_surp_segs gab_stim "block" = Ok (reg1, surp1)
     ∧ (∀ x, x ∈ flat_segs reg1 →
          x ∈ flat_segs (ByBlock [filter (λ s, negb (s mod 10 =? 9) = true) (range 60);
                                  filter (λ s, negb (s mod 10 =? 9) = true)
                                    (map (Z.add 60) (range 40))]))
     ∧ (∀ x, x ∈ flat_segs surp1 →
          x ∈ flat_segs (ByBlock [[9; 19; 29; 39; 49; 59]; [69; 79; 89; 99]])))
  ∧ 8 ∉ flat_segs (ByBlock [[9; 19; 29; 39; 49; 59]; [69; 79; 89; 99]]).
Proof.
  destruct (first_surp_segs_of_all gab_stim "block") as (_ & H2 & H3). split.
  - apply H2. vm_compute. reflexivity.
  - eapply (H3 gab_stim_ascending _ _ 8).
    + vm_compute. reflexivity.
    + apply list_elem_of_In. vm_compute. tauto.
Defined.

End SegQueries.
(** ** Running speed: what the outlier repair keeps *)

Section RunSpeedInvariants.
Import Session SessLoadUtil Design.

(** Case analysis on the result the next step of a computation examines. *)
Ltac case_next :=
  match goal with
  | |- context [match ?x with Ok _ => _ | Raise _ => _ end = Ok _ → _] =>
      destruct x eqn:?; [|done]
  | |- context [match ?x with Some _ => _ | None => _ end = Ok _ → _] =>
      destruct x eqn:?; [|done]
  | |- (?x ≫= _) = Ok _ → _ => destruct x eqn:?; [|done]
  end; simpl.

Lemma nan_while_bound (tail : list (option Q)) (comp : option Q) (thr : Q) (k : nat) :
  nan_while tail comp thr = Ok k → (k < length tail)%nat.
Proof.
  revert k. induction tail as [|x t IH]; intros k; cbn [nan_while]; [done|].
  destruct (abs_gt _ _).
  - destruct (nan_while t comp thr) as [k'|]; [|done]. cbn. intros [= <-].
    specialize (IH _ eq_refl). cbn. lia.
  - intros [= <-]. cbn. lia.
Qed.

Lemma length_fill {A} (lo hi : nat) (v : A) (l : list A) : length (fill lo hi v l) = length l.
Proof. apply length_imap. Qed.

(** The shape of a round of the loop that is not skipped: the samples
    [idx + 1 .. idx + k] of [run], and the first sample if it is off, become
    NaN, the same samples of [run_interp] are overwritten, and the sample
    after them exists. *)
Lemma run_step_shape (thr : Q) (s s' : run_state) (idx : nat) :
  run_step thr s idx = Ok s' → rs_at_idx s < Z.of_nat idx →
  ∃ (k : nat) (first_off : bool) (v : option Q),
    (first_off = true → idx = 0%nat)
    ∧ (S (idx + k) < length (rs_run s))%nat
    ∧ rs_at_idx s' = Z.of_nat (idx + k)
    ∧ rs_run s' = fill (S idx) (S idx + k) None
                    (if first_off then <[0%nat := None]> (rs_run s) else rs_run s)
    ∧ rs_run_interp s' = fill (if first_off then 0%nat else S idx) (S (idx + k)) v
                           (rs_run_interp s)
    ∧ nan_while (drop (S idx) (rs_run s))
        (if decide (idx = 0%nat) then Some 0%Q else default None (rs_run s !! idx)) thr = Ok k.
Proof.
  unfold run_step. intros Hstep Hat. apply Z.ltb_lt in Hat. rewrite Hat in Hstep.
  revert Hstep.
  destruct (decide (idx = 0%nat)) as [->|Hne].
  - destruct (rs_run s !! 0%nat) as [r0|] eqn:E0; [|done].
    destruct (abs_gt r0 thr); simpl.
    + destruct (nan_while _ _ _) as [k|] eqn:Ek; [|done]. simpl.
      pose proof (nan_while_bound _ _ _ _ Ek) as Hk.
      rewrite length_drop, length_insert in Hk.
      case_next. intros [= <-]. simpl.
      exists k, true, (fmean2 (Some 0%Q) o). split_and!; [done|lia|done..|].
      rewrite <- Ek. f_equal. apply drop_ext. intros i Hi.
      by rewrite list_lookup_insert_ne by lia.
    + destruct (nan_while _ _ _) as [k|] eqn:Ek; [|done]. simpl.
      pose proof (nan_while_bound _ _ _ _ Ek) as Hk. rewrite length_drop in Hk.
      case_next. intros [= <-]. simpl.
      exists k, false, (fmean2 (Some 0%Q) o). split_and!; [done|lia|done..].
  - destruct (rs_run s !! idx) as [c|] eqn:Ec; [|done]. simpl.
    destruct (nan_while _ _ _) as [k|] eqn:Ek; [|done]. simpl.
    pose proof (nan_while_bound _ _ _ _ Ek) as Hk. rewrite length_drop in Hk.
    case_next. intros [= <-]. simpl.
    exists k, false, (fmean2 c o). split_and!; [done|lia|done|done| |done].
    by replace (Z.to_nat (Z.of_nat idx + 1)) with (S idx) by lia.
Qed.

Lemma run_step_skip (thr : Q) (s : run_state) (idx : nat) :
  ¬ rs_at_idx s < Z.of_nat idx → run_step thr s idx = Ok s.
Proof.
  intros H. unfold run_step. by rewrite (proj2 (Z.ltb_ge _ _)) by lia.
Qed.

(** A round of the loop keeps the lengths, leaves each sample as it is in
    both arrays or makes it NaN in [run], and never writes the last sample. *)
Lemma run_step_touch (thr : Q) (s s' : run_state) (idx : nat) :
  run_step thr s idx = Ok s' →
  length (rs_run s') = length (rs_run s)
  ∧ length (rs_run_interp s') = length (rs_run_interp s)
  ∧ (∀ i, (rs_run s' !! i = rs_run s !! i ∧ rs_run_interp s' !! i = rs_run_interp s !! i)
          ∨ rs_run s' !! i = Some None)
  ∧ (∀ i, S i = length (rs_run s) →
          rs_run s' !! i = rs_run s !! i ∧ rs_run_interp s' !! i = rs_run_interp s !! i).
Proof.
  intros Hstep. destruct (decide (rs_at_idx s < Z.of_nat idx)) as [Hat|Hat].
  - destruct (run_step_shape _ _ _ _ Hstep Hat) as (k & fo & v & Hfo & Hk & _ & Hr & Hi & _).
    rewrite Hr, Hi, !length_fill. split_and!.
    + destruct fo; [by rewrite length_insert|done].
    + done.
    + intros i. destruct (decide (S idx ≤ i < S idx + k)%nat) as [Hin|Hout].
      * right. apply fill_lookup_in; [done|]. destruct fo; rewrite ?length_insert; lia.
      * destruct fo.
        -- specialize (Hfo eq_refl) as ->. destruct (decide (i = 0%nat)) as [->|Hi0].
           ++ right. rewrite fill_lookup_out by lia. apply list_lookup_insert_eq. lia.
           ++ left. rewrite !fill_lookup_out by lia.
              by rewrite list_lookup_insert_ne by lia.
        -- left. rewrite !fill_lookup_out by lia. done.
    + intros i Hlast. rewrite !fill_lookup_out by (destruct fo; lia).
      destruct fo; [|done]. by rewrite list_lookup_insert_ne by lia.
  - rewrite run_step_skip in Hstep by done. injection Hstep as <-.
    split_and!; [done|done| |done]. intros i. by left.
Qed.

Lemma run_loop_touch (thr : Q) (out : list nat) (s s' : run_state) :
  foldM (run_step thr) s out = Ok s' →
  length (rs_run s') = length (rs_run s)
  ∧ length (rs_run_interp s') = length (rs_run_interp s)
  ∧ (∀ i, (rs_run s' !! i = rs_run s !! i ∧ rs_run_interp s' !! i = rs_run_interp s !! i)
          ∨ rs_run s' !! i = Some None)
  ∧ (∀ i, S i = length (rs_run s) →
          rs_run s' !! i = rs_run s !! i ∧ rs_run_interp s' !! i = rs_run_interp s !! i).
Proof.
  revert s. induction out as [|idx t IH]; intros s; simpl.
  - intros [= <-]. split_and!; [done|done| |done]. intros i. by left.
  - destruct (run_step thr s idx) as [s1|] eqn:E1; [|done]. intros Ht.
    apply run_step_touch in E1 as (L1 & L1' & T1 & E1).
    apply IH in Ht as (L2 & L2' & T2 & E2).
    split_and!; [congruence|congruence| |].
    + intros i. destruct (T2 i) as [[-> ->]|?]; [apply T1|by right].
    + intros i Hi. destruct (E2 i) as [-> ->]; [congruence|]. by apply E1.
Qed.

(** X7.  The outlier repair only removes samples.  When [_load_run_speed]
    returns, both arrays have the length of the input, which is the frame
    count returned; every sample is either left as it was in both [run] and
    [run_interp] or is NaN in [run], so [run_interp] differs from the input
    only where [run] was made NaN; and the last sample is never changed. *)
Theorem load_run_speed_only_removes (run : list (option Q)) (diff_thr : option Q)
    (r ri : list (option Q)) (n : nat) (w : list warning) :
  _load_run_speed run diff_thr = Ok (r, ri, n, w) →
  n = length run ∧ length r = length run ∧ length ri = length run
  ∧ (∀ i, (r !! i = run !! i ∧ ri !! i = run !! i) ∨ r !! i = Some None)
  ∧ (∀ i x, r !! i = Some (Some x) → run !! i = Some (Some x) ∧ ri !! i = Some (Some x))
  ∧ last r = last run ∧ last ri = last run.
Proof.
  unfold _load_run_speed.
  destruct (foldM _ _ _) as [s|] eqn:Hloop; [|done]. cbn. intros [= <- <- <- <-].
  apply run_loop_touch in Hloop as (L & L' & T & E). cbn in L, L', T, E.
  split_and!; [done..| | |].
  - intros i x Hi. destruct (T i) as [[H1 H2]|H1]; [|congruence].
    rewrite <- H1, H2, <- H1. done.
  - rewrite !last_lookup, L. destruct run as [|x0 run']; [by destruct (rs_run s)|].
    cbn [length Nat.pred]. apply E. done.
  - rewrite !last_lookup, L'. destruct run as [|x0 run']; [by destruct (rs_run_interp s)|].
    cbn [length Nat.pred]. apply E. done.
Qed.

Lemma load_run_speed_only_removes_witness :
  6%nat = length [Some 0%Q; Some 1%Q; Some 200%Q; Some 200%Q; Some 4%Q; Some 5%Q]
  ∧ length [Some 0%Q; Some 1%Q; None; None; Some 4%Q; Some 5%Q]
    = length [Some 0%Q; Some 1%Q; Some 200%Q; Some 200%Q; Some 4%Q; Some 5%Q]
  ∧ length [Some 0%Q; Some 1%Q; Some (5 # 2); Some (5 # 2); Some 4%Q; Some 5%Q]
    = length [Some 0%Q; Some 1%Q; Some 200%Q; Some 200%Q; Some 4%Q; Some 5%Q]
  ∧ (∀ i, ([Some 0%Q; Some 1%Q; None; None; Some 4%Q; Some 5%Q] !! i
           = [Some 0%Q; Some 1%Q; Some 200%Q; Some 200%Q; Some 4%Q; Some 5%Q] !! i
           ∧ [Some 0%Q; Some 1%Q; Some (5 # 2); Some (5 # 2); Some 4%Q; Some 5%Q] !! i
             = [Some 0%Q; Some 1%Q; Some 200%Q; Some 200%Q; Some 4%Q; Some 5%Q] !! i)
          ∨ [Some 0%Q; Some 1%Q; None; None; Some 4%Q; Some 5%Q] !! i = Some None)
  ∧ (∀ i x, [Some 0%Q; Some 1%Q; None; None; Some 4%Q; Some 5%Q] !! i = Some (Some x) →
       [Some 0%Q; Some 1%Q; Some 200%Q; Some 200%Q; Some 4%Q; Some 5%Q] !! i = Some (Some x)
       ∧ [Some 0%Q; Some 1%Q; Some (5 # 2); Some (5 # 2); Some 4%Q; Some 5%Q] !! i
         = Some (Some x))
  ∧ last [Some 0%Q; Some 1%Q; None; None; Some 4%Q; Some 5%Q]
    = last [Some 0%Q; Some 1%Q; Some 200%Q; Some 200%Q; Some 4%Q; Some 5%Q]
  ∧ last [Some 0%Q; Some 1%Q; Some (5 # 2); Some (5 # 2); Some 4%Q; Some 5%Q]
    = last [Some 0%Q; Some 1%Q; Some 200%Q; Some 200%Q; Some 4%Q; Some 5%Q].
Proof.
  apply (load_run_speed_only_removes
    [Some 0%Q; Some 1%Q; Some 200%Q; Some 200%Q; Some 4%Q; Some 5%Q] (Some 50%Q)
    [Some 0%Q; Some 1%Q; None; None; Some 4%Q; Some 5%Q]
    [Some 0%Q; Some 1%Q; Some (5 # 2); Some (5 # 2); Some 4%Q; Some 5%Q]
    6 [WarnRunReplaced 2]).
  vm_compute. reflexivity.
Defined.


Lemma np_where_from_sorted {A} (p : A → bool) (k : nat) (l : list A) :
  StronglySorted lt (np_where_from p k l).
Proof.
  revert k. induction l as [|x t IH]; intros k; cbn [np_where_from]; [constructor|].
  destruct (p x); cbn [app]; [|apply IH].
  constructor; [apply IH|]. apply Forall_forall. intros i Hi.
  apply elem_of_np_where_from in Hi as [Hi _]. lia.
Qed.

Lemma out_idx_sorted (run : list (option Q)) (thr : Q) : StronglySorted lt (out_idx run thr).
Proof. apply np_where_from_sorted. Qed.

Lemma run_loop_nan_stays (thr : Q) (out : list nat) (s s' : run_state) (i : nat) :
  foldM (run_step thr) s out = Ok s' → rs_run s !! i = Some None → rs_run s' !! i = Some None.
Proof.
  intros Hloop Hi. apply run_loop_touch in Hloop as (_ & _ & T & _).
  destruct (T i) as [[-> _]|]; done.
Qed.

(** The loop at an outlier that is the last difference of the array: either
    the sample before the last one has been made NaN by an earlier round, or
    the round at this index walks off the end of the array. *)
Lemma run_loop_end (thr : Q) (run : list (option Q)) (out : list nat) (s s' : run_state)
    (b idx : nat) :
  StronglySorted lt out → Forall (λ i, b ≤ i)%nat out →
  (∀ i, (b ≤ i)%nat → Z.of_nat i ≤ rs_at_idx s → rs_run s !! i = Some None) →
  (∀ i, rs_at_idx s < Z.of_nat i → rs_run s !! i = run !! i) →
  length (rs_run s) = length run →
  foldM (run_step thr) s out = Ok s' →
  idx ∈ out → (1 ≤ idx)%nat → S (S idx) = length run → diff_exceeds thr run idx →
  rs_run s' !! idx = Some None.
Proof.
  revert s b. induction out as [|x t IH]; intros s b Hsort Hb Hinv Hun Hlen Hloop Hin H1 Hend Hd;
    [by apply elem_of_nil in Hin|].
  cbn [foldM] in Hloop.
  destruct (run_step thr s x) as [s1|] eqn:E1; [|done].
  apply StronglySorted_inv in Hsort as [Hsort Hx]. apply Forall_cons in Hb as [Hbx Hb].
  apply elem_of_cons in Hin as [->|Hin].
  - destruct (decide (rs_at_idx s < Z.of_nat x)) as [Hat|Hat].
    + exfalso. destruct (run_step_shape _ _ _ _ E1 Hat) as (k & fo & v & _ & Hk & _ & _ & _ & Hw).
      destruct (decide (x = 0%nat)) as [->|_]; [lia|].
      destruct Hd as (a & c & Ha & Hc & Hac).
      rewrite Hun, Ha in Hw by done. cbn [default] in Hw.
      assert (drop (S x) (rs_run s) = [Some c]) as Hdrop.
      { apply list_eq. intros i. rewrite lookup_drop. destruct i as [|i].
        - rewrite Nat.add_0_r, Hun by lia. done.
        - cbn. apply lookup_ge_None_2. lia. }
      rewrite Hdrop in Hw. cbn [nan_while fsub] in Hw.
      change (abs_gt _ thr) with (abs_gt (Some (c - a)%Q) thr) in Hw.
      destruct (abs_gt (Some (c - a)%Q) thr) eqn:E; [by cbn in Hw|].
      apply not_true_iff_false in E. apply E, abs_gt_spec. eauto.
    + rewrite run_step_skip in E1 by done. injection E1 as <-.
      eapply run_loop_nan_stays; [done|]. apply Hinv; [done|lia].
  - pose proof (run_step_touch _ _ _ _ E1) as (L1 & _ & _ & _).
    pose proof (run_step_later _ _ _ _ E1) as [Hle Hlater].
    apply (IH s1 (S x)); try done.
    + intros i Hi Hi'. destruct (decide (rs_at_idx s < Z.of_nat x)) as [Hat|Hat].
      * destruct (run_step_shape _ _ _ _ E1 Hat) as (k & fo & v & _ & Hk & Hat' & Hr & _).
        rewrite Hr. apply fill_lookup_in; [lia|]. destruct fo; rewrite ?length_insert; lia.
      * rewrite run_step_skip in E1 by done. injection E1 as <-. apply Hinv; [lia|done].
    + intros i Hi. destruct (Hlater i Hi) as [-> _]. apply Hun. lia.
    + congruence.
Qed.

(** X8.  A jump at the very end of the recording.  When the last difference
    of the running array is among those the code flags as exceeding the
    threshold (and the array has at least three samples), [_load_run_speed]
    either raises IndexError, because the loop that discards the samples
    after the jump walks off the end of the array, or returns with the sample
    before the last one made NaN as part of an earlier run of outliers.  If
    the last difference is the only one flagged, the call raises. *)
Theorem load_run_speed_jump_at_end (run : list (option Q)) (thr : Q) (idx : nat) :
  (1 ≤ idx)%nat → S (S idx) = length run → idx ∈ out_idx run thr →
  (_load_run_speed run (Some thr) = Raise IndexError
   ∨ ∃ r ri n w, _load_run_speed run (Some thr) = Ok (r, ri, n, w) ∧ r !! idx = Some None)
  ∧ (out_idx run thr = [idx] → _load_run_speed run (Some thr) = Raise IndexError).
Proof.
  intros H1 Hend Hin. pose proof (proj1 (elem_of_out_idx run thr idx) Hin) as Hd.
  assert (∀ out (s : run_state) e, foldM (run_step thr) s out = Raise e → e = IndexError) as Hexn.
  { induction out as [|x t IH]; intros s e; cbn [foldM]; [done|].
    destruct (run_step thr s x) as [s1|e1] eqn:E1; [apply IH|].
    intros [= <-]. revert E1. unfold run_step.
    destruct (_ <? _); [|done].
    destruct (decide (x = 0%nat)).
    - destruct (rs_run s !! 0%nat); [|by intros [= <-]]. cbn.
      assert (∀ tl c e', nan_while tl c thr = Raise e' → e' = IndexError) as Hnw.
      { induction tl as [|y tl IHt]; intros c e'; cbn; [by intros [= <-]|].
        destruct (abs_gt _ _); [|done].
        destruct (nan_while tl c thr) eqn:En; [done|]. cbn. intros [= <-]. by eapply IHt. }
      destruct (abs_gt o thr); cbn.
      + destruct (nan_while _ _ _) eqn:En; cbn; [|intros [= <-]; by eapply Hnw].
        by destruct (_ !! _); [|intros [= <-]].
      + destruct (nan_while _ _ _) eqn:En; cbn; [|intros [= <-]; by eapply Hnw].
        by destruct (_ !! _); [|intros [= <-]].
    - destruct (rs_run s !! x); [|by intros [= <-]]. cbn.
      assert (∀ tl c e', nan_while tl c thr = Raise e' → e' = IndexError) as Hnw.
      { induction tl as [|y tl IHt]; intros c e'; cbn; [by intros [= <-]|].
        destruct (abs_gt _ _); [|done].
        destruct (nan_while tl c thr) eqn:En; [done|]. cbn. intros [= <-]. by eapply IHt. }
      destruct (nan_while _ _ _) eqn:En; cbn; [|intros [= <-]; by eapply Hnw].
      by destruct (_ !! _); [|intros [= <-]]. }
  assert (∀ s', foldM (run_step thr) (run_state0 run (length (out_idx run thr)))
                  (out_idx run thr) = Ok s' → rs_run s' !! idx = Some None) as Hok.
  { intros s' Hloop.
    apply (run_loop_end thr run (out_idx run thr)
             (run_state0 run (length (out_idx run thr))) s' 0 idx);
      [apply out_idx_sorted | apply Forall_forall; intros; lia | cbn; intros; lia
      | done | done | done | done | done | done | done]. }
  unfold _load_run_speed. cbn [default].
  destruct (foldM _ _ _) as [s'|e] eqn:Hloop.
  - split.
    + right. eexists _, _, _, _. split; [reflexivity|]. by apply Hok.
    + intros Hout. exfalso. specialize (Hok _ eq_refl).
      rewrite Hout in Hloop. cbn [foldM] in Hloop.
      destruct (run_step thr _ idx) as [s1|] eqn:E1; [|done]. injection Hloop as ->.
      destruct (run_step_shape _ _ _ _ E1) as (k & fo & v & Hfo & _ & _ & Hr & _);
        [cbn; lia|].
      rewrite Hr in Hok. rewrite fill_lookup_out in Hok by lia.
      destruct fo; [specialize (Hfo eq_refl); lia|]. cbn in Hok.
      destruct Hd as (a & c & Ha & _). congruence.
  - apply Hexn in Hloop as ->. split; [by left|done].
Qed.

Lemma load_run_speed_jump_at_end_witness :
  (_load_run_speed [Some 0%Q; Some 1%Q; Some 2%Q; Some 200%Q] (Some 50%Q) = Raise IndexError
   ∨ ∃ r ri n w, _load_run_speed [Some 0%Q; Some 1%Q; Some 2%Q; Some 200%Q] (Some 50%Q)
                 = Ok (r, ri, n, w) ∧ r !! 2%nat = Some None)
  ∧ _load_run_speed [Some 0%Q; Some 1%Q; Some 2%Q; Some 200%Q] (Some 50%Q) = Raise IndexError.
Proof.
  destruct (load_run_speed_jump_at_end [Some 0%Q; Some 1%Q; Some 2%Q; Some 200%Q] 50 2)
    as [H1 H2].
  - lia.
  - reflexivity.
  - replace (out_idx [Some 0%Q; Some 1%Q; Some 2%Q; Some 200%Q] 50) with [2%nat]
      by (vm_compute; reflexivity).
    left.
  - split; [exact H1|]. apply H2. vm_compute. reflexivity.
Defined.


(** *** [nan_large_run_differences] *)

Lemma nan_step_run_step (thr : Q) (s : run_state) (idx : nat) :
  nan_step thr (rs_run s, rs_at_idx s) idx
  = (s' ← run_step thr s idx; Ok (rs_run s', rs_at_idx s')).
Proof.
  unfold nan_step, run_step. destruct (_ <? _); [|done].
  destruct (decide (idx = 0%nat)) as [->|Hne].
  - destruct (rs_run s !! 0%nat) as [r0|]; [|done].
    destruct (abs_gt r0 thr); cbn.
    + destruct (nan_while _ _ _) as [k|] eqn:Ek; cbn; [|done].
      apply nan_while_bound in Ek. rewrite length_drop, length_insert in Ek.
      destruct (_ !! S k) eqn:El; [done|].
      apply lookup_ge_None in El. rewrite length_fill, length_insert in El. lia.
    + destruct (nan_while _ _ _) as [k|] eqn:Ek; cbn; [|done].
      apply nan_while_bound in Ek. rewrite length_drop in Ek.
      destruct (_ !! S k) eqn:El; [done|].
      apply lookup_ge_None in El. rewrite length_fill in El. lia.
  - destruct (rs_run s !! idx) as [c|]; [|done]. cbn.
    destruct (nan_while _ _ _) as [k|] eqn:Ek; cbn; [|done].
    apply nan_while_bound in Ek. rewrite length_drop in Ek.
    destruct (_ !! S (idx + k)) eqn:El; [done|].
    apply lookup_ge_None in El. rewrite length_fill in El. lia.
Qed.

Lemma nan_loop_run_loop (thr : Q) (out : list nat) (s : run_state) :
  foldM (nan_step thr) (rs_run s, rs_at_idx s) out
  = (s' ← foldM (run_step thr) s out; Ok (rs_run s', rs_at_idx s')).
Proof.
  revert s. induction out as [|x t IH]; intros s; cbn [foldM]; [done|].
  rewrite nan_step_run_step. destruct (run_step thr s x) as [s1|]; cbn; [apply IH|done].
Qed.

Lemma length_put_idx {A} (a : list A) (idx : list nat) (vals : list A) :
  length (put_idx a idx vals) = length a.
Proof.
  unfold put_idx. revert a vals. induction idx as [|j idx IH]; intros a vals; [done|].
  destruct vals as [|v vs]; [done|]. cbn. rewrite IH. apply length_insert.
Qed.

Lemma put_idx_lookup_notin {A} (a : list A) (idx : list nat) (vals : list A) (i : nat) :
  i ∉ idx → put_idx a idx vals !! i = a !! i.
Proof.
  unfold put_idx. revert a vals. induction idx as [|j idx IH]; intros a vals Hi; [done|].
  destruct vals as [|v vs]; [done|]. cbn.
  rewrite not_elem_of_cons in Hi. destruct Hi as [Hij Hi].
  rewrite IH by done. by apply list_lookup_insert_ne.
Qed.

Lemma put_idx_lookup_in {A} (a : list A) (idx : list nat) (vals : list A) (k i : nat) (v : A) :
  NoDup idx → idx !! k = Some i → vals !! k = Some v → (i < length a)%nat →
  put_idx a idx vals !! i = Some v.
Proof.
  revert a vals k. induction idx as [|j idx IH]; intros a vals k Hnd Hk Hv Hi; [done|].
  destruct vals as [|v0 vs]; [done|].
  apply NoDup_cons in Hnd as [Hj Hnd].
  change (put_idx a (j :: idx) (v0 :: vs)) with (put_idx (<[j := v0]> a) idx vs).
  destruct k as [|k]; cbn in Hk, Hv.
  - injection Hk as ->. injection Hv as ->.
    rewrite put_idx_lookup_notin by done. by apply list_lookup_insert_eq.
  - apply (IH _ _ k); [done..|]. by rewrite length_insert.
Qed.

Lemma take_idx_lookup {A} (a : list A) (idx : list nat) :
  (∀ i, i ∈ idx → (i < length a)%nat) →
  length (take_idx a idx) = length idx
  ∧ ∀ k i, idx !! k = Some i → take_idx a idx !! k = a !! i.
Proof.
  unfold take_idx. induction idx as [|j idx IH]; intros Hin; [done|].
  cbn [omap list_omap].
  destruct (lookup_lt_is_Some_2 a j) as [x Hx]; [apply Hin; left|].
  rewrite Hx. destruct IH as [IHl IHk]; [intros i Hi; apply Hin; by right|].
  split; [cbn; by rewrite IHl|].
  intros [|k] i; cbn; [by intros [= <-]|apply IHk].
Qed.

Lemma np_where_all {A} (p : A → bool) (k : nat) (l : list A) :
  Forall (λ x, p x = true) l → np_where_from p k l = seq k (length l).
Proof.
  intros H. revert k. induction H as [|x l Hx _ IH]; intros k; [done|].
  cbn. rewrite Hx. cbn. by rewrite IH.
Qed.

Lemma StronglySorted_nat_NoDup (l : list nat) : StronglySorted lt l → NoDup l.
Proof.
  induction 1 as [|x l Hs IH Hall]; constructor; [|done].
  intros Hx. rewrite Forall_forall in Hall. apply Hall in Hx. lia.
Qed.

(** X9.  On a running array without NaNs, [nan_large_run_differences] and
    [_load_run_speed] discard the same samples: called with the same
    threshold they raise the same exception or return the same array with
    NaNs for the outliers.  (Their default thresholds differ: 50 and 100.) *)
Theorem nan_large_run_differences_agrees (run : list (option Q)) (thr : Q)
    (warn_nans : bool) (drop_tol : option Q) :
  Forall (λ x, isnan x = false) run →
  (o ← nan_large_run_differences run (Some thr) warn_nans drop_tol; Ok (fst o))
  = ('(r, _, _, _) ← _load_run_speed run (Some thr); Ok r).
Proof.
  intros Hnn. unfold nan_large_run_differences, _load_run_speed. cbv zeta.
  change (default SessLoadUtil.diff_thr_default (Some thr)) with thr.
  change (default Session.diff_thr_default (Some thr)) with thr.
  assert (np_where (λ x, negb (isnan x)) run = seq 0 (length run)) as Hidx.
  { apply np_where_all. eapply Forall_impl; [exact Hnn|]. by intros x ->. }
  rewrite Hidx.
  assert (take_idx run (seq 0 (length run)) = run) as Htake.
  { destruct (take_idx_lookup run (seq 0 (length run))) as [Hl Hk].
    { intros i Hi. apply elem_of_seq in Hi. lia. }
    apply list_eq. intros i. destruct (decide (i < length run)%nat) as [Hi|Hi].
    - apply Hk. by apply lookup_seq_lt.
    - rewrite !lookup_ge_None_2; [done|lia|]. rewrite Hl, length_seq. lia. }
  rewrite Htake.
  pose proof (nan_loop_run_loop thr (out_idx run thr)
                (run_state0 run (length (out_idx run thr)))) as Hsim.
  cbn [rs_run rs_at_idx run_state0] in Hsim. rewrite Hsim.
  destruct (foldM (run_step thr) _ _) as [s|e] eqn:Hloop; [|done]. cbn.
  f_equal. apply run_loop_touch in Hloop as (L & _). cbn in L.
  apply list_eq. intros i. destruct (decide (i < length run)%nat) as [Hi|Hi].
  - destruct (lookup_lt_is_Some_2 (rs_run s) i) as [v Hv]; [lia|]. rewrite Hv.
    apply (put_idx_lookup_in _ _ _ i); [apply NoDup_seq|by apply lookup_seq_lt|done|].
    by rewrite length_replicate.
  - rewrite !lookup_ge_None_2; [done|lia|]. rewrite length_put_idx, length_replicate. lia.
Qed.

Lemma nan_large_run_differences_agrees_witness :
  (o ← nan_large_run_differences
         [Some 0%Q; Some 1%Q; Some 200%Q; Some 200%Q; Some 4%Q; Some 5%Q] (Some 50%Q)
         true None; Ok (fst o))
  = ('(r, _, _, _) ← _load_run_speed
         [Some 0%Q; Some 1%Q; Some 200%Q; Some 200%Q; Some 4%Q; Some 5%Q] (Some 50%Q);
     Ok r).
Proof.
  apply (nan_large_run_differences_agrees
           [Some 0%Q; Some 1%Q; Some 200%Q; Some 200%Q; Some 4%Q; Some 5%Q] 50 true None).
  repeat constructor.
Defined.

(** X10.  [nan_large_run_differences] only removes samples, also around the
    NaNs that are there already: when it returns, the array has the length of
    the input, the NaNs of the input are NaN in the result, and every number
    of the result is the number of the input at the same position. *)
Theorem nan_large_run_differences_only_removes (run : list (option Q)) (diff_thr : option Q)
    (warn_nans : bool) (drop_tol : option Q) (r : list (option Q)) (lg : list nan_warning) :
  nan_large_run_differences run diff_thr warn_nans drop_tol = Ok (r, lg) →
  length r = length run
  ∧ (∀ i, run !! i = Some None → r !! i = Some None)
  ∧ (∀ i x, r !! i = Some (Some x) → run !! i = Some (Some x)).
Proof.
  unfold nan_large_run_differences. cbv zeta.
  set (thr := default SessLoadUtil.diff_thr_default diff_thr).
  set (idx := np_where (λ x, negb (isnan x)) run).
  assert (∀ i, i ∈ idx ↔ ∃ x, run !! i = Some (Some x)) as Hidx.
  { intros i. unfold idx. rewrite elem_of_np_where. split.
    - intros ([x|] & Hx & Hp); [eauto|done].
    - intros [x Hx]. eauto. }
  destruct (take_idx_lookup run idx) as [Hl Hk].
  { intros i Hi. apply Hidx in Hi as [x Hx]. by apply lookup_lt_Some in Hx. }
  pose proof (nan_loop_run_loop thr (out_idx (take_idx run idx) thr)
                (run_state0 (take_idx run idx) 0)) as Hsim.
  cbn [rs_run rs_at_idx run_state0] in Hsim. rewrite Hsim.
  destruct (foldM (run_step thr) _ _) as [s|e] eqn:Hloop; [|done]. cbn.
  intros [= <- _].
  apply run_loop_touch in Hloop as (L & _ & T & _). cbn in L, T.
  assert (NoDup idx) as Hnd.
  { apply StronglySorted_nat_NoDup. apply np_where_from_sorted. }
  split_and!.
  - by rewrite length_put_idx, length_replicate.
  - intros i Hi. rewrite put_idx_lookup_notin.
    + apply lookup_replicate_2. by apply lookup_lt_Some in Hi.
    + intros Hin. apply Hidx in Hin as [x Hx]. congruence.
  - intros i x Hi. destruct (decide (i ∈ idx)) as [Hin|Hin].
    + apply list_elem_of_lookup in Hin as [k Hki].
      destruct (lookup_lt_is_Some_2 (rs_run s) k) as [v Hv].
      { rewrite L, Hl. by apply lookup_lt_Some in Hki. }
      pose proof Hki as Hin. apply list_elem_of_lookup_2, Hidx in Hin as [y Hy].
      rewrite (put_idx_lookup_in _ _ _ k i v) in Hi; [|done..|].
      * injection Hi as ->. destruct (T k) as [[H1 _]|H1]; [|congruence].
        rewrite <- (Hk k i Hki), <- H1. done.
      * rewrite length_replicate. by apply lookup_lt_Some in Hy.
    + rewrite put_idx_lookup_notin in Hi by done.
      apply lookup_replicate in Hi as [? _]. done.
Qed.

Lemma nan_large_run_differences_only_removes_witness :
  length [Some 0%Q; None; Some 1%Q; None; Some 4%Q; Some 5%Q]
  = length [Some 0%Q; None; Some 1%Q; Some 200%Q; Some 4%Q; Some 5%Q]
  ∧ (∀ i, [Some 0%Q; None; Some 1%Q; Some 200%Q; Some 4%Q; Some 5%Q] !! i = Some None →
       [Some 0%Q; None; Some 1%Q; None; Some 4%Q; Some 5%Q] !! i = Some None)
  ∧ (∀ i x, [Some 0%Q; None; Some 1%Q; None; Some 4%Q; Some 5%Q] !! i = Some (Some x) →
       [Some 0%Q; None; Some 1%Q; Some 200%Q; Some 4%Q; Some 5%Q] !! i = Some (Some x)).
Proof.
  apply (nan_large_run_differences_only_removes
           [Some 0%Q; None; Some 1%Q; Some 200%Q; Some 4%Q; Some 5%Q] None false None
           [Some 0%Q; None; Some 1%Q; None; Some 4%Q; Some 5%Q] []).
  vm_compute. reflexivity.
Defined.

End RunSpeedInvariants.
(** ** The 2p-to-stimulus frame alignment *)

Section Twop2StimfrMore.
Import Session Design.

Lemma slice_assign_length {A} (a : list A) (start stop : Z) (vals r : list A) :
  slice_assign a start stop vals = Ok r → length r = length a.
Proof.
  unfold slice_assign.
  assert (∀ n i, (slice_bound n i ≤ n)%nat) as Hb.
  { intros n i. unfold slice_bound. destruct (i <? 0) eqn:E; lia. }
  pose proof (Hb (length a) start). pose proof (Hb (length a) stop).
  destruct (decide _) as [Hl|Hl].
  - intros [= <-]. rewrite !length_app, length_take, length_drop. lia.
  - destruct vals as [|v [|]]; try done.
    intros [= <-]. rewrite !length_app, length_take, length_replicate, length_drop. lia.
Qed.

Lemma slice_assign_outside {A} (a : list A) (start stop : Z) (vals r : list A) (p : nat) :
  slice_assign a start stop vals = Ok r → 0 ≤ start →
  (Z.of_nat p < start ∨ stop ≤ Z.of_nat p) → 0 ≤ stop → r !! p = a !! p.
Proof.
  unfold slice_assign. intros Hr H0 Hp H1.
  assert (slice_bound (length a) start = Nat.min (Z.to_nat start) (length a)) as Elo.
  { unfold slice_bound. destruct (start <? 0) eqn:E; [lia|done]. }
  assert (slice_bound (length a) stop = Nat.min (Z.to_nat stop) (length a)) as Ehi.
  { unfold slice_bound. destruct (stop <? 0) eqn:E; [lia|done]. }
  rewrite Elo, Ehi in Hr.
  remember (Nat.min (Z.to_nat start) (length a)) as lo eqn:Hlo.
  remember (Nat.min (Z.to_nat stop) (length a)) as hi eqn:Hhi.
  assert (∀ mid : list A, length mid = (hi - lo)%nat →
            (take lo a ++ mid ++ drop (lo + (hi - lo)) a) !! p = a !! p) as Hmid.
  { intros mid Hm. destruct (decide (p < length a)%nat) as [Hpa|Hpa].
    - destruct (decide (p < lo)%nat) as [Hlt|Hge].
      + rewrite lookup_app_l by (rewrite length_take; lia).
        apply lookup_take_lt. lia.
      + rewrite lookup_app_r by (rewrite length_take; lia).
        rewrite lookup_app_r by (rewrite length_take; lia).
        rewrite lookup_drop. f_equal. rewrite length_take. lia.
    - rewrite !lookup_ge_None_2; [done|lia|].
      rewrite !length_app, length_take, length_drop. lia. }
  destruct (decide _) as [Hl|Hl].
  - injection Hr as <-. by apply Hmid.
  - destruct vals as [|v [|]]; try done. injection Hr as <-.
    apply Hmid. by rewrite length_replicate.
Qed.

(** X11.  The shape of the alignment array.  Whatever [stim2twopfr] holds,
    when [_get_twop2stimfr] returns, [twop2stimfr] has one entry per 2p frame,
    and if the first and last entries of [stim2twopfr] are not negative, the
    entries for the 2p frames before the first and after the last of them are
    NaN. *)
Theorem get_twop2stimfr_shape (stim2twopfr : list Z) (n_twop : nat)
    (a : list (option Z)) (w : list warning) :
  _get_twop2stimfr stim2twopfr n_twop = Ok (a, w) →
  length a = n_twop
  ∧ ∀ start last_fr (p : nat),
      py_index stim2twopfr 0 = Ok start → py_index stim2twopfr (-1) = Ok last_fr →
      0 ≤ start → 0 ≤ last_fr →
      (Z.of_nat p < start ∨ last_fr < Z.of_nat p) → (p < n_twop)%nat →
      a !! p = Some None.
Proof.
  unfold _get_twop2stimfr.
  destruct (if decide _ then _ else _) as [[stim_idx w0]|]; cbn [mbind result_bind]; [|done].
  destruct (py_index stim2twopfr 0) as [start|]; cbn [mbind result_bind]; [|done].
  destruct (py_index stim2twopfr (-1)) as [last_fr|]; cbn [mbind result_bind]; [|done].
  destruct (slice_assign _ _ _ _) as [r|] eqn:Hr; intros [= <- <-].
  - split; [by rewrite (slice_assign_length _ _ _ _ _ Hr), length_replicate|].
    intros ? ? p [= <-] [= <-] H0 H1 Hp Hn.
    rewrite (slice_assign_outside _ _ _ _ _ p Hr); [|done|lia|lia].
    by apply lookup_replicate_2.
  - split; [by rewrite length_replicate|].
    intros. by apply lookup_replicate_2.
Qed.

Lemma get_twop2stimfr_shape_witness :
  length [None; None; Some 0; Some 1; Some 1; Some 2; None] = 7%nat
  ∧ ∀ start last_fr (p : nat),
      py_index [2; 3; 5] 0 = Ok start → py_index [2; 3; 5] (-1) = Ok last_fr →
      0 ≤ start → 0 ≤ last_fr →
      (Z.of_nat p < start ∨ last_fr < Z.of_nat p) → (p < 7)%nat →
      [None; None; Some 0; Some 1; Some 1; Some 2; None] !! p = Some None.
Proof.
  apply (get_twop2stimfr_shape [2; 3; 5] 7 _ [WarnDroppedSeqs 1]).
  vm_compute. reflexivity.
Defined.

Lemma np_where_from_ext {A} (p q : A → bool) (k : nat) (l : list A) :
  Forall (λ x, p x = q x) l → np_where_from p k l = np_where_from q k l.
Proof.
  intros H. revert k. induction H as [|x l Hx _ IH]; intros k; [done|].
  cbn. by rewrite Hx, IH.
Qed.

Lemma np_where_from_none {A} (p : A → bool) (k : nat) (l : list A) :
  Forall (λ x, p x = false) l → np_where_from p k l = [].
Proof.
  intros H. revert k. induction H as [|x l Hx _ IH]; intros k; [done|].
  cbn. by rewrite Hx, IH.
Qed.

(** With steps of 0 or 1 the 2p frame numbers never decrease, and grow by
    at most one per stimulus frame. *)
Lemma steps01_mono (s : list Z) (i j : nat) (x y : Z) :
  Forall (λ d, d = 0 ∨ d = 1) (np_diff s) → (i ≤ j)%nat →
  s !! i = Some x → s !! j = Some y → x ≤ y ≤ x + Z.of_nat (j - i).
Proof.
  revert i j x y. induction s as [|s0 t IH]; intros i j x y Hd Hij Hi Hj; [done|].
  destruct t as [|s1 t'].
  - destruct i, j; cbn in *; try done. injection Hi as <-. injection Hj as <-. lia.
  - change (np_diff (s0 :: s1 :: t')) with ((s1 - s0) :: np_diff (s1 :: t')) in Hd.
    apply Forall_cons in Hd as [Hd0 Hd].
    destruct i as [|i], j as [|j]; cbn [lookup list_lookup] in Hi, Hj.
    + injection Hi as <-. injection Hj as <-. lia.
    + injection Hi as <-.
      pose proof (IH 0%nat j s1 y Hd ltac:(lia) eq_refl Hj). lia.
    + lia.
    + pose proof (IH i j x y Hd ltac:(lia) Hi Hj). lia.
Qed.

(** The positions at which the 2p frame number changes: the [m]-th of them
    is where the 2p frame number reaches [s0 + m + 1], the stimulus frame
    before it still showing [s0 + m]. *)
Lemma stim_idx_steps01 (s0 : Z) (t : list Z) (off : nat) :
  Forall (λ d, d = 0 ∨ d = 1) (np_diff (s0 :: t)) →
  let L := np_where_from (λ d, negb (d =? 0)) off (np_diff (s0 :: t)) in
  (∀ lst, last (s0 :: t) = Some lst → Z.of_nat (length L) = lst - s0)
  ∧ ∀ m j, L !! m = Some j →
      (off ≤ j)%nat
      ∧ (s0 :: t) !! (j - off)%nat = Some (s0 + Z.of_nat m)
      ∧ (s0 :: t) !! (j - off + 1)%nat = Some (s0 + Z.of_nat m + 1).
Proof.
  revert s0 off. induction t as [|s1 t IH]; intros s0 off Hd L.
  - subst L. cbn. split; [intros lst [= <-]; lia|done].
  - subst L. change (np_diff (s0 :: s1 :: t)) with ((s1 - s0) :: np_diff (s1 :: t)) in *.
    apply Forall_cons in Hd as [Hd0 Hd].
    cbn [np_where_from]. specialize (IH s1 (S off) Hd). cbn zeta in IH.
    destruct IH as [IHl IHm].
    change (last (s0 :: s1 :: t)) with (last (s1 :: t)).
    destruct Hd0 as [Hd0|Hd0].
    + assert (s1 = s0) as -> by lia. rewrite Z.sub_diag. cbn [Z.eqb negb app].
      split; [done|]. intros m j Hm. destruct (IHm m j Hm) as (Hj & H1 & H2).
      split; [lia|].
      replace (j - off)%nat with (S (j - S off)) by lia.
      replace (S (j - S off) + 1)%nat with (S (j - S off + 1)) by lia.
      change ((s0 :: s0 :: t) !! S (j - S off)) with ((s0 :: t) !! (j - S off)%nat).
      change ((s0 :: s0 :: t) !! S (j - S off + 1)) with ((s0 :: t) !! (j - S off + 1)%nat).
      done.
    + assert (s1 = s0 + 1) as -> by lia.
      replace (s0 + 1 - s0) with 1 by lia. cbn [Z.eqb negb app].
      split.
      * intros lst Hlst. cbn [length]. specialize (IHl lst Hlst). lia.
      * intros [|m] j Hm; cbn in Hm.
        -- injection Hm as <-. rewrite Nat.sub_diag. cbn.
           split; [lia|]. split; f_equal; lia.
        -- destruct (IHm m j Hm) as (Hj & H1 & H2). split; [lia|].
           replace (j - off)%nat with (S (j - S off)) by lia.
           replace (S (j - S off) + 1)%nat with (S (j - S off + 1)) by lia.
           change ((s0 :: s0 + 1 :: t) !! S (j - S off))
             with ((s0 + 1 :: t) !! (j - S off)%nat).
           change ((s0 :: s0 + 1 :: t) !! S (j - S off + 1))
             with ((s0 + 1 :: t) !! (j - S off + 1)%nat).
           rewrite H1, H2. split; f_equal; lia.
Qed.


(** X12.  Without dropped stimulus frames the alignment inverts
    [stim2twopfr].  When the 2p frame number grows by 0 or 1 from each
    stimulus frame to the next and all 2p frame numbers lie within the
    recording, [_get_twop2stimfr] succeeds without a warning, and for every 2p
    frame [f] during which a stimulus frame is shown, [twop2stimfr[f]] is the
    first stimulus frame shown during [f]. *)
Theorem get_twop2stimfr_no_drop (stim2twopfr : list Z) (n_twop : nat) (s0 lst : Z) :
  Forall (λ d, d = 0 ∨ d = 1) (np_diff stim2twopfr) →
  head stim2twopfr = Some s0 → last stim2twopfr = Some lst →
  0 ≤ s0 → lst < Z.of_nat n_twop →
  ∃ a, _get_twop2stimfr stim2twopfr n_twop = Ok (a, [])
    ∧ ∀ i f, stim2twopfr !! i = Some f →
        ∃ j, a !! Z.to_nat f = Some (Some (Z.of_nat j))
          ∧ stim2twopfr !! j = Some f
          ∧ (j ≤ i)%nat
          ∧ ∀ j' f', (j' < j)%nat → stim2twopfr !! j' = Some f' → f' < f.
Proof.
  intros Hd Hhead Hlast H0 Hn.
  destruct stim2twopfr as [|s0' t]; [done|]. injection Hhead as ->.
  set (s := s0 :: t) in *.
  pose proof (stim_idx_steps01 s0 t 1 Hd) as [HL Hm]. cbn zeta in HL, Hm.
  specialize (HL lst Hlast). fold s in HL, Hm.
  set (L := np_where_from (λ d, negb (d =? 0)) 1 (np_diff s)) in *.
  assert (s0 ≤ lst) as Hle.
  { rewrite last_lookup in Hlast.
    pose proof (steps01_mono s 0 (pred (length s)) s0 lst Hd ltac:(lia) eq_refl Hlast). lia. }
  unfold _get_twop2stimfr. fold s.
  assert (np_where (λ d, 1 <? d) (1 :: np_diff s) = []) as ->.
  { apply np_where_from_none. constructor; [done|].
    eapply Forall_impl; [exact Hd|]. intros d [-> | ->]; done. }
  assert (np_where (λ d, negb (d =? 0)) (1 :: np_diff s) = 0%nat :: L) as -> by done.
  cbn [length decide]. destruct (decide (0 < 0)%nat) as [?|_]; [lia|].
  cbn [mbind result_bind].
  assert (py_index s 0 = Ok s0) as -> by done.
  assert (py_index s (-1) = Ok lst) as ->.
  { unfold py_index. cbn [Z.ltb Z.compare].
    rewrite last_lookup in Hlast.
    destruct (_ <? 0) eqn:E; [apply Z.ltb_lt in E; cbn [length s] in E; lia|].
    replace (Z.to_nat (-1 + Z.of_nat (length s))) with (pred (length s))
      by (cbn [length s]; lia).
    by rewrite Hlast. }
  cbn [mbind result_bind].
  unfold slice_assign. rewrite length_replicate.
  assert (slice_bound n_twop s0 = Z.to_nat s0) as ->.
  { unfold slice_bound. destruct (s0 <? 0) eqn:E; lia. }
  assert (slice_bound n_twop (lst + 1) = Z.to_nat (lst + 1)) as ->.
  { unfold slice_bound. destruct (lst + 1 <? 0) eqn:E; lia. }
  destruct (decide _) as [_|Hlen]; [|exfalso; apply Hlen; rewrite length_map; cbn [length]; lia].
  eexists. split; [reflexivity|]. intros i f Hi.
  pose proof (steps01_mono s 0 i s0 f Hd ltac:(lia) eq_refl Hi) as [Hf0 _].
  assert (f ≤ lst) as Hfl.
  { rewrite last_lookup in Hlast. pose proof (lookup_lt_Some _ _ _ Hi).
    pose proof (steps01_mono s i (pred (length s)) f lst Hd ltac:(lia) Hi Hlast). lia. }
  assert (∃ j, (0%nat :: L) !! Z.to_nat (f - s0) = Some j
               ∧ s !! j = Some f
               ∧ (j = 0%nat ∨ ∃ f0, s !! (j - 1)%nat = Some f0 ∧ f0 < f ∧ (1 ≤ j)%nat))
    as (j & Hj & Hsj & Hfirst).
  { destruct (Z.to_nat (f - s0)) as [|m] eqn:Em.
    - exists 0%nat. split; [done|]. split; [|by left]. cbn. f_equal. lia.
    - destruct (lookup_lt_is_Some_2 L m) as [j Hj]; [lia|].
      destruct (Hm m j Hj) as (H1 & H2 & H3). exists j. split; [done|].
      replace (j - 1 + 1)%nat with j in H3 by lia. split.
      + rewrite H3. f_equal. lia.
      + right. exists (s0 + Z.of_nat m). split; [done|]. lia. }
  exists j. split_and!.
  - replace (Z.to_nat f) with (Z.to_nat s0 + Z.to_nat (f - s0))%nat by lia.
    rewrite lookup_app_r by (rewrite length_take, length_replicate; lia).
    rewrite length_take, length_replicate.
    replace (Z.to_nat s0 + Z.to_nat (f - s0) - Z.to_nat s0 `min` n_twop)%nat
      with (Z.to_nat (f - s0)) by lia.
    rewrite lookup_app_l.
    + rewrite list_lookup_fmap, Hj. done.
    + rewrite length_map. by apply lookup_lt_Some in Hj.
  - done.
  - destruct Hfirst as [->|(f0 & Hf0' & Hlt & Hj1)]; [lia|].
    destruct (decide (j ≤ i)%nat) as [|Hgt]; [done|]. exfalso.
    pose proof (steps01_mono s i (j - 1) f f0 Hd ltac:(lia) Hi Hf0'). lia.
  - intros j' f' Hj' Hf'. destruct Hfirst as [->|(f0 & Hf0' & Hlt & Hj1)]; [lia|].
    pose proof (steps01_mono s j' (j - 1) f' f0 Hd ltac:(lia) Hf' Hf0'). lia.
Qed.

Lemma get_twop2stimfr_no_drop_witness :
  ∃ a, _get_twop2stimfr [2; 2; 3; 3; 3; 4] 7 = Ok (a, [])
    ∧ ∀ i f, [2; 2; 3; 3; 3; 4] !! i = Some f →
        ∃ j, a !! Z.to_nat f = Some (Some (Z.of_nat j))
          ∧ [2; 2; 3; 3; 3; 4] !! j = Some f
          ∧ (j ≤ i)%nat
          ∧ ∀ j' f', (j' < j)%nat → [2; 2; 3; 3; 3; 4] !! j' = Some f' → f' < f.
Proof.
  apply (get_twop2stimfr_no_drop [2; 2; 3; 3; 3; 4] 7 2 4).
  - cbn. repeat constructor; lia.
  - reflexivity.
  - reflexivity.
  - lia.
  - lia.
Defined.

End Twop2StimfrMore.
(** ** ROI group sets ([sep_grps]) *)

Section RoiGroupSets.
Import SignifGrps Design.

Lemma roi_grps_1tail_shape sign_rois nrois rg :
  roi_grps_1tail sign_rois nrois = Ok rg → ∃ e0 e1 e2 e3, rg = [e0; e1; e2; e3].
Proof.
  unfold roi_grps_1tail.
  destruct (quint_set sign_rois 0) as [s0|]; [|done].
  destruct (quint_set sign_rois 1) as [s1|]; [|done].
  intros [= <-]. eauto.
Qed.

Lemma roi_grps_2tail_shape sign_rois nrois rg :
  roi_grps_2tail sign_rois nrois = Ok rg →
  ∃ e0 e1 e2 e3 e4 e5 e6 e7 e8, rg = [e0; e1; e2; e3; e4; e5; e6; e7; e8].
Proof.
  unfold roi_grps_2tail.
  destruct (quint_tail_set sign_rois 0 1) as [s01|]; [|done].
  destruct (quint_tail_set sign_rois 1 1) as [s11|]; [|done].
  destruct (quint_tail_set sign_rois 1 0) as [s10|]; [|done].
  destruct (quint_tail_set sign_rois 0 0) as [s00|]; [|done].
  intros [= <-]. eauto 10.
Qed.

(** A permutation of two lists written out, found by locating the head of
    the left list in the right one. *)
Ltac perm_cons :=
  first [ refine (Permutation_cons_app [] _ _ _)
        | refine (Permutation_cons_app [_] _ _ _)
        | refine (Permutation_cons_app [_; _] _ _ _)
        | refine (Permutation_cons_app [_; _; _] _ _ _)
        | refine (Permutation_cons_app [_; _; _; _] _ _ _)
        | refine (Permutation_cons_app [_; _; _; _; _] _ _ _)
        | refine (Permutation_cons_app [_; _; _; _; _; _] _ _ _)
        | refine (Permutation_cons_app [_; _; _; _; _; _; _] _ _ _)
        | refine (Permutation_cons_app [_; _; _; _; _; _; _; _] _ _ _) ];
  cbn [app].

Ltac solve_sublist :=
  repeat first [ apply sublist_nil | apply sublist_skip | apply sublist_cons ].

(** X13.  The sets of ROI groups.  When [sep_grps] returns for the set
    'all', it returns for each of the sets 'all', 'change', 'no_change',
    'reduc' and 'incr', with as many names as groups; the groups and names of
    a set are a selection, in their order, of those of 'all', each name still
    paired with its group; with [add_reg] the last group of the selection is
    the group of ROIs significant in neither quintile, 'reg_reg'.  The sets
    'reduc', 'incr' and 'no_change' share no group and together hold all the
    groups, and 'reduc' and 'incr' together make up 'change'.  Any other set
    name makes the call raise: the source hands it to
    [gen_util.accepted_values_error], and had that returned, the unbound
    [grp_ind] would raise next. *)
Theorem sep_grps_sets sign_rois nrois tails all_gs all_names :
  sep_grps sign_rois nrois ["all"%string] tails false = Ok (OneSet all_gs all_names) →
  (∀ g add_reg, g ∈ ["all"; "change"; "no_change"; "reduc"; "incr"]%string →
     ∃ gs names, sep_grps sign_rois nrois [g] tails add_reg = Ok (OneSet gs names)
       ∧ length gs = length names
       ∧ sublist (zip names gs) (zip all_names all_gs)
       ∧ (add_reg = true → last names = Some "reg_reg"%string ∧ last gs = last all_gs))
  ∧ (∃ g1 n1 g2 n2 g3 n3 gc nc,
       sep_grps sign_rois nrois ["reduc"%string] tails false = Ok (OneSet g1 n1)
       ∧ sep_grps sign_rois nrois ["incr"%string] tails false = Ok (OneSet g2 n2)
       ∧ sep_grps sign_rois nrois ["no_change"%string] tails false = Ok (OneSet g3 n3)
       ∧ sep_grps sign_rois nrois ["change"%string] tails false = Ok (OneSet gc nc)
       ∧ zip n1 g1 ++ zip n2 g2 ++ zip n3 g3 ≡ₚ zip all_names all_gs
       ∧ zip n1 g1 ++ zip n2 g2 ≡ₚ zip nc gc)
  ∧ (∀ g add_reg, g ∉ ["all"; "change"; "no_change"; "reduc"; "incr"]%string →
       ∃ e, sep_grps sign_rois nrois [g] tails add_reg = Raise e).
Proof.
  intros Hall.
  assert (∀ g add_reg two n, g ∉ ["all"; "change"; "no_change"; "reduc"; "incr"]%string →
            grp_ind_sel two n (if two then 8 else 3)%nat add_reg g
            = Raise (ValueError
                "grps can only take the values all, change, no_change, reduc, incr")) as Hbad.
  { intros g add_reg two n Hg. unfold grp_ind_sel, grp_ind_of.
    rewrite !not_elem_of_cons in Hg. destruct Hg as (H1 & H2 & H3 & H4 & H5 & _).
    apply String.eqb_neq in H1, H2, H3, H4, H5. by rewrite H1, H2, H3, H4, H5. }
  unfold sep_grps in Hall |- *.
  destruct (String.eqb tails "up" || String.eqb tails "lo") eqn:Hb.
  - destruct (roi_grps_1tail sign_rois nrois) as [rg|] eqn:Hrg; [|done].
    destruct (roi_grps_1tail_shape _ _ _ Hrg) as (e0 & e1 & e2 & e3 & ->).
    vm_compute in Hall. injection Hall as <- <-. split_and!.
    + intros g add_reg Hg.
      repeat (apply elem_of_cons in Hg as [->|Hg]); [..|by apply elem_of_nil in Hg];
        destruct add_reg; vm_compute; eexists _, _;
        (split; [reflexivity|]); (split; [reflexivity|]);
        (split; [solve_sublist|]); done.
    + vm_compute. eexists _, _, _, _, _, _, _, _.
      repeat (split; [reflexivity|]). split; repeat perm_cons; reflexivity.
    + intros g add_reg Hg. cbn [mbind result_bind mapM_res].
      rewrite (Hbad g add_reg false) by done. cbn. eauto.
  - destruct (String.eqb tails "2") eqn:Hb2; [|done].
    destruct (roi_grps_2tail sign_rois nrois) as [rg|] eqn:Hrg; [|done].
    destruct (roi_grps_2tail_shape _ _ _ Hrg)
      as (e0 & e1 & e2 & e3 & e4 & e5 & e6 & e7 & e8 & ->).
    vm_compute in Hall. injection Hall as <- <-. split_and!.
    + intros g add_reg Hg.
      repeat (apply elem_of_cons in Hg as [->|Hg]); [..|by apply elem_of_nil in Hg];
        destruct add_reg; vm_compute; eexists _, _;
        (split; [reflexivity|]); (split; [reflexivity|]);
        (split; [solve_sublist|]); done.
    + vm_compute. eexists _, _, _, _, _, _, _, _.
      repeat (split; [reflexivity|]). split; repeat perm_cons; reflexivity.
    + intros g add_reg Hg. cbn [mbind result_bind mapM_res].
      rewrite (Hbad g add_reg true) by done. cbn. eauto.
Qed.

Lemma sep_grps_sets_witness :
  ∃ all_gs all_names,
    sep_grps [Rois [0; 2]; Rois [2; 3]]%nat 5 ["all"%string] "up" false
      = Ok (OneSet all_gs all_names)
    ∧ (∀ g add_reg, g ∈ ["all"; "change"; "no_change"; "reduc"; "incr"]%string →
         ∃ gs names, sep_grps [Rois [0; 2]; Rois [2; 3]]%nat 5 [g] "up" add_reg
                     = Ok (OneSet gs names)
           ∧ length gs = length names
           ∧ sublist (zip names gs) (zip all_names all_gs)
           ∧ (add_reg = true → last names = Some "reg_reg"%string ∧ last gs = last all_gs))
    ∧ (∃ g1 n1 g2 n2 g3 n3 gc nc,
         sep_grps [Rois [0; 2]; Rois [2; 3]]%nat 5 ["reduc"%string] "up" false
           = Ok (OneSet g1 n1)
         ∧ sep_grps [Rois [0; 2]; Rois [2; 3]]%nat 5 ["incr"%string] "up" false
           = Ok (OneSet g2 n2)
         ∧ sep_grps [Rois [0; 2]; Rois [2; 3]]%nat 5 ["no_change"%string] "up" false
           = Ok (OneSet g3 n3)
         ∧ sep_grps [Rois [0; 2]; Rois [2; 3]]%nat 5 ["change"%string] "up" false
           = Ok (OneSet gc nc)
         ∧ zip n1 g1 ++ zip n2 g2 ++ zip n3 g3 ≡ₚ zip all_names all_gs
         ∧ zip n1 g1 ++ zip n2 g2 ≡ₚ zip nc gc)
    ∧ (∀ g add_reg, g ∉ ["all"; "change"; "no_change"; "reduc"; "incr"]%string →
         ∃ e, sep_grps [Rois [0; 2]; Rois [2; 3]]%nat 5 [g] "up" add_reg = Raise e).
Proof.
  eexists _, _. split; [vm_compute; reflexivity|].
  apply (sep_grps_sets [Rois [0; 2]; Rois [2; 3]]%nat 5 "up").
  vm_compute. reflexivity.
Defined.

End RoiGroupSets.
(** ** Frames of segments *)

Section SegFrames.
Import GenUtil Stim Session StimFrames StimQueries Design.

Lemma np_where_from_shift {A} (p : A → bool) (k : nat) (l : list A) :
  np_where_from p (S k) l = map S (np_where_from p k l).
Proof.
  revert k. induction l as [|x t IH]; intros k; [done|].
  cbn [np_where_from]. rewrite map_app, IH. by destruct (p x).
Qed.

Lemma np_where_from_app {A} (p : A → bool) (k : nat) (l1 l2 : list A) :
  np_where_from p k (l1 ++ l2)
  = np_where_from p k l1 ++ np_where_from p (k + length l1) l2.
Proof.
  revert k. induction l1 as [|x t IH]; intros k.
  - cbn. by rewrite Nat.add_0_r.
  - cbn [app np_where_from length]. rewrite IH, <- app_assoc.
    by replace (S k + length t)%nat with (k + S (length t))%nat by lia.
Qed.

Lemma list_index_np_where (val : Z) (l : list Z) :
  list_index val l =
    match np_where (λ x, bool_decide (x = val)) l with
    | i :: _ => Ok i
    | [] => Raise (ValueError (pretty val +:+ " is not in list"))
    end.
Proof.
  unfold np_where. induction l as [|x t IH]; [done|].
  cbn [list_index np_where_from]. destruct (decide (x = val)) as [->|Hne].
  - by rewrite bool_decide_eq_true_2.
  - rewrite bool_decide_eq_false_2 by done. cbn [app].
    rewrite IH, np_where_from_shift. by destruct (np_where_from _ 0 t).
Qed.

Lemma np_where_rev {A} (p : A → bool) (l : list A) :
  np_where p (rev l) = rev (map (λ j, length l - S j)%nat (np_where p l)).
Proof.
  unfold np_where. induction l as [|x t IH]; [done|].
  cbn [rev np_where_from length]. rewrite np_where_from_app, IH, length_rev.
  rewrite np_where_from_shift, map_app, rev_app_distr, map_map. cbn [Nat.add].
  f_equal. cbn [np_where_from]. destruct (p x); cbn; [|done]. f_equal. lia.
Qed.

Lemma head_rev {A} (l : list A) : head (rev l) = last l.
Proof. rewrite rev_alt. apply head_reverse. Qed.

Lemma np_where_lt {A} (p : A → bool) (l : list A) (i : nat) :
  i ∈ np_where p l → (i < length l)%nat.
Proof. intros (x & Hx & _)%elem_of_np_where. by apply lookup_lt_Some in Hx. Qed.

(** The first and the last position of a value that occurs in the list, as
    [index] finds them in the list and in its reversal. *)
Lemma list_index_first_last (val : Z) (l : list Z) :
  val ∈ l →
  ∃ i j, np_where (λ x, bool_decide (x = val)) l !! 0%nat = Some i
    ∧ last (np_where (λ x, bool_decide (x = val)) l) = Some j
    ∧ list_index val l = Ok i
    ∧ (j < length l)%nat
    ∧ list_index val (rev l) = Ok (length l - S j)%nat.
Proof.
  intros Hin. apply list_elem_of_lookup in Hin as [k Hk].
  assert (k ∈ np_where (λ x, bool_decide (x = val)) l) as HP.
  { apply elem_of_np_where. exists val. by rewrite bool_decide_eq_true_2. }
  rewrite !list_index_np_where, np_where_rev.
  set (P := np_where (λ x, bool_decide (x = val)) l) in *.
  destruct (last P) as [j|] eqn:Hlast.
  2:{ apply last_None in Hlast. rewrite Hlast in HP. by apply elem_of_nil in HP. }
  assert (j < length l)%nat as Hj.
  { apply (np_where_lt (λ x, bool_decide (x = val))). fold P.
    apply last_Some in Hlast as [P' ->]. apply elem_of_app. right. left. }
  destruct P as [|i P'] eqn:EP; [by apply elem_of_nil in HP|].
  exists i, j. split_and!; [done..|].
  pose proof (head_rev (map (λ j0, length l - S j0)%nat (i :: P'))) as Hh.
  change (map ?f ?l) with (f <$> l) in Hh.
  rewrite fmap_last, Hlast in Hh. cbn [fmap option_fmap option_map] in Hh.
  destruct (rev _) as [|h tl]; [done|]. cbn in Hh. by injection Hh as ->.
Qed.

Lemma mapM_res_ext {A B} (f : A → result B) (g : A → B) (l : list A) :
  (∀ x, x ∈ l → f x = Ok (g x)) → mapM_res f l = Ok (map g l).
Proof.
  induction l as [|x t IH]; intros H; [done|].
  cbn [mapM_res map]. rewrite (H x) by left. rewrite IH; [done|].
  intros y Hy. apply H. by right.
Qed.

Lemma mapM_res_raises {A B} (f : A → result B) (l : list A) (P : exn → Prop) :
  (∀ x, x ∈ l → (∃ e, f x = Raise e ∧ P e) ∨ ∃ y, f x = Ok y) →
  (∃ x, x ∈ l ∧ ∃ e, f x = Raise e) →
  ∃ e, mapM_res f l = Raise e ∧ P e.
Proof.
  induction l as [|x t IH]; intros H [x0 [Hx0 [e0 Hr]]]; [by apply elem_of_nil in Hx0|].
  cbn [mapM_res]. destruct (H x) as [(e & -> & He)|[y Hy]]; [left|by exists e|].
  rewrite Hy. destruct IH as (e & -> & He).
  - intros z Hz. apply H. by right.
  - apply elem_of_cons in Hx0 as [->|Hx0]; [congruence|eauto].
  - by exists e.
Qed.

(** X14.  The three modes of [get_stim_fr_by_seg] agree.  When every
    segment of [seglist] occurs in [stim_seg_list], the calls with [first],
    with [last] and with both return, through [delist_if_not], lists of first
    and of last frames such that for each segment the first frame is the
    first, and the last frame the last, of the frames the default mode returns
    for it, which are exactly the stimulus frames showing the segment.  For a
    segment that does not occur, the default mode returns an empty list of
    frames, and the modes [first] and [last] raise ValueError. *)
Theorem get_stim_fr_by_seg_modes (Frames : Type) (delist_if_not : list (list Z) → Frames)
    (stim_seg_list seglist : list Z) :
  ((∀ v, v ∈ seglist → v ∈ stim_seg_list) →
   ∃ firsts lasts,
     get_stim_fr_by_seg Frames delist_if_not stim_seg_list seglist true true
       = Ok (Delisted Frames (delist_if_not [firsts; lasts]))
     ∧ get_stim_fr_by_seg Frames delist_if_not stim_seg_list seglist true false
       = Ok (Delisted Frames (delist_if_not [firsts]))
     ∧ get_stim_fr_by_seg Frames delist_if_not stim_seg_list seglist false true
       = Ok (Delisted Frames (delist_if_not [lasts]))
     ∧ get_stim_fr_by_seg Frames delist_if_not stim_seg_list seglist false false
       = Ok (PerSeg Frames (all_frames stim_seg_list seglist))
     ∧ ∀ k v, seglist !! k = Some v →
         ∃ f l a, firsts !! k = Some f ∧ lasts !! k = Some l
           ∧ all_frames stim_seg_list seglist !! k = Some a
           ∧ head a = Some f ∧ last a = Some l
           ∧ ∀ x, x ∈ a ↔ 0 ≤ x ∧ stim_seg_list !! Z.to_nat x = Some v)
  ∧ (∀ v, v ∈ seglist → v ∉ stim_seg_list →
       [] ∈ all_frames stim_seg_list seglist
       ∧ ∀ first last, first || last = true →
           ∃ msg, get_stim_fr_by_seg Frames delist_if_not stim_seg_list seglist first last
                  = Raise (ValueError msg)).
Proof.
  split.
  - intros Hin.
    set (P := λ v, np_where (λ x, bool_decide (x = v)) stim_seg_list).
    set (firsts := map (λ v, Z.of_nat (default 0%nat (head (P v)))) seglist).
    set (lasts := map (λ v, Z.of_nat (default 0%nat (last (P v)))) seglist).
    assert (first_frames stim_seg_list seglist = Ok firsts) as Hf.
    { apply mapM_res_ext. intros v Hv.
      destruct (list_index_first_last v stim_seg_list (Hin v Hv))
        as (i & j & Hi & _ & -> & _). cbn. unfold P. by rewrite head_lookup, Hi. }
    assert (last_frames stim_seg_list seglist = Ok lasts) as Hl.
    { apply mapM_res_ext. intros v Hv.
      destruct (list_index_first_last v stim_seg_list (Hin v Hv))
        as (i & j & _ & Hj & _ & Hlt & ->). cbn. unfold P. rewrite Hj, length_rev. cbn.
      f_equal. lia. }
    exists firsts, lasts. unfold get_stim_fr_by_seg. rewrite Hf, Hl.
    split_and!; [done..|].
    intros k v Hk.
    destruct (list_index_first_last v stim_seg_list) as (i & j & Hi & Hj & _);
      [apply Hin; by eapply list_elem_of_lookup_2|].
    exists (Z.of_nat i), (Z.of_nat j), (map Z.of_nat (P v)).
    unfold firsts, lasts, all_frames. rewrite !list_lookup_fmap, Hk. cbn.
    fold (P v). rewrite head_lookup. unfold P at 1 2. rewrite Hi, Hj. cbn.
    split_and!; [done..| | |].
    + rewrite head_lookup, list_lookup_fmap. unfold P. by rewrite Hi.
    + rewrite fmap_last. unfold P. by rewrite Hj.
    + intros x. rewrite list_elem_of_fmap. unfold P. split.
      * intros (n & -> & Hn). apply elem_of_np_where in Hn as (y & Hy & Hp).
        apply bool_decide_eq_true in Hp as ->. split; [lia|]. by rewrite Nat2Z.id.
      * intros [Hx Hv]. exists (Z.to_nat x). split; [lia|].
        apply elem_of_np_where. exists v. by rewrite bool_decide_eq_true_2.
  - intros v Hv Hnot.
    assert (np_where (λ x, bool_decide (x = v)) stim_seg_list = []) as Hnil.
    { destruct (np_where _ _) as [|i P'] eqn:E; [done|]. exfalso. apply Hnot.
      assert (i ∈ np_where (λ x, bool_decide (x = v)) stim_seg_list) as Hi
        by (rewrite E; left).
      apply elem_of_np_where in Hi as (y & Hy & Hp).
      apply bool_decide_eq_true in Hp as ->. by eapply list_elem_of_lookup_2. }
    assert (∀ l u, (∃ e, list_index u l = Raise e ∧ ∃ msg, e = ValueError msg)
                   ∨ ∃ y, list_index u l = Ok y) as Hcases.
    { intros l u. rewrite list_index_np_where. destruct (np_where _ l); eauto. }
    assert (∃ e, first_frames stim_seg_list seglist = Raise e ∧ ∃ msg, e = ValueError msg)
      as (ef & Hf & msgf & ->).
    { apply mapM_res_raises.
      - intros u _. destruct (Hcases stim_seg_list u) as [(e & -> & He)|[y ->]]; cbn; eauto.
      - exists v. split; [done|]. rewrite list_index_np_where, Hnil. cbn. eauto. }
    assert (∃ e, last_frames stim_seg_list seglist = Raise e ∧ ∃ msg, e = ValueError msg)
      as (el & Hl & msgl & ->).
    { apply mapM_res_raises.
      - intros u _. destruct (Hcases (rev stim_seg_list) u) as [(e & -> & He)|[y ->]];
          cbn; eauto.
      - exists v. split; [done|]. rewrite list_index_np_where, np_where_rev, Hnil. cbn. eauto. }
    split.
    + unfold all_frames. apply list_elem_of_fmap. exists v. by rewrite Hnil.
    + intros first last Hfl. unfold get_stim_fr_by_seg.
      destruct first, last; try done; cbn [negb andb]; rewrite ?Hf, ?Hl; cbn; eauto.
Qed.

Lemma get_stim_fr_by_seg_modes_witness :
  (∃ firsts lasts,
     get_stim_fr_by_seg _ (λ x, x) [-1; 0; 0; 1; 1; 1; -1] [1; 0] true true
       = Ok (Delisted _ [firsts; lasts])
     ∧ get_stim_fr_by_seg _ (λ x, x) [-1; 0; 0; 1; 1; 1; -1] [1; 0] true false
       = Ok (Delisted _ [firsts])
     ∧ get_stim_fr_by_seg _ (λ x, x) [-1; 0; 0; 1; 1; 1; -1] [1; 0] false true
       = Ok (Delisted _ [lasts])
     ∧ get_stim_fr_by_seg _ (λ x, x) [-1; 0; 0; 1; 1; 1; -1] [1; 0] false false
       = Ok (PerSeg _ (all_frames [-1; 0; 0; 1; 1; 1; -1] [1; 0]))
     ∧ ∀ k v, [1; 0] !! k = Some v →
         ∃ f l a, firsts !! k = Some f ∧ lasts !! k = Some l
           ∧ all_frames [-1; 0; 0; 1; 1; 1; -1] [1; 0] !! k = Some a
           ∧ head a = Some f ∧ last a = Some l
           ∧ ∀ x, x ∈ a ↔ 0 ≤ x ∧ [-1; 0; 0; 1; 1; 1; -1] !! Z.to_nat x = Some v)
  ∧ ([] ∈ all_frames [-1; 0; 0; 1; 1; 1; -1] [1; 7]
     ∧ ∀ first last, first || last = true →
         ∃ msg, get_stim_fr_by_seg _ (λ x, x) [-1; 0; 0; 1; 1; 1; -1] [1; 7] first last
                = Raise (ValueError msg)).
Proof.
  split.
  - apply (proj1 (get_stim_fr_by_seg_modes _ (λ x, x) [-1; 0; 0; 1; 1; 1; -1] [1; 0])).
    intros v Hv. apply list_elem_of_In. apply list_elem_of_In in Hv.
    cbn in Hv |- *. intuition lia.
  - apply (proj2 (get_stim_fr_by_seg_modes _ (λ x, x) [-1; 0; 0; 1; 1; 1; -1] [1; 7]) 7).
    + apply list_elem_of_In. cbn. tauto.
    + intros Hv. apply list_elem_of_In in Hv. cbn in Hv. intuition lia.
Defined.


Lemma elem_of_arange (a b x : Z) : x ∈ arange a b ↔ a ≤ x < b.
Proof.
  unfold arange. rewrite list_elem_of_fmap. split.
  - intros (k & -> & Hk). apply elem_of_seq in Hk. lia.
  - intros Hx. exists (Z.to_nat (x - a)). split; [lia|]. apply elem_of_seq. lia.
Qed.

Lemma arange_head_last (a b : Z) :
  a < b → head (arange a b) = Some a ∧ last (arange a b) = Some (b - 1).
Proof.
  intros Hab. unfold arange.
  destruct (Z.to_nat (b - a)) as [|n] eqn:E; [lia|]. split.
  - cbn. f_equal. lia.
  - change (map ?f ?l) with (f <$> l). rewrite fmap_last.
    replace (S n) with (n + 1)%nat by lia. rewrite seq_app. cbn [seq].
    rewrite last_snoc. cbn. f_equal. lia.
Qed.

(** X15.  The 2p frames of segments are those of the matching rows of the
    table, in the order of the table: [get_twop_fr_by_seg] returns the same
    for any two lists holding the same segments, whatever their order and
    repetitions.  In the default mode it returns one list per matching row,
    holding the frames from [start2pfr] up to and excluding [end2pfr]; the
    frame returned for the row with [last] is [end2pfr] itself, which is never
    one of these frames but, for a row with frames, one more than the last of
    them. *)
Theorem get_twop_fr_by_seg_rows (Frames : Type) (delist_if_not : list (list Z) → Frames)
    (st : stim) (seglist : list Z) :
  (∀ seglist' first last, (∀ x, x ∈ seglist ↔ x ∈ seglist') →
     get_twop_fr_by_seg Frames delist_if_not st seglist' first last
     = get_twop_fr_by_seg Frames delist_if_not st seglist first last)
  ∧ get_twop_fr_by_seg Frames delist_if_not st seglist true true
    = Delisted Frames (delist_if_not [map start2pfr (seg_rows st seglist);
                                      map end2pfr (seg_rows st seglist)])
  ∧ ∃ frames,
      get_twop_fr_by_seg Frames delist_if_not st seglist false false = PerSeg Frames frames
      ∧ length frames = length (seg_rows st seglist)
      ∧ ∀ k r, seg_rows st seglist !! k = Some r →
          r ∈ stim_df st ∧ stimSeg r ∈ seglist
          ∧ ∃ a, frames !! k = Some a
              ∧ (∀ x, x ∈ a ↔ start2pfr r ≤ x < end2pfr r)
              ∧ (end2pfr r ∉ a)
              ∧ (a ≠ [] → head a = Some (start2pfr r) ∧ last a = Some (end2pfr r - 1)).
Proof.
  split_and!.
  - intros seglist' first last Hsame.
    assert (seg_rows st seglist' = seg_rows st seglist) as Hrows.
    { unfold seg_rows. apply list_filter_iff. intros r. by rewrite Hsame. }
    unfold get_twop_fr_by_seg. by rewrite Hrows.
  - done.
  - eexists. split; [reflexivity|]. split; [by rewrite length_map|].
    intros k r Hk. split_and!.
    + apply list_elem_of_lookup_2 in Hk. by apply list_elem_of_filter in Hk as [_ ?].
    + apply list_elem_of_lookup_2 in Hk. by apply list_elem_of_filter in Hk as [[_ ?] _].
    + exists (arange (start2pfr r) (end2pfr r)).
      change (map ?f ?l) with (f <$> l). rewrite list_lookup_fmap, Hk.
      split_and!; [done|apply elem_of_arange| |].
      * rewrite elem_of_arange. lia.
      * intros Hne. apply arange_head_last.
        destruct (decide (start2pfr r < end2pfr r)) as [|Hge]; [done|].
        exfalso. apply Hne. unfold arange.
        by replace (Z.to_nat (end2pfr r - start2pfr r)) with 0%nat by lia.
Qed.

Lemma get_twop_fr_by_seg_rows_witness :
  get_twop_fr_by_seg _ (λ x, x) gab_stim [7; 3; 3] true false
  = get_twop_fr_by_seg _ (λ x, x) gab_stim [3; 7] true false.
Proof.
  apply (proj1 (get_twop_fr_by_seg_rows _ (λ x, x) gab_stim [3; 7])).
  intros x. rewrite !elem_of_cons, elem_of_nil. tauto.
Defined.


Lemma sorted_lt_ext (l1 l2 : list Z) :
  StronglySorted Z.lt l1 → StronglySorted Z.lt l2 → (∀ x, x ∈ l1 ↔ x ∈ l2) → l1 = l2.
Proof.
  revert l2. induction l1 as [|x t1 IH]; intros l2 H1 H2 Hsame.
  - destruct l2 as [|y t2]; [done|]. exfalso. eapply elem_of_nil, Hsame. left.
  - destruct l2 as [|y t2]; [exfalso; eapply elem_of_nil, Hsame; left|].
    apply StronglySorted_inv in H1 as [H1 Hx]. apply StronglySorted_inv in H2 as [H2 Hy].
    rewrite Forall_forall in Hx, Hy.
    assert (x = y) as ->.
    { pose proof (proj1 (Hsame x) ltac:(left)) as Hxin.
      pose proof (proj2 (Hsame y) ltac:(left)) as Hyin.
      apply elem_of_cons in Hxin as [?|Hxin]; [done|].
      apply elem_of_cons in Hyin as [?|Hyin]; [done|].
      apply Hy in Hxin. apply Hx in Hyin. lia. }
    f_equal. apply IH; [done..|]. intros z. split; intros Hz.
    + pose proof (proj1 (Hsame z) ltac:(by right)) as Hz'.
      apply elem_of_cons in Hz' as [->|?]; [|done]. apply Hx in Hz. lia.
    + pose proof (proj2 (Hsame z) ltac:(by right)) as Hz'.
      apply elem_of_cons in Hz' as [->|?]; [|done]. apply Hy in Hz. lia.
Qed.

Lemma sorted_le_NoDup_lt (l : list Z) :
  StronglySorted Z.le l → NoDup l → StronglySorted Z.lt l.
Proof.
  induction 1 as [|x l Hs IH Hall]; intros Hnd; [constructor|].
  apply NoDup_cons in Hnd as [Hx Hnd]. constructor; [by apply IH|].
  rewrite Forall_forall in Hall |- *. intros y Hy.
  pose proof (Hall y Hy). assert (x ≠ y) by (by intros ->). lia.
Qed.

Lemma sorted_unique_segs (segs : list Z) :
  StronglySorted Z.lt (merge_sort Z.le (remove_dups segs))
  ∧ ∀ x, x ∈ merge_sort Z.le (remove_dups segs) ↔ x ∈ segs.
Proof.
  pose proof (merge_sort_Permutation Z.le (remove_dups segs)) as Hperm.
  split.
  - assert (NoDup (merge_sort Z.le (remove_dups segs))) as Hnd.
    { rewrite Hperm. apply NoDup_remove_dups. }
    apply sorted_le_NoDup_lt; [|done].
    apply (StronglySorted_merge_sort Z.le).
  - intros x. rewrite Hperm. apply elem_of_remove_dups.
Qed.

(** X16.  [get_n_twop_fr_by_seg] returns, in the order in which they were
    passed and with the repetitions, the number of 2p frames of each segment:
    when the rows of the stimulus appear in the table in ascending order of
    their segment numbers and every segment passed has a row, the call does
    not raise and the [k]-th number returned is the [num2pfr] of the row of
    the [k]-th segment passed. *)
Theorem get_n_twop_fr_by_seg_correct (st : stim) (segs : list Z) :
  segs_ascending st →
  (∀ s, s ∈ segs →
     ∃ r, r ∈ stim_df st ∧ stimType r = first_char (stimtype st) ∧ stimSeg r = s) →
  ∃ ns, get_n_twop_fr_by_seg st segs = Ok ns
    ∧ length ns = length segs
    ∧ ∀ k s, segs !! k = Some s →
        ∃ r, r ∈ stim_df st ∧ stimType r = first_char (stimtype st)
          ∧ stimSeg r = s ∧ ns !! k = Some (num2pfr r).
Proof.
  intros Hasc Hrows. unfold get_n_twop_fr_by_seg.
  destruct (sorted_unique_segs segs) as [HU HUin].
  set (U := merge_sort Z.le (remove_dups segs)) in *.
  assert (map stimSeg (seg_rows st U) = U) as Hsegs.
  { apply sorted_lt_ext; [|done|].
    - eapply StronglySorted_sublist; [|exact Hasc].
      unfold seg_rows.
      rewrite (filter_filter_impl _ (λ r, stimType r = first_char (stimtype st)))
        by (by intros r [? _]).
      apply fmap_sublist, sublist_filter.
    - intros x. rewrite list_elem_of_fmap. unfold seg_rows. split.
      + intros (r & -> & Hr). by apply list_elem_of_filter in Hr as [[_ ?] _].
      + intros Hx. destruct (Hrows x) as (r & Hr & Hty & Hseg); [by apply HUin|].
        exists r. split; [done|]. apply list_elem_of_filter. by rewrite Hseg. }
  assert (∀ s, s ∈ segs →
            ∃ i r, list_index s U = Ok i ∧ seg_rows st U !! i = Some r ∧ stimSeg r = s)
    as Hidx.
  { intros s Hs. apply HUin in Hs.
    destruct (list_index_first_last s U Hs) as (i & _ & Hi & _ & Hli & _).
    assert (U !! i = Some s) as HUi.
    { apply list_elem_of_lookup_2, elem_of_np_where in Hi as (y & Hy & Hp).
      by apply bool_decide_eq_true in Hp as ->. }
    rewrite <- Hsegs in HUi. change (map ?f ?l) with (f <$> l) in HUi.
    rewrite list_lookup_fmap in HUi.
    destruct (seg_rows st U !! i) as [r|] eqn:Hr; [|done].
    injection HUi as Hseg. eauto. }
  set (g := λ s, match list_index s U with
                 | Ok i => default 0 (map num2pfr (seg_rows st U) !! i)
                 | Raise _ => 0
                 end).
  exists (map g segs). split_and!.
  - apply mapM_res_ext. intros s Hs. destruct (Hidx s Hs) as (i & r & Hi & Hr & _).
    unfold g. rewrite Hi. cbn [mbind result_bind].
    change (map ?f ?l) with (f <$> l). by rewrite list_lookup_fmap, Hr.
  - by rewrite length_map.
  - intros k s Hk.
    destruct (Hidx s) as (i & r & Hi & Hr & Hseg); [by eapply list_elem_of_lookup_2|].
    exists r. pose proof Hr as Hin.
    apply list_elem_of_lookup_2, list_elem_of_filter in Hin as [[Hty _] Hin]. split_and!; [done..|].
    change (map ?f ?l) with (f <$> l). rewrite list_lookup_fmap, Hk. cbn.
    unfold g. rewrite Hi. change (map ?f ?l) with (f <$> l).
    by rewrite list_lookup_fmap, Hr.
Qed.

Lemma get_n_twop_fr_by_seg_correct_witness :
  ∃ ns, get_n_twop_fr_by_seg gab_stim [7; 3; 7] = Ok ns
    ∧ length ns = length [7; 3; 7]
    ∧ ∀ k s, [7; 3; 7] !! k = Some s →
        ∃ r, r ∈ stim_df gab_stim ∧ stimType r = first_char (stimtype gab_stim)
          ∧ stimSeg r = s ∧ ns !! k = Some (num2pfr r).
Proof.
  apply (get_n_twop_fr_by_seg_correct gab_stim [7; 3; 7]).
  - apply gab_stim_ascending.
  - intros s Hs. exists (gab_row s).
    rewrite !elem_of_cons, elem_of_nil in Hs.
    split; [|split; reflexivity].
    apply list_elem_of_In. destruct Hs as [->|[->|[->|[]]]]; vm_compute; tauto.
Defined.

End SegFrames.
(** ** Quintiles: sampling and any number of quintiles *)

Section QuintilesMore.
Import GenUtil Stim QuintAnalys Design.

Lemma lookup_map {A B} (f : A → B) (l : list A) (k : nat) :
  map f l !! k = f <$> l !! k.
Proof. exact (list_lookup_fmap f l k). Qed.

Lemma mapM_res_lookup {A B} (f : A → result B) (l : list A) (ys : list B) :
  mapM_res f l = Ok ys →
  length ys = length l
  ∧ ∀ k x, l !! k = Some x → ∃ y, ys !! k = Some y ∧ f x = Ok y.
Proof.
  revert ys. induction l as [|x t IH]; intros ys; cbn [mapM_res].
  - intros [= <-]. done.
  - destruct (f x) as [y|] eqn:Hy; [|done].
    destruct (mapM_res f t) as [ys'|]; [|done]. intros [= <-].
    destruct (IH ys' eq_refl) as [Hl Hk]. split; [cbn; by rewrite Hl|].
    intros [|k] x'; cbn; [intros [= <-]; eauto|apply Hk].
Qed.

Lemma elem_of_slice {A} (i j : nat) (l : list A) (x : A) : x ∈ slice i j l → x ∈ l.
Proof.
  unfold slice. intros Hx.
  eapply elem_of_sublist; [|apply sublist_drop].
  eapply elem_of_sublist; [exact Hx|apply sublist_take].
Qed.

Lemma random_choice_elem (rand_pos : list Z → nat) (a : list Z) (x : Z) :
  random_choice rand_pos a = Ok x → x ∈ a.
Proof.
  unfold random_choice. destruct a as [|y t]; [done|].
  set (a := y :: t). intros H.
  assert (∀ u v : Z, Ok u = Ok v → u = v) as Hinj by (by intros ?? [= ->]).
  apply Hinj in H as <-.
  apply nth_elem_of. apply Nat.mod_upper_bound. done.
Qed.

Lemma samp_runs_elem (rand_pos : list Z → nat) (flat : list Z) (seg_pre seg_post : Z)
    (ns : list nat) (i : nat) (acc res : list Z) :
  samp_runs rand_pos flat seg_pre seg_post ns i acc = Ok res →
  (∀ x, x ∈ acc → x ∈ flat) → (length res ≤ length acc + length ns)%nat
  ∧ ∀ x, x ∈ res → x ∈ flat.
Proof.
  revert i acc. induction ns as [|n ns IH]; intros i acc; cbn [samp_runs].
  - intros [= <-] Hacc. split; [lia|done].
  - destruct (list_min _) as [lo|]; [|done]. cbn [mbind result_bind].
    destruct (list_max _) as [hi|]; [|done]. cbn [mbind result_bind].
    destruct (_ <? _).
    + destruct (random_choice _ _) as [s|] eqn:Hs; [|done]. cbn [mbind result_bind].
      intros Hres Hacc. apply IH in Hres as [Hlen Hres].
      * split; [|done]. rewrite length_app in Hlen. cbn in Hlen |- *. lia.
      * intros x [Hx|Hx]%elem_of_app; [by apply Hacc|].
        apply list_elem_of_singleton in Hx as ->.
        apply random_choice_elem, list_elem_of_filter in Hs as [_ Hs].
        by eapply elem_of_slice.
    + intros Hres Hacc. apply IH in Hres as [Hlen Hres]; [|done]. split; [cbn; lia|done].
Qed.

(** X17.  What [samp_quint_segs] samples.  When it returns, there is one
    list of samples and one count per quintile, the counts being the lengths
    of the lists; every sample is one of the segments passed and lies between
    the smallest segment of its quintile and, excluded, the largest one, so
    that the largest segment of a quintile is never among its samples; and no
    quintile passed was empty. *)
Theorem samp_quint_segs_samples (rand_pos : list Z → nat) (qu_segs : list (list Z))
    (seg_pre seg_post : Z) (qu_samp_segs : list (list Z)) (qu_counts : list nat) :
  samp_quint_segs rand_pos qu_segs seg_pre seg_post = Ok (qu_samp_segs, qu_counts) →
  length qu_samp_segs = length qu_segs
  ∧ qu_counts = map (λ s, length s) qu_samp_segs
  ∧ Forall (λ sub_segs, sub_segs ≠ []) qu_segs
  ∧ ∀ k sub_segs samp x,
      qu_segs !! k = Some sub_segs → qu_samp_segs !! k = Some samp → x ∈ samp →
      x ∈ concat qu_segs
      ∧ ∃ lo hi, list_min sub_segs = Ok lo ∧ list_max sub_segs = Ok hi
          ∧ lo ≤ x < hi ∧ x ≠ hi.
Proof.
  unfold samp_quint_segs.
  destruct (list_min _) as [d|]; [|done]. cbn [mbind result_bind].
  destruct (negb _); [done|].
  destruct (consec _ _) as [all_segs n_consec].
  destruct (samp_runs _ _ _ _ _ _ _) as [samp_segs|] eqn:Hsamp; [|done].
  cbn [mbind result_bind].
  destruct (mapM_res _ _) as [qs|] eqn:Hqs; [|done]. cbn [mbind result_bind].
  intros [= <- <-].
  apply samp_runs_elem in Hsamp as [_ Hsamp]; [|by intros x ?%elem_of_nil].
  apply mapM_res_lookup in Hqs as [Hlen Hk].
  split_and!; [done..| |].
  - apply Forall_forall. intros sub Hsub.
    apply list_elem_of_lookup in Hsub as [k Hsub]. destruct (Hk k sub Hsub) as (y & _ & Hy).
    destruct sub; [done|done].
  - intros k sub samp x Hsub Hs Hx.
    destruct (Hk k sub Hsub) as (y & Hy & Hf). rewrite Hs in Hy. injection Hy as <-.
    destruct (list_min sub) as [lo|]; [|done]. cbn [mbind result_bind] in Hf.
    destruct (list_max sub) as [hi|]; [|done]. cbn [mbind result_bind] in Hf.
    injection Hf as <-. apply list_elem_of_filter in Hx as [Hr Hx].
    split; [by apply Hsamp|]. exists lo, hi.
    unfold in_range in Hr. apply andb_true_iff in Hr as [H1 H2].
    split_and!; try done; lia.
Qed.

Lemma samp_quint_segs_samples_witness :
  length [[1]; [11]] = length [[0; 1; 2; 3]; [10; 11; 12; 13; 14]]
  ∧ [1; 1]%nat = map (λ s, length s) [[1]; [11]]
  ∧ Forall (λ sub_segs, sub_segs ≠ []) [[0; 1; 2; 3]; [10; 11; 12; 13; 14]]
  ∧ ∀ k sub_segs samp x,
      [[0; 1; 2; 3]; [10; 11; 12; 13; 14]] !! k = Some sub_segs →
      [[1]; [11]] !! k = Some samp → x ∈ samp →
      x ∈ concat [[0; 1; 2; 3]; [10; 11; 12; 13; 14]]
      ∧ ∃ lo hi, list_min sub_segs = Ok lo ∧ list_max sub_segs = Ok hi
          ∧ lo ≤ x < hi ∧ x ≠ hi.
Proof.
  apply (samp_quint_segs_samples (λ _, 0%nat) [[0; 1; 2; 3]; [10; 11; 12; 13; 14]] 1 1).
  vm_compute. reflexivity.
Defined.


(** The bin test as a comparison of integers, for any positive number of
    quintiles. *)
Lemma in_quint_pos (n d seg_min q seg : Z) :
  0 < n →
  in_quint (Fin (inject_Z d / inject_Z n)) seg_min q seg = true ↔
    q * d ≤ n * (seg - seg_min) ∧ n * (seg - seg_min) < (q + 1) * d.
Proof.
  intros Hn. rewrite in_quint_Fin.
  destruct n as [|p|p]; [lia| |lia].
  unfold Qle, Qlt, Qdiv, Qmult, Qinv, Qplus, inject_Z. cbn.
  rewrite ?Pos.mul_1_r, ?Z.mul_1_r. nia.
Qed.

Lemma elem_of_range (n q : Z) : q ∈ range n ↔ 0 ≤ q < n.
Proof.
  unfold range. rewrite list_elem_of_fmap. split.
  - intros (k & -> & Hk). apply elem_of_seq in Hk. lia.
  - intros Hq. exists (Z.to_nat q). split; [lia|]. apply elem_of_seq. lia.
Qed.

Lemma range_lookup (n : Z) (i : nat) (q : Z) : range n !! i = Some q → q = Z.of_nat i.
Proof.
  unfold range. change (map ?f ?l) with (f <$> l). rewrite list_lookup_fmap.
  destruct (seq 0 (Z.to_nat n) !! i) as [k|] eqn:Hk; [|done].
  apply lookup_seq in Hk as [-> _]. by intros [= <-].
Qed.

Lemma NoDup_range (n : Z) : NoDup (range n).
Proof.
  unfold range. apply NoDup_fmap_2; [|apply NoDup_seq]. intros a b. lia.
Qed.

(** Filters of which each element passes exactly one split the list. *)
Lemma concat_filter_partition {A} (p : Z → A → bool) (Q : list Z) (l : list A) :
  NoDup Q →
  (∀ x, x ∈ l → ∃ q, q ∈ Q ∧ ∀ q', q' ∈ Q → (p q' x = true ↔ q' = q)) →
  concat (map (λ q, filter (λ x, p q x = true) l) Q) ≡ₚ l.
Proof.
  intros HQ. induction l as [|x t IH]; intros H.
  - clear H HQ. induction Q as [|q Q' IHQ]; [done|]. cbn. apply IHQ.
  - pose proof (IH (λ y Hy, H y (list_elem_of_further _ _ _ Hy))) as IH'.
    transitivity (x :: concat (map (λ q, filter (λ x, p q x = true) t) Q));
      [|by constructor].
    destruct (H x (list_elem_of_here _ _)) as (q0 & Hq0 & Hone). clear IH IH' H.
    assert (∀ Q', (∀ q, q ∈ Q' → p q x ≠ true) →
              concat (map (λ q, filter (λ x, p q x = true) (x :: t)) Q')
              = concat (map (λ q, filter (λ x, p q x = true) t) Q')) as Hnone.
    { induction Q' as [|q Q' IHQ]; intros Hno; [done|]. cbn [map concat].
      rewrite (filter_cons_False (λ x, p q x = true)) by (apply Hno; left).
      rewrite IHQ; [done|]. intros q' Hq'. apply Hno. by right. }
    induction Q as [|q Q' IHQ]; [by apply elem_of_nil in Hq0|].
    apply NoDup_cons in HQ as [Hq HQ]. cbn [map concat].
    destruct (decide (q = q0)) as [->|Hne].
    + rewrite (filter_cons_True (λ x, p q0 x = true)) by (apply Hone; [left|done]).
      rewrite Hnone; [done|]. intros q' Hq' Hp.
      apply Hone in Hp; [|by right]. congruence.
    + rewrite (filter_cons_False (λ x, p q x = true)).
      2:{ intros Hp. apply Hone in Hp; [done|left]. }
      rewrite IHQ; [by rewrite Permutation_middle|done| |].
      * by apply elem_of_cons in Hq0 as [?|?].
      * intros q' Hq'. apply Hone. by right.
Qed.

(** X18.  The quintiles partition the segments for any number of
    quintiles.  For a gabor or brick stimulus whose criteria match some
    segment and any [n_quints > 0], the call with all quintiles retained
    returns [n_quints] lists whose concatenation is a rearrangement of the
    segments that fit the criteria, no segment being in two quintiles, and
    the counts are the lengths of the lists. *)
Theorem quint_segs_partition_any (pos_idx : list Z → Z → result (list Z)) (st : stim)
    (stimpar : StimPar) (n : Z) (surp : crit Z) (empty_ok remconsec : bool)
    (segs : list Z) :
  0 < n →
  stimtype st = "gabors"%string ∨ stimtype st = "bricks"%string →
  get_segs_by_criteria st (crit_seg_args stimpar surp remconsec) = Ok (BySeg segs) →
  ∃ qs, quint_segs pos_idx st stimpar n None surp empty_ok remconsec false
          = Ok (qs, map (λ s, length s) qs, None)
    ∧ length qs = Z.to_nat n
    ∧ concat qs ≡ₚ segs
    ∧ ∀ i j qi qj seg, qs !! i = Some qi → qs !! j = Some qj →
        seg ∈ qi → seg ∈ qj → i = j.
Proof.
  intros Hn Hst Hq.
  destruct (crit_segs_subset _ _ _ _ _ Hst Hq) as (Hne & all_segs & Hall & Hsub).
  assert (query_segs st (all_seg_args stimpar) empty_ok = Ok all_segs) as Hq1.
  { unfold query_segs. by rewrite Hall. }
  assert (query_segs st (crit_seg_args stimpar surp remconsec) empty_ok = Ok segs) as Hq2.
  { unfold query_segs. by rewrite Hq. }
  pose proof (quint_segs_ok pos_idx st stimpar n None surp empty_ok remconsec
                (range n) all_segs segs ltac:(lia) eq_refl Hq1 Hq2) as Hok.
  cbv zeta in Hok. set (seg_min := fst (seg_extent all_segs)) in *.
  set (d := snd (seg_extent all_segs) - seg_min) in *.
  set (p := λ q seg, in_quint (Fin (inject_Z d / inject_Z n)) seg_min q seg) in *.
  assert (Hin : ∀ seg, seg ∈ segs → 0 ≤ seg - seg_min < d).
  { intros seg Hseg. apply Hsub, seg_extent_bounds in Hseg. subst d seg_min. lia. }
  assert (Hp : ∀ q seg, p q seg = true ↔
                 q * d ≤ n * (seg - seg_min) ∧ n * (seg - seg_min) < (q + 1) * d).
  { intros q seg. by apply in_quint_pos. }
  assert (Hbin : ∀ seg, seg ∈ segs →
            ∃ q, q ∈ range n ∧ ∀ q', p q' seg = true ↔ q' = q).
  { intros seg Hseg. specialize (Hin seg Hseg).
    exists (n * (seg - seg_min) / d).
    pose proof (Z.div_mod (n * (seg - seg_min)) d ltac:(lia)) as Hdm.
    pose proof (Z.mod_pos_bound (n * (seg - seg_min)) d ltac:(lia)) as Hmod.
    set (q0 := n * (seg - seg_min) / d) in *.
    set (r := (n * (seg - seg_min)) mod d) in *.
    split.
    - apply elem_of_range. nia.
    - intros q'. rewrite Hp. split; [|intros ->; nia]. intros [H1 H2]. nia. }
  eexists. split; [exact Hok|]. split; [unfold range; by rewrite !length_map, length_seq|].
  split.
  - apply (concat_filter_partition p); [apply NoDup_range|].
    intros seg Hseg. destruct (Hbin seg Hseg) as (q & Hq0 & Hone). eauto.
  - intros i j qi qj seg Hi Hj Hsi Hsj.
    change (map ?f ?l) with (f <$> l) in Hi, Hj. rewrite list_lookup_fmap in Hi, Hj.
    destruct (range n !! i) as [q1|] eqn:E1; [|done].
    destruct (range n !! j) as [q2|] eqn:E2; [|done].
    apply range_lookup in E1, E2. cbn in Hi, Hj. injection Hi as <-. injection Hj as <-.
    apply list_elem_of_filter in Hsi as [Hsi Hseg], Hsj as [Hsj _].
    destruct (Hbin seg Hseg) as (q & _ & Hone).
    apply Hone in Hsi, Hsj. lia.
Qed.

Lemma quint_segs_partition_any_witness :
  ∃ qs, quint_segs pos_idx_ex gab_stim gab_par 3 None (Vals [1]) false false false
          = Ok (qs, map (λ s, length s) qs, None)
    ∧ length qs = Z.to_nat 3
    ∧ concat qs ≡ₚ [9; 19; 29; 39; 49; 59; 69; 79; 89; 99]
    ∧ ∀ i j qi qj seg, qs !! i = Some qi → qs !! j = Some qj →
        seg ∈ qi → seg ∈ qj → i = j.
Proof.
  apply (quint_segs_partition_any pos_idx_ex gab_stim gab_par 3 (Vals [1]) false false).
  - lia.
  - by left.
  - vm_compute. reflexivity.
Defined.


(** The run lengths of a quintile, when the firsts of the runs and their
    lengths are lists of the same length: those paired with a first that
    falls in the quintile. *)
Lemma quint_n_consec_zip (qu_len : xfloat) (seg_min q : Z) (firsts : list Z)
    (n_consec : list nat) :
  length firsts = length n_consec →
  quint_n_consec qu_len seg_min q firsts n_consec
  = Ok (map snd (filter (λ sn, in_quint qu_len seg_min q (fst sn) = true)
                   (zip firsts n_consec))).
Proof.
  intros Hlen. unfold quint_n_consec.
  assert (∀ (off : nat) (ns : list nat) (ss : list Z),
            length ss = length ns → (∀ i, ss !! i = firsts !! (off + i)%nat) →
            mapM_res (λ '(i, n0), match firsts !! i with
                                  | Some s => Ok (if in_quint qu_len seg_min q s
                                                  then [n0] else [])
                                  | None => Raise IndexError
                                  end) (imap (λ i n0, ((off + i)%nat, n0)) ns)
            = Ok (map (λ sn, if in_quint qu_len seg_min q (fst sn) then [snd sn] else [])
                    (zip ss ns))) as Hgen.
  { intros off ns. revert off. induction ns as [|n0 ns IH]; intros off ss Hl Hss.
    - by destruct ss.
    - destruct ss as [|s ss]; [done|]. rewrite imap_cons. cbn [mapM_res zip zip_with map].
      rewrite <- (Hss 0%nat). cbn [lookup list_lookup fst snd].
      rewrite (imap_ext _ (λ i n1, ((S off + i)%nat, n1))).
      2:{ intros i x _. cbn. by replace (off + S i)%nat with (S (off + i)) by lia. }
      rewrite (IH (S off) ss); [done|by injection Hl|].
      intros i. replace (S off + i)%nat with (off + S i)%nat by lia.
      by rewrite <- (Hss (S i)). }
  change (imap pair n_consec) with (imap (λ i n0, ((0 + i)%nat, n0)) n_consec).
  rewrite (Hgen 0%nat n_consec firsts Hlen (λ i, eq_refl)). cbn [mbind result_bind].
  f_equal. induction (zip firsts n_consec) as [|[s n0] z IH]; [done|].
  cbn [map concat fst snd]. rewrite IH.
  destruct (in_quint qu_len seg_min q s) eqn:E.
  - by rewrite (filter_cons_True (λ sn, in_quint qu_len seg_min q sn.1 = true))
      by (by cbn).
  - by rewrite (filter_cons_False (λ sn, in_quint qu_len seg_min q sn.1 = true))
      by (cbn; congruence).
Qed.

Lemma filter_fst_zip {B} (P : Z → Prop) `{∀ x, Decision (P x)} (l : list Z) (k : list B) :
  length l = length k →
  filter P l = map fst (filter (λ sn, P (fst sn)) (zip l k)).
Proof.
  revert k. induction l as [|x l IH]; intros [|y k] Hl; try done.
  cbn [zip zip_with]. injection Hl as Hl. destruct (decide (P x)).
  - rewrite (filter_cons_True P), (filter_cons_True (λ sn, P sn.1)) by done.
    cbn. f_equal. by apply IH.
  - rewrite (filter_cons_False P), (filter_cons_False (λ sn, P sn.1)) by done.
    by apply IH.
Qed.

Lemma consec_lengths (idx : list Z) (smallest : bool) :
  length (fst (consec idx smallest)) = length (snd (consec idx smallest)).
Proof.
  unfold consec. destruct idx as [|v t]; [done|]. cbn [fst snd].
  by rewrite !length_map.
Qed.

(** X19.  The run lengths returned with [by_surp_len].  When the call
    returns, it returns one list of run lengths per retained quintile beside
    the list of segments, of the same length, and pairing the two gives pairs
    of a run's first segment and the run's length in the order of the runs:
    the [k]-th number of a quintile is the length of the run that starts at
    the [k]-th segment of the quintile. *)
Theorem quint_segs_run_lengths (pos_idx : list Z → Z → result (list Z)) (st : stim)
    (stimpar : StimPar) (n : Z) (qu_idx : option (list Z)) (surp : crit Z)
    (empty_ok remconsec : bool) (qs : list (list Z)) (qc : list nat)
    (nc : option (list (list nat))) :
  quint_segs pos_idx st stimpar n qu_idx surp empty_ok remconsec true = Ok (qs, qc, nc) →
  ∃ segs ncs,
    query_segs st (crit_seg_args stimpar surp remconsec) empty_ok = Ok segs
    ∧ nc = Some ncs ∧ length ncs = length qs
    ∧ ∀ k q_segs, qs !! k = Some q_segs →
        ∃ q_n, ncs !! k = Some q_n ∧ length q_n = length q_segs
          ∧ sublist (zip q_segs q_n)
              (zip (fst (consec segs false)) (snd (consec segs false))).
Proof.
  unfold quint_segs. intros H.
  destruct (retained_quints pos_idx n qu_idx) as [retained|]; [|done].
  cbn [mbind result_bind] in H.
  destruct (query_segs st (all_seg_args stimpar) empty_ok) as [all_segs|]; [|done].
  cbn [mbind result_bind] in H. destruct (seg_extent all_segs) as [seg_min seg_max].
  destruct (quint_len _ seg_min seg_max n) as [qu_len|]; [|done].
  cbn [mbind result_bind] in H.
  destruct (query_segs st (crit_seg_args stimpar surp remconsec) empty_ok)
    as [segs|]; [|done].
  cbn [mbind result_bind] in H.
  pose proof (consec_lengths segs false) as Hlen.
  destruct (consec segs false) as [firsts n_consec] eqn:Econs. cbn [fst snd] in *.
  rewrite (mapM_res_ext _ (λ q, map snd (filter (λ sn, in_quint qu_len seg_min q (fst sn) = true)
                                           (zip firsts n_consec)))) in H
    by (intros q _; by apply quint_n_consec_zip).
  cbn [mbind result_bind] in H. injection H as <- <- <-.
  exists segs. eexists. rewrite Econs. cbn [fst snd].
  split; [done|]. split; [done|]. split; [by rewrite !length_map|].
  intros k q_segs Hk. rewrite lookup_map in Hk. rewrite lookup_map.
  destruct (retained !! k) as [q|]; [|done].
  cbn [fmap option_fmap option_map] in Hk |- *. injection Hk as <-.
  eexists. split; [done|].
  rewrite (filter_fst_zip (λ seg, in_quint qu_len seg_min q seg = true) firsts n_consec Hlen).
  split; [by rewrite !length_fmap|].
  change (map ?f ?l) with (f <$> l). rewrite zip_fst_snd. apply sublist_filter.
Qed.

Lemma quint_segs_run_lengths_witness :
  ∃ segs ncs,
    query_segs gab_stim (crit_seg_args gab_par (Vals [0]) false) false = Ok segs
    ∧ Some [[9; 9; 9]; [9; 9]; [9; 9; 9]; [9; 9]]%nat = Some ncs ∧ length ncs = length
        [[0; 10; 20]; [30; 40]; [50; 60; 70]; [80; 90]]
    ∧ ∀ k q_segs, [[0; 10; 20]; [30; 40]; [50; 60; 70]; [80; 90]] !! k = Some q_segs →
        ∃ q_n, ncs !! k = Some q_n ∧ length q_n = length q_segs
          ∧ sublist (zip q_segs q_n)
              (zip (fst (consec segs false)) (snd (consec segs false))).
Proof.
  apply (quint_segs_run_lengths pos_idx_ex gab_stim gab_par 4 None (Vals [0]) false false
           _ [3; 2; 3; 2]%nat).
  vm_compute. reflexivity.
Defined.

End QuintilesMore.
(** ** Grayscreen frames *)

Section GrayFrames.
Import Session Grayscr.

Lemma fold_left_concat {A B} (f : B → A → B) (ls : list (list A)) (b : B) :
  fold_left (λ acc l, fold_left f l acc) ls b = fold_left f (concat ls) b.
Proof.
  revert b. induction ls as [|l ls IH]; intros b; [done|].
  cbn [fold_left concat]. by rewrite fold_left_app, IH.
Qed.

Lemma zero_ranges_lookup (a : list Z) (rs : list (nat * nat)) (i : nat) :
  length (fold_left (λ acc j, fill (fst j) (snd j) 0 acc) rs a) = length a
  ∧ ((∀ j, j ∈ rs → ¬ (fst j ≤ i < snd j)%nat) →
     fold_left (λ acc j, fill (fst j) (snd j) 0 acc) rs a !! i = a !! i)
  ∧ ((a !! i = Some 0 ∨ ∃ j, j ∈ rs ∧ (fst j ≤ i < snd j)%nat) → (i < length a)%nat →
     fold_left (λ acc j, fill (fst j) (snd j) 0 acc) rs a !! i = Some 0).
Proof.
  revert a. induction rs as [|j rs IH]; intros a.
  - cbn. split; [done|]. split; [done|]. intros [?|(j & Hj & _)]; [done|].
    by apply elem_of_nil in Hj.
  - cbn [fold_left]. destruct (IH (fill (fst j) (snd j) 0 a)) as (Hl & Hout & Hin).
    rewrite length_fill in Hl, Hin. split; [done|]. split.
    + intros Hno. rewrite Hout by (intros j' Hj'; apply Hno; by right).
      apply fill_lookup_out. specialize (Hno j ltac:(left)). lia.
    + intros Hcase Hi. apply Hin; [|done].
      destruct (decide (fst j ≤ i < snd j)%nat) as [Hj|Hj].
      * left. by apply fill_lookup_in.
      * rewrite fill_lookup_out by lia.
        destruct Hcase as [?|(j' & [->|Hj']%elem_of_cons & Hr)]; [by left|done|].
        right. eauto.
Qed.

Lemma zero_blocks_lookup (a : list Z) (blocks : list (list (nat * nat))) (i : nat) :
  length (zero_blocks a blocks) = length a
  ∧ ((∀ blk j, blk ∈ blocks → j ∈ blk → ¬ (fst j ≤ i < snd j)%nat) →
     zero_blocks a blocks !! i = a !! i)
  ∧ ((∃ blk j, blk ∈ blocks ∧ j ∈ blk ∧ (fst j ≤ i < snd j)%nat) → (i < length a)%nat →
     zero_blocks a blocks !! i = Some 0).
Proof.
  unfold zero_blocks. rewrite fold_left_concat.
  destruct (zero_ranges_lookup a (concat blocks) i) as (Hl & Hout & Hin).
  split; [done|]. split.
  - intros Hno. apply Hout. intros j Hj. apply elem_of_concat in Hj as (blk & Hj & Hblk).
    by apply (Hno blk).
  - intros (blk & j & Hblk & Hj & Hr) Hi. apply Hin; [|done].
    right. exists j. split; [|done]. apply elem_of_concat. eauto.
Qed.

Lemma np_where_count {A} (p : A → bool) (k : nat) (l : list A) :
  length (np_where_from p k l) = length (filter (λ x, p x = true) l).
Proof.
  revert k. induction l as [|x t IH]; intros k; [done|].
  cbn [np_where_from]. rewrite length_app, IH. destruct (p x) eqn:E.
  - by rewrite filter_cons_True.
  - rewrite filter_cons_False by congruence. done.
Qed.

Lemma nongab_zeros (a : list Z) :
  map (λ _, 0%nat) (np_where (λ x, x =? -1) a)
  = replicate (length (filter (λ x, x = -1) a)) 0%nat.
Proof.
  unfold np_where.
  assert (∀ k, map (λ _, 0%nat) (np_where_from (λ x, x =? -1) k a)
               = replicate (length (filter (λ x, x = -1) a)) 0%nat) as H; [|apply H].
  induction a as [|x t IH]; intros k; [done|].
  cbn [np_where_from]. rewrite map_app, IH. destruct (Z.eqb_spec x (-1)).
  - by rewrite filter_cons_True.
  - by rewrite filter_cons_False.
Qed.

Lemma nongab_frames_both (ragged_sum : list Z → list Z → result (list Z))
    (g : gabors_fr) (b : list Z) (grays : list nat) :
  length (gab_seg_list g) = length b →
  Forall (λ x, -1 ≤ x) (gab_seg_list g) → Forall (λ x, -1 ≤ x) b →
  get_all_nongab_stim_fr ragged_sum (Some g) (Some b) = Ok grays →
  ∀ i, i ∈ grays ↔
    gab_seg_list g !! i = Some (-1) ∧ b !! i = Some (-1)
    ∧ ∀ blk j, blk ∈ gab_block_ran_fr g → j ∈ blk → ¬ (fst j ≤ i < snd j)%nat.
Proof.
  intros Hlen Hg Hb. unfold get_all_nongab_stim_fr. cbn [app].
  destruct (zero_blocks_lookup (gab_seg_list g) (gab_block_ran_fr g) 0) as [Hl _].
  destruct (decide _) as [_|Hne]; [|by rewrite Hl in Hne].
  cbn [mbind result_bind]. destruct (decide _); [done|]. intros [= <-] i.
  rewrite elem_of_np_where, lookup_zip_with.
  destruct (zero_blocks_lookup (gab_seg_list g) (gab_block_ran_fr g) i) as (_ & Hout & Hin).
  rewrite Forall_forall in Hg, Hb.
  split.
  - intros (x & Hx & Hm). apply Z.eqb_eq in Hm as ->.
    destruct (zero_blocks _ _ !! i) as [u|] eqn:Hu; [|done]. cbn in Hx.
    destruct (b !! i) as [v|] eqn:Hv; [|done]. cbn in Hx. injection Hx as Hx.
    pose proof (Hb v (list_elem_of_lookup_2 _ _ _ Hv)) as Hv1.
    assert (i < length (gab_seg_list g))%nat as Hi
      by (rewrite Hlen; by apply lookup_lt_Some in Hv).
    destruct (decide (Exists (λ j, (fst j ≤ i < snd j)%nat)
                        (concat (gab_block_ran_fr g)))) as [Hc|Hc].
    + apply Exists_exists in Hc as (j & (blk & Hj & Hblk)%elem_of_concat & Hr).
      assert (Some u = Some 0) as [= ->] by (apply Hin; eauto). lia.
    + assert (∀ blk j, blk ∈ gab_block_ran_fr g → j ∈ blk → ¬ (fst j ≤ i < snd j)%nat)
        as Hno.
      { intros blk j ???. apply Hc, Exists_exists. exists j. split; [|done].
        apply elem_of_concat. eauto. }
      specialize (Hout Hno). symmetry in Hout.
      pose proof (Hg u (list_elem_of_lookup_2 _ _ _ Hout)) as Hu1.
      assert (u = -1) as -> by lia. assert (v = -1) as -> by lia. done.
  - intros (Hgi & Hbi & Hno). exists (-2). rewrite Hout, Hgi, Hbi by done. done.
Qed.

(** X20.  The grayscreen frames outside the gabor blocks.  For a session
    with both stimuli, whose segment lists have the same length and hold no
    number below -1, [get_all_nongab_stim_fr] returns exactly the frames at
    which both stimuli show -1 and which lie in no gabor block.  For a
    session with a single stimulus the list returned holds no frame number:
    it is a list of zeros, one for each frame that qualifies, because the
    frames are looked up in an array with one row.  Without any stimulus the
    call raises ValueError. *)
Theorem get_all_nongab_stim_fr_frames (ragged_sum : list Z → list Z → result (list Z)) :
  (∀ g b grays,
     length (gab_seg_list g) = length b →
     Forall (λ x, -1 ≤ x) (gab_seg_list g) → Forall (λ x, -1 ≤ x) b →
     get_all_nongab_stim_fr ragged_sum (Some g) (Some b) = Ok grays →
     ∀ i, i ∈ grays ↔
       gab_seg_list g !! i = Some (-1) ∧ b !! i = Some (-1)
       ∧ ∀ blk j, blk ∈ gab_block_ran_fr g → j ∈ blk → ¬ (fst j ≤ i < snd j)%nat)
  ∧ (∀ g grays, get_all_nongab_stim_fr ragged_sum (Some g) None = Ok grays →
       grays ≠ []
       ∧ grays = replicate
           (length (filter (λ x, x = -1)
                      (zero_blocks (gab_seg_list g) (gab_block_ran_fr g)))) 0%nat)
  ∧ (∀ b grays, get_all_nongab_stim_fr ragged_sum None (Some b) = Ok grays →
       grays ≠ [] ∧ grays = replicate (length (filter (λ x, x = -1) b)) 0%nat)
  ∧ ∃ msg, get_all_nongab_stim_fr ragged_sum None None = Raise (ValueError msg).
Proof.
  split_and!.
  - apply nongab_frames_both.
  - intros g grays. unfold get_all_nongab_stim_fr. cbn [app mbind result_bind].
    destruct (decide _) as [|Hne]; [done|]. intros [= <-]. rewrite nongab_zeros. split; [|done].
    intros E. rewrite nongab_zeros, E in Hne. done.
  - intros b grays. unfold get_all_nongab_stim_fr. cbn [app mbind result_bind].
    destruct (decide _) as [|Hne]; [done|]. intros [= <-]. rewrite nongab_zeros. split; [|done].
    intros E. rewrite nongab_zeros, E in Hne. done.
  - eexists. reflexivity.
Qed.


Lemma get_all_nongab_stim_fr_frames_witness :
  (∀ i, i ∈ [0; 1; 7]%nat ↔
     gab_seg_list {| gab_seg_list := [-1; -1; 0; -1; 1; -1; -1; -1];
                     gab_block_ran_fr := [[(2, 6)%nat]] |} !! i = Some (-1)
     ∧ [-1; -1; -1; -1; -1; -1; 0; -1] !! i = Some (-1)
     ∧ ∀ blk j, blk ∈ gab_block_ran_fr
                   {| gab_seg_list := [-1; -1; 0; -1; 1; -1; -1; -1];
                      gab_block_ran_fr := [[(2, 6)%nat]] |} →
         j ∈ blk → ¬ (fst j ≤ i < snd j)%nat)
  ∧ ([0; 0; 0; 0]%nat ≠ []
     ∧ [0; 0; 0; 0]%nat = replicate
         (length (filter (λ x, x = -1)
                    (zero_blocks [-1; -1; 0; -1; 1; -1; -1; -1] [[(2, 6)%nat]]))) 0%nat).
Proof.
  destruct (get_all_nongab_stim_fr_frames (λ _ _, Raise TypeError)) as (H1 & H2 & _).
  split.
  - apply (H1 {| gab_seg_list := [-1; -1; 0; -1; 1; -1; -1; -1];
                 gab_block_ran_fr := [[(2, 6)%nat]] |}
              [-1; -1; -1; -1; -1; -1; 0; -1]).
    + reflexivity.
    + cbn. repeat constructor; lia.
    + repeat constructor; lia.
    + vm_compute. reflexivity.
  - apply (H2 {| gab_seg_list := [-1; -1; 0; -1; 1; -1; -1; -1];
                 gab_block_ran_fr := [[(2, 6)%nat]] |}).
    vm_compute. reflexivity.
Defined.

(** The state of the loop over a prefix of the list, from the second
    frame on: the runs that have ended and the current run spell out the
    prefix. *)
Lemma runs_loop_prefix (j pre : list nat) (x : nat) (k0 : nat) (rest : list nat) :
  j = x :: pre ++ rest →
  ∃ first n a k,
    fold_left (runs_step j) (imap pair (x :: pre)) ([], [], k0) = (first ++ [a], n, k)
    ∧ length first = length n ∧ (1 ≤ k)%nat
    ∧ expand_runs first n ++ seq a k = x :: pre
    ∧ Forall (λ m, 1 ≤ m)%nat n.
Proof.
  intros Hj. revert rest Hj. induction pre as [|v pre IH] using rev_ind; intros rest Hj.
  - exists [], [], x, 1%nat. cbn. split_and!; try done; constructor.
  - rewrite <- app_assoc in Hj. cbn [app] in Hj.
    destruct (IH (v :: rest) Hj) as (first & n & a & k & Hfold & Hlen & Hk & Hexp & Hn).
    rewrite app_comm_cons, imap_app, fold_left_app, Hfold. cbn [imap fold_left runs_step].
    rewrite Nat.add_0_r. cbn [length].
    destruct (decide (S (length pre) = 0%nat)) as [|_]; [lia|].
    assert (j !! (S (length pre) - 1)%nat = last (x :: pre)) as Hprev.
    { rewrite last_lookup, Hj. cbn [length Nat.pred].
      replace (S (length pre) - 1)%nat with (length pre) by lia.
      rewrite app_comm_cons, lookup_app_l by (cbn; lia). done. }
    assert (last (x :: pre) = Some (a + k - 1)%nat) as Hlast.
    { rewrite <- Hexp. replace k with (S (k - 1)) by lia.
      rewrite seq_S, app_assoc, last_snoc. f_equal. lia. }
    rewrite Hprev, Hlast. cbn [fmap option_fmap option_map].
    destruct (decide (Some v ≠ Some (S (a + k - 1)))) as [Hne|Heq].
    + exists (first ++ [a]), (n ++ [k]), v, 1%nat. split_and!; try done.
      * rewrite !length_app. cbn. lia.
      * unfold expand_runs in *. rewrite zip_with_app by done.
        cbn [zip_with]. rewrite concat_app. cbn [concat seq].
        rewrite app_nil_r, Hexp. done.
      * apply Forall_app. split; [done|]. by constructor.
    + exists first, n, a, (S k). split_and!; try done; [lia|].
      assert (v = (a + k)%nat) as ->.
      { destruct (decide (v = (a + k)%nat)) as [|Hv]; [done|].
        exfalso. apply Heq. intros [= ->]. lia. }
      rewrite seq_S, app_assoc, Hexp. done.
Qed.

(** X21.  The runs of grayscreen frames spell out the frames.  When
    [get_first_nongab_stim_fr] returns, there are as many run lengths as
    first frames, every run holds at least one frame, and the runs written
    out, each first frame followed by its successors up to the length of the
    run, are the list of frames [get_all_nongab_stim_fr] returns. *)
Theorem get_first_nongab_stim_fr_runs (ragged_sum : list Z → list Z → result (list Z))
    (gabors : option gabors_fr) (bricks : option (list Z)) (first_grays n_grays : list nat) :
  get_first_nongab_stim_fr ragged_sum gabors bricks = Ok (first_grays, n_grays) →
  length first_grays = length n_grays
  ∧ Forall (λ m, 1 ≤ m)%nat n_grays
  ∧ get_all_nongab_stim_fr ragged_sum gabors bricks = Ok (expand_runs first_grays n_grays).
Proof.
  unfold get_first_nongab_stim_fr.
  destruct (get_all_nongab_stim_fr ragged_sum gabors bricks) as [grays|] eqn:Hall; [|done].
  cbn [mbind result_bind].
  assert (grays ≠ []) as Hne.
  { unfold get_all_nongab_stim_fr in Hall.
    destruct (match _ ++ _ with [] => _ | _ => _ end) as [gr|]; [|done].
    cbn [mbind result_bind] in Hall. destruct (decide _) as [|Hl]; [done|].
    injection Hall as <-. by destruct gr. }
  destruct grays as [|x pre]; [done|].
  destruct (runs_loop_prefix (x :: pre) pre x 0 []) as (first & n & a & k & Hfold & Hlen & Hk & Hexp & Hn).
  { by rewrite app_nil_r. }
  unfold runs_loop. rewrite Hfold. intros [= <- <-].
  split_and!.
  - rewrite !length_app. cbn. lia.
  - apply Forall_app. split; [done|]. by constructor.
  - f_equal. unfold expand_runs in *. rewrite zip_with_app by done.
    cbn [zip_with]. rewrite concat_app. cbn [concat]. by rewrite app_nil_r.
Qed.

Lemma get_first_nongab_stim_fr_runs_witness :
  length [0; 6]%nat = length [2; 2]%nat
  ∧ Forall (λ m, 1 ≤ m)%nat [2; 2]%nat
  ∧ get_all_nongab_stim_fr (λ _ _, Raise TypeError)
      (Some {| gab_seg_list := [-1; -1; 0; -1; 1; -1; -1; -1];
               gab_block_ran_fr := [[(2, 6)%nat]] |})
      (Some [-1; -1; -1; -1; -1; -1; -1; -1])
    = Ok (expand_runs [0; 6]%nat [2; 2]%nat).
Proof.
  apply (get_first_nongab_stim_fr_runs (λ _ _, Raise TypeError)).
  vm_compute. reflexivity.
Defined.

(** X22.  The grayscreen frames inside the gabor blocks.  Whatever the
    grouping, the frames [get_all_gab_stim_fr] returns are exactly the frames
    of a gabor block at which the gabor stimulus shows -1; a value of [by]
    other than 'block', 'frame' or 'disp' raises ValueError, as does a session
    without gabors.  In a session with both stimuli, under the conditions of
    [get_all_nongab_stim_fr], no frame is returned by both functions. *)
Theorem get_all_gab_stim_fr_frames (g : gabors_fr) :
  (∀ by_val o, get_all_gab_stim_fr (Some g) by_val = Ok o →
     ∀ f, f ∈ flat_grays o ↔
       gab_seg_list g !! f = Some (-1)
       ∧ ∃ blk j, blk ∈ gab_block_ran_fr g ∧ j ∈ blk ∧ (fst j ≤ f < snd j)%nat)
  ∧ (∀ by_val, by_val ∉ ["block"; "frame"; "disp"]%string →
       ∃ msg, get_all_gab_stim_fr (Some g) by_val = Raise (ValueError msg))
  ∧ (∀ by_val, ∃ msg, get_all_gab_stim_fr None by_val = Raise (ValueError msg))
  ∧ (∀ ragged_sum by_val o b grays f,
       length (gab_seg_list g) = length b →
       Forall (λ x, -1 ≤ x) (gab_seg_list g) → Forall (λ x, -1 ≤ x) b →
       get_all_gab_stim_fr (Some g) by_val = Ok o →
       get_all_nongab_stim_fr ragged_sum (Some g) (Some b) = Ok grays →
       f ∈ flat_grays o → f ∉ grays).
Proof.
  assert (∀ by_val o, get_all_gab_stim_fr (Some g) by_val = Ok o →
     ∀ f, f ∈ flat_grays o ↔
       gab_seg_list g !! f = Some (-1)
       ∧ ∃ blk j, blk ∈ gab_block_ran_fr g ∧ j ∈ blk ∧ (fst j ≤ f < snd j)%nat) as Hchar.
  { intros by_val o Ho f.
    set (frames := λ j : nat * nat,
           map (λ x, (x + fst j)%nat)
               (np_where (λ x, x =? -1) (slice (fst j) (snd j) (gab_seg_list g)))).
    assert (flat_grays o = concat (concat (map (λ i, map frames i) (gab_block_ran_fr g))))
      as ->.
    { unfold get_all_gab_stim_fr in Ho. fold frames in Ho.
      repeat (destruct (String.eqb by_val _); [by injection Ho as <-|]). done. }
    rewrite elem_of_concat. split.
    - intros (l & Hf & (ls & Hl & Hls)%elem_of_concat).
      apply list_elem_of_fmap in Hls as (blk & -> & Hblk).
      apply list_elem_of_fmap in Hl as (j & -> & Hj).
      unfold frames in Hf. apply list_elem_of_fmap in Hf as (x & -> & Hx).
      apply elem_of_np_where in Hx as (y & Hy & ->%Z.eqb_eq).
      unfold slice in Hy. apply lookup_take_Some in Hy as [Hy Hlt].
      rewrite lookup_drop in Hy. split.
      + by rewrite Nat.add_comm.
      + exists blk, j. split_and!; [done..|lia|lia].
    - intros (Hf & blk & j & Hblk & Hj & Hr). exists (frames j). split.
      + unfold frames. apply list_elem_of_fmap. exists (f - fst j)%nat. split; [lia|].
        apply elem_of_np_where. exists (-1). split; [|done].
        unfold slice. rewrite lookup_take_lt by lia. rewrite lookup_drop.
        by replace (fst j + (f - fst j))%nat with f by lia.
      + apply elem_of_concat. exists (map frames blk). split.
        * apply list_elem_of_fmap. eauto.
        * apply list_elem_of_fmap. eauto. }
  split_and!.
  - exact Hchar.
  - intros by_val Hby. rewrite !not_elem_of_cons in Hby. destruct Hby as (H1 & H2 & H3 & _).
    apply String.eqb_neq in H1, H2, H3. unfold get_all_gab_stim_fr.
    rewrite H1, H2, H3. eauto.
  - intros by_val. eexists. reflexivity.
  - intros ragged_sum by_val o b grays f Hlen Hg Hb Ho Hgr Hf Hin.
    apply (Hchar _ _ Ho) in Hf as (_ & blk & j & Hblk & Hj & Hr).
    apply (nongab_frames_both ragged_sum g b grays Hlen Hg Hb Hgr) in Hin as (_ & _ & Hno).
    by apply (Hno blk j).
Qed.


Lemma get_all_gab_stim_fr_frames_witness :
  (∀ f, f ∈ flat_grays (ByBlock [[3; 5]%nat]) ↔
     gab_seg_list {| gab_seg_list := [-1; -1; 0; -1; 1; -1; -1; -1];
                     gab_block_ran_fr := [[(2, 6)%nat]] |} !! f = Some (-1)
     ∧ ∃ blk j, blk ∈ gab_block_ran_fr
                   {| gab_seg_list := [-1; -1; 0; -1; 1; -1; -1; -1];
                      gab_block_ran_fr := [[(2, 6)%nat]] |}
         ∧ j ∈ blk ∧ (fst j ≤ f < snd j)%nat)
  ∧ (∃ msg, get_all_gab_stim_fr
              (Some {| gab_seg_list := [-1; -1; 0; -1; 1; -1; -1; -1];
                       gab_block_ran_fr := [[(2, 6)%nat]] |}) "seg"
            = Raise (ValueError msg))
  ∧ 3%nat ∉ [0; 1; 6; 7]%nat.
Proof.
  destruct (get_all_gab_stim_fr_frames
              {| gab_seg_list := [-1; -1; 0; -1; 1; -1; -1; -1];
                 gab_block_ran_fr := [[(2, 6)%nat]] |}) as (H1 & H2 & _ & H4).
  split_and!.
  - apply (H1 "block"%string). vm_compute. reflexivity.
  - apply H2. rewrite !not_elem_of_cons. split_and!; try done. apply not_elem_of_nil.
  - apply (H4 (λ _ _, Raise TypeError) "block"%string (ByBlock [[3; 5]%nat])
              [-1; -1; -1; -1; -1; -1; -1; -1]).
    + reflexivity.
    + cbn. repeat constructor; lia.
    + repeat constructor; lia.
    + vm_compute. reflexivity.
    + vm_compute. reflexivity.
    + cbn. rewrite !elem_of_cons. tauto.
Defined.

End GrayFrames.

(** ** Running speed: the repair is stable *)

Section RunSpeedStable.
Import Session Design.

Lemma fill_empty {A} (lo : nat) (v : A) (l : list A) : fill lo lo v l = l.
Proof. apply list_eq. intros i. apply fill_lookup_out. lia. Qed.

(** What a round that is not skipped does around its outlier: the sample
    after it becomes NaN, or, at index 0, the first sample becomes NaN or
    both samples are within the threshold of 0. *)
Lemma run_step_outlier (thr : Q) (run : list (option Q)) (s s' : run_state) (idx : nat) :
  run_step thr s idx = Ok s' → rs_at_idx s < Z.of_nat idx →
  (∀ i, rs_at_idx s < Z.of_nat i → rs_run s !! i = run !! i) →
  diff_exceeds thr run idx →
  rs_run s' !! S idx = Some None
  ∨ (idx = 0%nat
     ∧ (rs_run s' !! 0%nat = Some None
        ∨ ∃ a0 a1, run !! 0%nat = Some (Some a0) ∧ run !! 1%nat = Some (Some a1)
            ∧ abs_gt (Some a0) thr = false ∧ abs_gt (Some (a1 - 0)%Q) thr = false)).
Proof.
  intros Hstep Hat Hun (a & c & Ha & Hc & Hac).
  assert (rs_run s !! idx = Some (Some a)) as Ha' by (rewrite Hun by lia; done).
  assert (rs_run s !! S idx = Some (Some c)) as Hc' by (rewrite Hun by lia; done).
  assert (drop (S idx) (rs_run s) = Some c :: drop (S (S idx)) (rs_run s)) as Hdrop.
  { by apply drop_S. }
  revert Hstep. unfold run_step. apply Z.ltb_lt in Hat. rewrite Hat.
  destruct (decide (idx = 0%nat)) as [->|Hne].
  - rewrite Ha'. destruct (abs_gt (Some a) thr) eqn:E0; cbn [mbind result_bind].
    + destruct (nan_while _ _ _) as [k|]; [|done]. cbn [mbind result_bind].
      destruct (_ !! S (0 + k)) as [nxt|]; [|done]. intros [= <-]. cbn [rs_run].
      right. split; [done|]. left. rewrite fill_lookup_out by lia.
      apply list_lookup_insert_eq. by apply lookup_lt_Some in Ha'.
    + rewrite Hdrop. cbn [nan_while fsub].
      destruct (abs_gt (Some (c - 0)%Q) thr) eqn:E1.
      * destruct (nan_while _ _ _) as [k|]; [|done]. cbn [mbind result_bind].
        destruct (_ !! S (0 + S k)) as [nxt|]; [|done]. intros [= <-]. cbn [rs_run].
        left. apply fill_lookup_in; [lia|]. by apply lookup_lt_Some in Hc'.
      * intros _. right. split; [done|]. right. exists a, c. done.
  - rewrite Ha'. cbn [mbind result_bind]. rewrite Hdrop. cbn [nan_while fsub].
    assert (abs_gt (Some (c - a)%Q) thr = true) as -> by (apply abs_gt_spec; eauto).
    destruct (nan_while _ _ _) as [k|]; [|done]. cbn [mbind result_bind].
    destruct (_ !! S (idx + S k)) as [nxt|]; [|done]. intros [= <-]. cbn [rs_run].
    left. apply fill_lookup_in; [lia|]. by apply lookup_lt_Some in Hc'.
Qed.

(** After the loop every outlier has a NaN at one of its two samples,
    unless it is the outlier at index 0 with both samples within the
    threshold of 0. *)
Lemma run_loop_outliers (thr : Q) (run : list (option Q)) (out : list nat)
    (s s' : run_state) (b : nat) :
  StronglySorted lt out → Forall (λ i, b ≤ i)%nat out →
  Forall (diff_exceeds thr run) out →
  (∀ i, (b ≤ i)%nat → Z.of_nat i ≤ rs_at_idx s → rs_run s !! i = Some None) →
  (∀ i, rs_at_idx s < Z.of_nat i → rs_run s !! i = run !! i) →
  foldM (run_step thr) s out = Ok s' →
  ∀ idx, idx ∈ out →
    rs_run s' !! idx = Some None ∨ rs_run s' !! S idx = Some None
    ∨ (idx = 0%nat
       ∧ ∃ a0 a1, run !! 0%nat = Some (Some a0) ∧ run !! 1%nat = Some (Some a1)
           ∧ abs_gt (Some a0) thr = false ∧ abs_gt (Some (a1 - 0)%Q) thr = false).
Proof.
  revert s b. induction out as [|x t IH]; intros s b Hsort Hb Hd Hinv Hun Hloop idx Hin;
    [by apply elem_of_nil in Hin|].
  cbn [foldM] in Hloop.
  destruct (run_step thr s x) as [s1|] eqn:E1; [|done].
  apply StronglySorted_inv in Hsort as [Hsort Hx]. apply Forall_cons in Hb as [Hbx Hb].
  apply Forall_cons in Hd as [Hdx Hd].
  apply elem_of_cons in Hin as [->|Hin].
  - destruct (decide (rs_at_idx s < Z.of_nat x)) as [Hat|Hat].
    + destruct (run_step_outlier _ _ _ _ _ E1 Hat Hun Hdx) as [H1|(-> & [H0|H01])].
      * right. left. by eapply run_loop_nan_stays.
      * left. by eapply run_loop_nan_stays.
      * right. right. done.
    + rewrite run_step_skip in E1 by done. injection E1 as <-.
      left. eapply run_loop_nan_stays; [done|]. apply Hinv; [done|lia].
  - pose proof (run_step_later _ _ _ _ E1) as [Hle Hlater].
    apply (IH s1 (S x)); try done.
    + intros i Hi Hi'. destruct (decide (rs_at_idx s < Z.of_nat x)) as [Hat|Hat].
      * destruct (run_step_shape _ _ _ _ E1 Hat) as (k & fo & v & _ & Hk & Hat' & Hr & _).
        rewrite Hr. apply fill_lookup_in; [lia|]. destruct fo; rewrite ?length_insert; lia.
      * rewrite run_step_skip in E1 by done. injection E1 as <-. apply Hinv; [lia|done].
    + intros i Hi. destruct (Hlater i Hi) as [-> _]. apply Hun. lia.
Qed.

(** X23.  The repair is stable.  When [_load_run_speed] returns, running it
    again with the same threshold on the array [run] it returned changes
    nothing: it returns that array, unchanged, as both [run] and
    [run_interp].  The only outlier it can still detect is a first difference
    whose two samples are both within the threshold of 0, which it reports in
    a warning and leaves alone. *)
Theorem load_run_speed_stable (run : list (option Q)) (thr : Q)
    (r ri : list (option Q)) (n : nat) (w : list warning) :
  _load_run_speed run (Some thr) = Ok (r, ri, n, w) →
  ∃ w', _load_run_speed r (Some thr) = Ok (r, r, n, w')
    ∧ (w' = [] ∨ w' = [WarnRunReplaced 1]).
Proof.
  unfold _load_run_speed at 1.
  change (default diff_thr_default (Some thr)) with thr.
  destruct (foldM _ _ _) as [s|] eqn:Hloop; [|done]. cbn [mbind result_bind].
  intros [= <- <- <- <-].
  pose proof (run_loop_touch _ _ _ _ Hloop) as (L & _ & T & _). cbn [rs_run run_state0] in L, T.
  pose proof (run_loop_outliers thr run (out_idx run thr)
                (run_state0 run (length (out_idx run thr))) s 0
                (out_idx_sorted run thr)) as Hpost.
  specialize (Hpost ltac:(apply Forall_forall; intros; lia)).
  specialize (Hpost ltac:(apply Forall_forall; intros i Hi; by apply elem_of_out_idx)).
  specialize (Hpost ltac:(cbn; intros; lia) ltac:(done) Hloop).
  set (r := rs_run s) in *.
  assert (∀ i, i ∈ out_idx r thr →
            i = 0%nat ∧ ∃ a0 a1, r !! 0%nat = Some (Some a0) ∧ r !! 1%nat = Some (Some a1)
              ∧ abs_gt (Some a0) thr = false ∧ abs_gt (Some (a1 - 0)%Q) thr = false) as Hout.
  { intros i Hi. apply elem_of_out_idx in Hi as Hd. destruct Hd as (a & c & Ha & Hc & Hac).
    assert (run !! i = Some (Some a)) as Ha'.
    { destruct (T i) as [[<- _]|?]; [done|congruence]. }
    assert (run !! S i = Some (Some c)) as Hc'.
    { destruct (T (S i)) as [[<- _]|?]; [done|congruence]. }
    destruct (Hpost i) as [H1|[H1|(-> & a0 & a1 & H0 & H1 & Hs)]]; [|congruence|congruence|].
    { apply elem_of_out_idx. exists a, c. done. }
    split; [done|]. exists a0, a1.
    assert (a0 = a) as -> by congruence. assert (a1 = c) as -> by congruence. done. }
  unfold _load_run_speed. change (default diff_thr_default (Some thr)) with thr.
  pose proof (out_idx_sorted r thr) as Hsorted.
  destruct (out_idx r thr) as [|i0 rest] eqn:Eout.
  - cbn. exists []. split; [by rewrite L|by left].
  - destruct (Hout i0 ltac:(left)) as (-> & a0 & a1 & H0 & H1 & E0 & E1).
    destruct rest as [|i1 rest'].
    2:{ exfalso. destruct (Hout i1 ltac:(right; left)) as [-> _].
        apply StronglySorted_inv in Hsorted as [_ Hlt].
        apply Forall_cons in Hlt as [Hlt _]. lia. }
    exists [WarnRunReplaced 1]. split; [|by right].
    cbn [foldM length]. unfold run_step. cbn [run_state0 rs_at_idx rs_run rs_run_interp rs_warn].
    cbn [Z.of_nat Z.ltb Z.compare]. cbn [decide]. 
    destruct (decide (0%nat = 0%nat)) as [_|?]; [|done].
    rewrite H0, E0. cbn [mbind result_bind].
    rewrite (drop_S r (Some a1) 1 H1). cbn [nan_while fsub]. rewrite E1.
    cbn [mbind result_bind Nat.add]. rewrite !fill_empty, H1.
    cbn. rewrite !fill_empty. by rewrite L.
Qed.

Lemma load_run_speed_stable_witness :
  ∃ w', _load_run_speed [Some 0%Q; Some 1%Q; None; None; Some 4%Q; Some 5%Q] (Some 50%Q)
        = Ok ([Some 0%Q; Some 1%Q; None; None; Some 4%Q; Some 5%Q],
              [Some 0%Q; Some 1%Q; None; None; Some 4%Q; Some 5%Q], 6%nat, w')
    ∧ (w' = [] ∨ w' = [WarnRunReplaced 1]).
Proof.
  apply (load_run_speed_stable
           [Some 0%Q; Some 1%Q; Some 200%Q; Some 200%Q; Some 4%Q; Some 5%Q] 50
           _ [Some 0%Q; Some 1%Q; Some (5 # 2); Some (5 # 2); Some 4%Q; Some 5%Q]
           _ [WarnRunReplaced 2]).
  vm_compute. reflexivity.
Defined.

End RunSpeedStable.

(** ** Grayscreen runs inside the gabor blocks ([get_gab_gray_stim_fr]) *)

Section GabGrayRuns.
Import Session Grayscr.

Lemma runs_loop_runs (x : nat) (pre : list nat) (k0 : nat) :
  ∃ f n k, runs_loop (x :: pre) k0 = (f, n, k) ∧ runs_of f (n ++ [k]) (x :: pre).
Proof.
  destruct (runs_loop_prefix (x :: pre) pre x k0 [])
    as (first & n & a & k & Hfold & Hlen & Hk & Hexp & Hn).
  { by rewrite app_nil_r. }
  exists (first ++ [a]), n, k. split; [done|]. split_and!.
  - rewrite !length_app. cbn. lia.
  - apply Forall_app. split; [done|]. by constructor.
  - unfold expand_runs in *. rewrite zip_with_app by done.
    cbn [zip_with]. rewrite concat_app. cbn [concat]. by rewrite app_nil_r.
Qed.

(** The count a block without frames gets: the last count of the block
    before it in the display sequence, 0 in the first block. *)
Lemma disp_runs_spec (blocks : list (list nat)) :
  ∃ tf tn k,
    fold_left block_runs blocks ([], [], 0%nat) = (tf, tn, k)
    ∧ k = default 0%nat (last tn ≫= last)
    ∧ Forall3 (λ f m j, j ≠ [] → runs_of f m j) tf tn blocks
    ∧ ∀ b, blocks !! b = Some [] →
        tf !! b = Some []
        ∧ tn !! b = Some [match b with
                          | 0 => 0
                          | S b' => default 0 (tn !! b' ≫= last)
                          end]%nat.
Proof.
  induction blocks as [|j blocks IH] using rev_ind.
  - exists [], [], 0%nat. cbn. split_and!; try done. constructor.
  - destruct IH as (tf & tn & k & Hfold & Hk & Hall & Hemp).
    pose proof (Forall3_length_lm _ _ _ _ Hall) as L1.
    pose proof (Forall3_length_lr _ _ _ _ Hall) as L2.
    rewrite fold_left_app, Hfold. cbn [fold_left block_runs].
    assert (∀ m, match length blocks with
                 | 0 => 0
                 | S b' => default 0 ((tn ++ [m]) !! b' ≫= last)
                 end = k)%nat as Hprev.
    { intros m. rewrite Hk, last_lookup. destruct (length blocks) as [|b'] eqn:Eb.
      - destruct tn; [done|cbn in *; lia].
      - rewrite lookup_app_l by lia. replace (Nat.pred (length tn)) with b' by lia. done. }
    destruct j as [|x pre].
    + exists (tf ++ [[]]), (tn ++ [[k]]), k. cbn. split_and!; try done.
      * by rewrite last_snoc.
      * apply Forall3_app; [done|]. apply Forall3_cons; [done|constructor].
      * intros b Hb. destruct (decide (b < length blocks)%nat) as [Hlt|Hge].
        -- rewrite lookup_app_l in Hb by done. rewrite !lookup_app_l by lia.
           destruct (Hemp b Hb) as [-> ->]. split; [done|].
           destruct b as [|b']; [done|]. rewrite lookup_app_l by lia. done.
        -- apply lookup_lt_Some in Hb as Hb'. rewrite length_app in Hb'. cbn in Hb'.
           assert (b = length blocks) as -> by lia.
           rewrite <- L2 at 1. rewrite list_lookup_middle by done.
           rewrite <- L2, L1 at 1. rewrite list_lookup_middle by done.
           rewrite Hprev. done.
    + destruct (runs_loop_runs x pre k) as (f & n & k' & -> & Hruns).
      exists (tf ++ [f]), (tn ++ [n ++ [k']]), k'. split_and!; try done.
      * rewrite last_snoc. cbn [mbind option_bind]. by rewrite last_snoc.
      * apply Forall3_app; [done|]. apply Forall3_cons; [by intros _|constructor].
      * intros b Hb. destruct (decide (b < length blocks)%nat) as [Hlt|Hge].
        -- rewrite lookup_app_l in Hb by done. rewrite !lookup_app_l by lia.
           destruct (Hemp b Hb) as [-> ->]. split; [done|].
           destruct b as [|b']; [done|]. rewrite lookup_app_l by lia. done.
        -- apply lookup_lt_Some in Hb as Hb'. rewrite length_app in Hb'. cbn in Hb'.
           assert (b = length blocks) as -> by lia.
           by rewrite list_lookup_middle in Hb.
Qed.

Lemma Forall3_concat {A B C} (P : A → B → C → Prop) (ls1 : list (list A))
    (ls2 : list (list B)) (ls3 : list (list C)) :
  Forall3 (Forall3 P) ls1 ls2 ls3 → Forall3 P (concat ls1) (concat ls2) (concat ls3).
Proof.
  induction 1 as [|l1 l2 l3 ls1 ls2 ls3 H _ IH]; cbn [concat]; [constructor|].
  by apply Forall3_app.
Qed.

Lemma runs_of_concat (fs ms js : list (list nat)) :
  Forall3 runs_of fs ms js → runs_of (concat fs) (concat ms) (concat js).
Proof.
  induction 1 as [|f m j fs ms js (L & Hm & He) _ (L' & Hm' & He')]; cbn [concat].
  - by split_and!.
  - split_and!.
    + rewrite !length_app. lia.
    + by apply Forall_app.
    + unfold expand_runs in *. rewrite zip_with_app by done.
      rewrite concat_app. by rewrite He, He'.
Qed.

Lemma Forall_concat_inv {A} (P : A → Prop) (ls : list (list A)) :
  Forall P (concat ls) → Forall (Forall P) ls.
Proof.
  induction ls as [|l ls IH]; cbn [concat]; [constructor|].
  intros [H1 H2]%Forall_app. constructor; auto.
Qed.

(** What [get_all_gab_stim_fr] returns by display sequence determines what
    it returns for the other values of [by]. *)
Lemma get_all_gab_stim_fr_disp (gabors : option gabors_fr) (gg : list (list (list nat))) :
  get_all_gab_stim_fr gabors "disp" = Ok (ByDisp gg) →
  get_all_gab_stim_fr gabors "block" = Ok (ByBlock (concat gg))
  ∧ get_all_gab_stim_fr gabors "frame" = Ok (ByFrame (concat (concat gg))).
Proof.
  unfold get_all_gab_stim_fr. destruct gabors as [g|]; [|done].
  change (String.eqb "disp" "block") with false. change (String.eqb "disp" "frame") with false.
  change (String.eqb "disp" "disp") with true. change (String.eqb "block" "block") with true.
  change (String.eqb "frame" "block") with false. change (String.eqb "frame" "frame") with true.
  cbv iota. intros [= <-]. done.
Qed.

Lemma disp_runs_all (gg : list (list (list nat))) :
  Forall (Forall (λ j, j ≠ [])) gg →
  Forall3 (Forall3 runs_of) (map (λ i, fst (disp_runs i)) gg)
    (map (λ i, snd (disp_runs i)) gg) gg.
Proof.
  induction 1 as [|i gg Hi _ IH]; cbn [map]; constructor; [|done].
  unfold disp_runs. destruct (disp_runs_spec i) as (tf & tn & k & -> & _ & Hall & _).
  cbn [fst snd]. clear -Hall Hi. induction Hall as [|f m j tf tn i H _ IH]; [constructor|].
  apply Forall_cons in Hi as [Hj Hi]. constructor; auto.
Qed.

(** X24.  The runs of grayscreen frames inside the gabor blocks.  In a
    session in which every gabor block holds a grayscreen frame,
    [get_gab_gray_stim_fr] returns, for each of the three values of [by],
    first frames and run lengths grouped as [get_all_gab_stim_fr] groups
    the frames for that value, and group by group they spell out those
    frames: as many lengths as first frames, no run empty, and the runs
    written out are the frames. *)
Theorem get_gab_gray_stim_fr_runs (g : gabors_fr) (blocks : list (list nat)) (by_val : string) :
  get_all_gab_stim_fr (Some g) "block" = Ok (ByBlock blocks) →
  Forall (λ j, j ≠ []) blocks →
  by_val = "disp" ∨ by_val = "block" ∨ by_val = "frame" →
  ∃ first n grays,
    get_gab_gray_stim_fr (Some g) by_val = Ok (first, n)
    ∧ get_all_gab_stim_fr (Some g) by_val = Ok grays
    ∧ runs_of_out first n grays.
Proof.
  intros Hblocks Hne Hby.
  assert (∃ gg, get_all_gab_stim_fr (Some g) "disp" = Ok (ByDisp gg)) as [gg Hgg].
  { unfold get_all_gab_stim_fr. change (String.eqb "disp" "block") with false.
    change (String.eqb "disp" "frame") with false. change (String.eqb "disp" "disp") with true.
    cbv iota. eauto. }
  destruct (get_all_gab_stim_fr_disp _ _ Hgg) as [Hb Hf].
  rewrite Hb in Hblocks. injection Hblocks as <-.
  apply Forall_concat_inv in Hne. apply disp_runs_all in Hne.
  unfold get_gab_gray_stim_fr. rewrite Hgg. cbn [mbind result_bind]. cbv zeta.
  destruct Hby as [->|[->| ->]].
  - change (String.eqb "disp" "block") with false. change (String.eqb "disp" "frame") with false.
    change (String.eqb "disp" "disp") with true. cbv iota. cbn [orb negb].
    eexists _, _, _. split_and!; [done|done|]. done.
  - change (String.eqb "block" "block") with true. change (String.eqb "block" "frame") with false.
    cbn [orb]. eexists _, _, _. split_and!; [done|done|]. cbn [runs_of_out].
    by apply Forall3_concat.
  - change (String.eqb "frame" "block") with false. change (String.eqb "frame" "frame") with true.
    cbn [orb]. eexists _, _, _. split_and!; [done|done|]. cbn [runs_of_out].
    by apply runs_of_concat, Forall3_concat.
Qed.

Lemma get_gab_gray_stim_fr_runs_witness :
  ∃ first n grays,
    get_gab_gray_stim_fr
      (Some {| gab_seg_list := [-1; -1; 0; -1; -1; 1; -1; 2; 2; -1; -1; -1];
               gab_block_ran_fr := [[(2, 7)%nat]; [(7, 10)%nat]] |}) "block" = Ok (first, n)
    ∧ get_all_gab_stim_fr
        (Some {| gab_seg_list := [-1; -1; 0; -1; -1; 1; -1; 2; 2; -1; -1; -1];
                 gab_block_ran_fr := [[(2, 7)%nat]; [(7, 10)%nat]] |}) "block" = Ok grays
    ∧ runs_of_out first n grays.
Proof.
  apply (get_gab_gray_stim_fr_runs _ [[3; 4; 6]; [9]]%nat).
  - vm_compute. reflexivity.
  - repeat constructor; discriminate.
  - right. left. reflexivity.
Defined.

(** X25.  A gabor block without grayscreen frames.  [get_gab_gray_stim_fr]
    gives such a block no first frame and yet one run length: the last run
    length of the block before it in the same display sequence, as the
    counter is not set back between blocks, and 0 for the first block of a
    display sequence.  The two lists of the block then differ in length. *)
Theorem get_gab_gray_stim_fr_empty_block (gabors : option gabors_fr)
    (first n gg : list (list (list nat))) (d b : nat) (i : list (list nat)) :
  get_gab_gray_stim_fr gabors "disp" = Ok (ByDisp first, ByDisp n) →
  get_all_gab_stim_fr gabors "disp" = Ok (ByDisp gg) →
  gg !! d = Some i → i !! b = Some [] →
  ∃ fd nd,
    first !! d = Some fd ∧ n !! d = Some nd
    ∧ fd !! b = Some []
    ∧ nd !! b = Some [match b with
                      | 0 => 0
                      | S b' => default 0 (nd !! b' ≫= last)
                      end]%nat.
Proof.
  intros Hrun Hgg Hd Hb. unfold get_gab_gray_stim_fr in Hrun. rewrite Hgg in Hrun.
  cbn [mbind result_bind] in Hrun. cbv zeta in Hrun.
  change (String.eqb "disp" "block") with false in Hrun.
  change (String.eqb "disp" "frame") with false in Hrun.
  change (String.eqb "disp" "disp") with true in Hrun. cbn [orb negb] in Hrun.
  injection Hrun as <- <-.
  exists (fst (disp_runs i)), (snd (disp_runs i)).
  rewrite !lookup_map, Hd. cbn [fmap option_fmap option_map].
  unfold disp_runs. destruct (disp_runs_spec i) as (tf & tn & k & -> & _ & _ & Hemp).
  cbn [fst snd]. destruct (Hemp b Hb) as [-> ->]. done.
Qed.

Lemma get_gab_gray_stim_fr_empty_block_witness :
  ∃ fd nd,
    [[[3; 6]; []]]%nat !! 0%nat = Some fd ∧ [[[2; 1]; [1]]]%nat !! 0%nat = Some nd
    ∧ fd !! 1%nat = Some []
    ∧ nd !! 1%nat = Some [default 0 (nd !! 0%nat ≫= last)]%nat.
Proof.
  apply (get_gab_gray_stim_fr_empty_block
           (Some {| gab_seg_list := [-1; -1; 0; -1; -1; 1; -1; 2; 2; 3; -1; -1];
                    gab_block_ran_fr := [[(2, 7)%nat; (7, 10)%nat]] |})
           [[[3; 6]; []]]%nat [[[2; 1]; [1]]]%nat [[[3; 4; 6]; []]]%nat 0 1
           [[3; 4; 6]; []]%nat).
  - vm_compute. reflexivity.
  - vm_compute. reflexivity.
  - reflexivity.
  - reflexivity.
Defined.

End GabGrayRuns.

(** ** The warning about NaNs ([_warn_nans_diff_thr]) *)

Section NanWarning.
Import Session SessLoadUtil.

(** The differences of the paired indices at which the padded mask
    changes add up to the number of NaNs; [a] is the start of a run of NaNs
    that is still open. *)
Lemma pair_diffs_changes (run : list (option Q)) :
  ∀ k,
    sum_list (pair_diffs (np_where_from (λ b : bool, b) k
                            (changes (false :: map isnan run ++ [false]))))
    = length (filter (λ x, isnan x = true) run)
    ∧ Forall (λ n, 1 ≤ n)%nat
        (pair_diffs (np_where_from (λ b : bool, b) k
                       (changes (false :: map isnan run ++ [false]))))
    ∧ ∀ a, (a < k)%nat →
        sum_list (pair_diffs (a :: np_where_from (λ b : bool, b) k
                                (changes (true :: map isnan run ++ [false]))))
        = (k - a + length (filter (λ x, isnan x = true) run))%nat
        ∧ Forall (λ n, 1 ≤ n)%nat
            (pair_diffs (a :: np_where_from (λ b : bool, b) k
                           (changes (true :: map isnan run ++ [false])))).
Proof.
  induction run as [|x run IH]; intros k.
  - cbn. split_and!; [done|constructor|]. intros a Ha. split; [lia|].
    constructor; [lia|constructor].
  - destruct (IH (S k)) as (IHa & IHf & IHb).
    change (map isnan (x :: run) ++ [false]) with (isnan x :: map isnan run ++ [false]).
    change (changes (false :: isnan x :: map isnan run ++ [false]))
      with (xorb (isnan x) false :: changes (isnan x :: map isnan run ++ [false])).
    change (changes (true :: isnan x :: map isnan run ++ [false]))
      with (xorb (isnan x) true :: changes (isnan x :: map isnan run ++ [false])).
    destruct x as [v|]; cbn [isnan xorb np_where_from app].
    + rewrite filter_cons_False by done. split_and!; [done|done|].
      intros a Ha. cbn [pair_diffs]. change (sum_list (?n :: ?l)) with (n + sum_list l)%nat.
      rewrite IHa. split; [lia|]. constructor; [lia|done].
    + rewrite filter_cons_True by done. cbn [length].
      destruct (IHb k ltac:(lia)) as [Hs Hf]. split_and!.
      * rewrite Hs. lia.
      * done.
      * intros a Ha. destruct (IHb a ltac:(lia)) as [Hs' Hf']. split; [|done].
        rewrite Hs'. lia.
Qed.

Lemma StronglySorted_rev {A} (R : relation A) (l : list A) :
  StronglySorted R l → StronglySorted (flip R) (rev l).
Proof.
  induction 1 as [|x l _ IH Hx]; cbn [rev]; [constructor|].
  apply StronglySorted_app_2; [|done|repeat constructor].
  intros x1 x2 H1 ->%list_elem_of_singleton. apply list_elem_of_In in H1.
  apply (proj2 (in_rev l x1)), list_elem_of_In in H1. rewrite Forall_forall in Hx. unfold flip. by apply Hx.
Qed.

Lemma sum_list_filter_le (P : nat → Prop) `{!∀ n, Decision (P n)} (l : list nat) :
  (sum_list (filter P l) ≤ sum_list l)%nat.
Proof.
  induction l as [|x l IH]; [done|].
  destruct (decide (P x)).
  - rewrite filter_cons_True by done. cbn. lia.
  - rewrite filter_cons_False by done. cbn. lia.
Qed.

Lemma sum_list_filter_pos (l : list nat) :
  sum_list (filter (λ n, 0 < n)%nat l) = sum_list l.
Proof.
  induction l as [|x l IH]; [done|].
  destruct (decide (0 < x)%nat).
  - rewrite filter_cons_True by done. cbn. lia.
  - rewrite filter_cons_False by done. cbn. lia.
Qed.

(** X26.  What the warning about NaNs counts.  [_warn_nans_diff_thr] logs
    nothing for an array without NaN and one warning otherwise.  The warning
    gives the number of NaNs of the array; the run lengths it lists are all
    above [min_consec], are in descending order, and add up to no more than
    the number of NaNs.  With [min_consec] 0 every run is listed, and the
    lengths add up to the number of NaNs. *)
Theorem warn_nans_diff_thr_counts (run : list (option Q)) (min_consec : nat)
    (n_pre_existing : option nat) :
  let n_nans := length (filter (λ x, isnan x = true) run) in
  (n_nans = 0%nat → _warn_nans_diff_thr run min_consec n_pre_existing = [])
  ∧ (n_nans ≠ 0%nat →
     ∃ w, _warn_nans_diff_thr run min_consec n_pre_existing = [w]
       ∧ w_n_nans w = n_nans
       ∧ w_n_pre_existing w = n_pre_existing
       ∧ Forall (λ n, min_consec < n)%nat (w_n_consec w)
       ∧ StronglySorted ge (w_n_consec w)
       ∧ (sum_list (w_n_consec w) ≤ n_nans)%nat
       ∧ (min_consec = 0%nat → sum_list (w_n_consec w) = n_nans)).
Proof.
  intros n_nans. unfold _warn_nans_diff_thr. fold n_nans. cbv zeta.
  destruct (decide (n_nans = 0%nat)) as [H0|H0]; [done|].
  split; [done|]. intros _. eexists. split; [done|]. cbn [w_n_nans w_n_pre_existing w_n_consec].
  destruct (pair_diffs_changes run 0) as (Hsum & _ & _).
  change ([false] ++ map isnan run ++ [false]) with (false :: map isnan run ++ [false]).
  unfold np_where.
  set (d := pair_diffs _) in *.
  assert (sum_list (rev (merge_sort Nat.le d)) = n_nans) as Hrev.
  { unfold n_nans. rewrite <- Hsum, rev_alt.
    change (rev_append (merge_sort Nat.le d) []) with (reverse (merge_sort Nat.le d)).
    rewrite sum_list_with_reverse. by rewrite merge_sort_Permutation. }
  split_and!; try done.
  - apply Forall_forall. by intros n [Hn _]%list_elem_of_filter.
  - apply (StronglySorted_sublist _ _ _ (sublist_filter _ _)).
    apply (StronglySorted_rev Nat.le).
    apply (StronglySorted_merge_sort Nat.le).
  - rewrite <- Hrev. apply sum_list_filter_le.
  - intros ->. rewrite <- Hrev. apply sum_list_filter_pos.
Qed.

End NanWarning.
